(** * OpenClaw two-factor gate: risk classifier and request lifecycle manager

    A shallow embedding of [security/high-risk-detector.ts],
    [security/two-factor-auth.ts] and the request handlers of
    [gateway/server-methods/two-factor-auth.ts], followed by the
    properties of the specification that concern them and by further
    properties of the code.

    Conventions of the embedding.
    - A JavaScript string is its sequence of UTF-16 code units ([list N]).
    - [Date.now()], [crypto.randomUUID()] and [crypto.randomBytes(n)] are
      inputs of the operation that calls them.
    - Timestamps and durations are integers ([Z]); the floating point
      representation of JavaScript numbers is not modelled.
    - Request objects live in a heap and are referred to by location, so
      that the table entry, the timer callback and the caller all alias the
      same object, as they do in the source.
    - The manager runs on a single-threaded event loop: every method call
      and every timer callback runs to completion, so an execution is a
      sequence of operations. An armed timer may expire at any point of
      the sequence.
    - [String.prototype.toUpperCase] is a parameter of the manager: what
      is proved holds for every upper-casing function.
    - An exception ([URIError] of [encodeURIComponent]) is the result
      [None].
    - A [RegExp] object is its [test] on one call, without state: the
      built-in patterns have the flag [i] only. A pattern with the flag
      [g] or [y] keeps [lastIndex] between calls and is outside the
      embedding; a property that compares two classifications says so.
    - A timer records the delay that is handed to [setTimeout]. Node.js
      arms the timer for that delay when it lies between 1 and
      2147483647 ms, and for 1 ms otherwise; a property about the armed
      delay is stated within that range, and within the range of the
      integers that a JavaScript number represents exactly.
    - The global slot of the singleton accessors appears as the manager,
      or none, that a handler finds; [initTwoFactorAuth] itself and
      [formatTwoFactorAuthMessage] (floating point arithmetic) are not
      embedded, and no property below concerns them. *)

From Stdlib Require Import ZArith NArith List Bool Lia String Ascii.
From Stdlib Require Import Strings.Byte.
From stdpp Require Import gmap strings list fin_maps.
Import ListNotations.

Local Open Scope Z_scope.

(* ===================================================================== *)
(** ** JavaScript strings *)
(* ===================================================================== *)

Module JsString.

(** UTF-16 code units. *)
Abbreviation jsstring := (list N).

(** An ASCII literal as a JavaScript string. *)
Definition js (s : string) : jsstring :=
  map N_of_ascii (list_ascii_of_string s).

(** ECMAScript [WhiteSpace] and [LineTerminator] code points: the set
    stripped by [String.prototype.trim] and matched by [\s]. *)
Definition isWhiteSpace (c : N) : bool :=
  ((9 <=? c) && (c <=? 13)            (* TAB LF VT FF CR *)
   || (c =? 32)                       (* SPACE *)
   || (c =? 160)                      (* NBSP *)
   || (c =? 5760)                     (* U+1680 *)
   || ((8192 <=? c) && (c <=? 8202))  (* U+2000 .. U+200A *)
   || (c =? 8232) || (c =? 8233)      (* LS PS *)
   || (c =? 8239)                     (* U+202F *)
   || (c =? 8287)                     (* U+205F *)
   || (c =? 12288)                    (* U+3000 *)
   || (c =? 65279))%N.                (* U+FEFF *)

Fixpoint trimStart (s : jsstring) : jsstring :=
  match s with
  | c :: s' => if isWhiteSpace c then trimStart s' else s
  | [] => []
  end.

Definition trimEnd (s : jsstring) : jsstring :=
  rev (trimStart (rev s)).

(** [String.prototype.trim]. *)
Definition trim (s : jsstring) : jsstring := trimEnd (trimStart s).

(** [String.prototype.toUpperCase] restricted to what it does on ASCII
    letters; used to instantiate the upper-casing parameter of the
    manager on concrete ASCII inputs. *)
Definition asciiUpper (c : N) : N :=
  if ((97 <=? c) && (c <=? 122))%N then (c - 32)%N else c.

Definition asciiToUpperCase (s : jsstring) : jsstring := map asciiUpper s.

(** JavaScript truthiness of a string: non-empty. *)
Definition truthy (s : jsstring) : bool :=
  match s with [] => false | _ => true end.

End JsString.
Export JsString.

(* ===================================================================== *)
(** ** Code generator ([generateVerificationCode]) *)
(* ===================================================================== *)

Module CodeGen.

(** [const chars = "ABCDEFGHJKLMNPQRSTUVWXYZ23456789"] *)
Definition chars : jsstring := js "ABCDEFGHJKLMNPQRSTUVWXYZ23456789".

(** What [code += chars[idx]] appends: the character, or the text
    [undefined] when the index is out of range. *)
Definition charAt (idx : option nat) : jsstring :=
  match idx with
  | Some i =>
      match chars !! i with
      | Some c => [c]
      | None => js "undefined"
      end
  | None => js "undefined"
  end.

(** [randomBytes[i] % chars.length]; reading past the buffer gives
    [undefined], whose remainder is [NaN]. *)
Definition index (randomBytes : list byte) (i : nat) : option nat :=
  match randomBytes !! i with
  | Some b => Some (N.to_nat (Byte.to_N b) mod length chars)%nat
  | None => None
  end.

(** The loop [for (let i = 0; i < length; i++) code += ...], with [i]
    running upwards from [i] for [n] more iterations. *)
Fixpoint loop (randomBytes : list byte) (i n : nat) (code : jsstring)
  : jsstring :=
  match n with
  | O => code
  | S n' => loop randomBytes (S i) n' (code ++ charAt (index randomBytes i))
  end.

(** [generateVerificationCode(length)], where [randomBytes] is the
    buffer returned by [crypto.randomBytes(length)]. *)
Definition generateVerificationCode (length : nat) (randomBytes : list byte)
  : jsstring :=
  loop randomBytes 0 length [].

End CodeGen.

(* ===================================================================== *)
(** ** Regular expressions

    The fragment of ECMAScript regular expressions used by the built-in
    patterns, with the semantics of [RegExp.prototype.test] for a regular
    expression without the [g] and [y] flags (so that [test] has no state)
    and without the [m] and [u] flags. *)
(* ===================================================================== *)

Module Regex.

Inductive regex : Type :=
| Empty                               (* matches the empty string *)
| Char (ranges : list (N * N))        (* one code unit in a class *)
| Space                               (* \s *)
| Seq (r1 r2 : regex)
| Alt (r1 r2 : regex)
| Star (r : regex)
| Bol                                 (* ^ *)
| Eol                                 (* $ *)
| WordBoundary.                       (* \b *)

Definition inRanges (c : N) (ranges : list (N * N)) : bool :=
  existsb (fun '(lo, hi) => (lo <=? c) && (c <=? hi))%N ranges.

(** [\w]: the characters [A-Za-z0-9_]. *)
Definition isWordChar (c : option N) : bool :=
  match c with
  | Some c => inRanges c [(65, 90); (97, 122); (48, 57); (95, 95)]%N
  | None => false
  end.

(** Backtracking matcher in continuation-passing style: [matches r prev
    s k] holds when [r] matches a prefix of [s] (preceded in the input
    by the code unit [prev], if any) and [k] accepts the code unit
    before the rest and the rest. An iteration of a star has to consume
    input, as in ECMAScript. *)
Fixpoint matches (r : regex) (prev : option N) (s : jsstring)
    (k : option N -> jsstring -> bool) {struct r} : bool :=
  match r with
  | Empty => k prev s
  | Char ranges =>
      match s with
      | c :: s' => inRanges c ranges && k (Some c) s'
      | [] => false
      end
  | Space =>
      match s with
      | c :: s' => isWhiteSpace c && k (Some c) s'
      | [] => false
      end
  | Seq r1 r2 => matches r1 prev s (fun prev' s' => matches r2 prev' s' k)
  | Alt r1 r2 => matches r1 prev s k || matches r2 prev s k
  | Star r1 =>
      (fix iterate (fuel : nat) (prev : option N) (s : jsstring) : bool :=
         k prev s
         || match fuel with
            | O => false
            | S fuel' =>
                matches r1 prev s
                  (fun prev' s' =>
                     (length s' <? length s)%nat && iterate fuel' prev' s')
            end) (length s) prev s
  | Bol => match prev with None => k prev s | Some _ => false end
  | Eol => match s with [] => k prev s | _ :: _ => false end
  | WordBoundary => xorb (isWordChar prev) (isWordChar (head s)) && k prev s
  end.

(** Try the start positions from left to right. *)
Fixpoint search (r : regex) (prev : option N) (s : jsstring) : bool :=
  matches r prev s (fun _ _ => true)
  || match s with
     | c :: s' => search r (Some c) s'
     | [] => false
     end.

Definition exec (r : regex) (s : jsstring) : bool := search r None s.

(** *** Building blocks *)

Definition cat (rs : list regex) : regex := foldr Seq Empty rs.

Definition alts (rs : list regex) : regex :=
  match rs with
  | r :: rs' => fold_left Alt rs' r
  | [] => Char []
  end.

Definition plus (r : regex) : regex := Seq r (Star r).

(** One literal code unit under the [i] flag: an ASCII letter matches
    in both cases, any other code unit matches itself. *)
Definition ichar (c : N) : regex :=
  if ((65 <=? c) && (c <=? 90))%N then Char [(c, c); (c + 32, c + 32)]%N
  else if ((97 <=? c) && (c <=? 122))%N then Char [(c - 32, c - 32); (c, c)]%N
  else Char [(c, c)].

(** A literal under the [i] flag. *)
Definition lit (s : string) : regex := cat (map ichar (js s)).

(** [[a-zA-Z]] *)
Definition letter : regex := Char [(97, 122); (65, 90)]%N.

(** [[0-7]] *)
Definition octal : regex := Char [(48, 55)]%N.

(** [-[a-zA-Z]*c[a-zA-Z]*] *)
Definition flag (c : string) : regex :=
  cat [lit "-"; Star letter; lit c; Star letter].

End Regex.

(* ===================================================================== *)
(** ** Risk classifier ([high-risk-detector.ts]) *)
(* ===================================================================== *)

Module HighRisk.
Import Regex.

Inductive Severity := critical | high | medium.

(** A [RegExp] object, as far as the classifier uses it. *)
Record RegExp := { test : jsstring -> bool }.

Definition compile (r : regex) : RegExp := {| test := exec r |}.

Record HighRiskPattern := {
  id : jsstring;
  pattern : RegExp;
  description : jsstring;
  severity : Severity;
}.

Definition DEFAULT_HIGH_RISK_PATTERNS : list HighRiskPattern := [
  {| id := js "rm-recursive";
     pattern := compile
       (cat [Bol; lit "rm"; plus Space;
             alts [flag "r"; flag "f"; lit "--recursive"; lit "--force"];
             plus Space]);
     description := js "Recursive or forced file deletion";
     severity := critical |};
  {| id := js "sudo";
     pattern := compile
       (cat [Bol; alts [lit "sudo"; lit "doas"]; plus Space]);
     description := js "Elevated privilege command";
     severity := high |};
  {| id := js "drop-database";
     pattern := compile
       (cat [WordBoundary; lit "drop"; plus Space;
             alts [lit "database"; lit "table"; lit "schema"];
             WordBoundary]);
     description := js "Database object deletion";
     severity := critical |};
  {| id := js "git-force-push";
     pattern := compile
       (cat [Bol; lit "git"; plus Space; lit "push"; plus Space;
             alts [flag "f"; lit "--force"]]);
     description := js "Git force push";
     severity := high |};
  {| id := js "kubectl-delete";
     pattern := compile
       (cat [Bol; lit "kubectl"; plus Space; lit "delete"; plus Space]);
     description := js "Kubernetes resource deletion";
     severity := high |};
  {| id := js "docker-cleanup";
     pattern := compile
       (cat [Bol; lit "docker"; plus Space;
             alts [lit "rm"; lit "rmi";
                   cat [lit "system"; plus Space; lit "prune"];
                   cat [lit "container"; plus Space; lit "prune"];
                   cat [lit "image"; plus Space; lit "prune"]]]);
     description := js "Docker resource cleanup";
     severity := medium |};
  {| id := js "chmod-dangerous";
     pattern := compile
       (cat [Bol; lit "chmod"; plus Space;
             alts [flag "R"; lit "--recursive"]; plus Space;
             Star octal; octal; octal; octal; plus Space; lit "/"]);
     description := js "Recursive chmod on root paths";
     severity := critical |};
  {| id := js "chown-dangerous";
     pattern := compile
       (cat [Bol; lit "chown"; plus Space;
             alts [flag "R"; lit "--recursive"]; plus Space]);
     description := js "Recursive ownership change";
     severity := high |};
  {| id := js "format-disk";
     pattern := compile
       (cat [Bol;
             alts [lit "mkfs"; lit "fdisk"; lit "parted";
                   cat [lit "dd"; plus Space; lit "if="]]]);
     description := js "Disk formatting or low-level operations";
     severity := critical |};
  {| id := js "truncate-table";
     pattern := compile
       (cat [WordBoundary; lit "truncate"; plus Space; lit "table";
             WordBoundary]);
     description := js "Database table truncation";
     severity := critical |};
  {| id := js "2fa-test";
     pattern := compile (cat [Bol; lit "2fa-test"; Eol]);
     description := js "Manual 2FA test command";
     severity := medium |}
].

Record HighRiskDetectionResult := {
  isHighRisk : bool;
  matchedPattern : option HighRiskPattern;
  command : jsstring;
}.

Record HighRiskDetectorConfig := {
  enabled : bool;
  customPatterns : option (list HighRiskPattern);
  disabledPatternIds : option (list jsstring);
}.

(** [new Set(config.disabledPatternIds ?? [])] *)
Definition disabledSet (ids : option (list jsstring)) : gset jsstring :=
  list_to_set (default [] ids).

(** [[...DEFAULT_HIGH_RISK_PATTERNS.filter((p) => !disabledIds.has(p.id)),
      ...(config.customPatterns ?? [])]] *)
Definition effectivePatterns (disabledIds : gset jsstring)
    (customs : option (list HighRiskPattern)) : list HighRiskPattern :=
  filter (fun p => id p ∉ disabledIds) DEFAULT_HIGH_RISK_PATTERNS
  ++ default [] customs.

(** The [for (const pattern of patterns)] loop and the final return. *)
Fixpoint scan (patterns : list HighRiskPattern) (trimmedCommand : jsstring)
  : HighRiskDetectionResult :=
  match patterns with
  | p :: rest =>
      if test (pattern p) trimmedCommand
      then {| isHighRisk := true; matchedPattern := Some p;
              command := trimmedCommand |}
      else scan rest trimmedCommand
  | [] =>
      {| isHighRisk := false; matchedPattern := None;
         command := trimmedCommand |}
  end.

Definition detectHighRiskCommand (command : jsstring)
    (config : option HighRiskDetectorConfig) : HighRiskDetectionResult :=
  let trimmedCommand := trim command in
  match config with
  | Some cfg =>
      if negb (enabled cfg)
      then {| isHighRisk := false; matchedPattern := None;
              command := trimmedCommand |}
      else
        let disabledIds := disabledSet (disabledPatternIds cfg) in
        scan (effectivePatterns disabledIds (customPatterns cfg))
             trimmedCommand
  | None =>
      {| isHighRisk := false; matchedPattern := None;
         command := trimmedCommand |}
  end.

(** The pattern does not accept the (trimmed) command. *)
Definition rejects (trimmedCommand : jsstring) (p : HighRiskPattern) : Prop :=
  test (pattern p) trimmedCommand = false.

(** [getHighRiskPatterns(config)] *)
Definition getHighRiskPatterns (config : option HighRiskDetectorConfig)
  : list HighRiskPattern :=
  effectivePatterns
    (disabledSet (config ≫= disabledPatternIds))
    (config ≫= customPatterns).

(** [isHighRiskDetectionEnabled(config)] *)
Definition isHighRiskDetectionEnabled
    (config : option HighRiskDetectorConfig) : bool :=
  default false (enabled <$> config).

End HighRisk.

(* ===================================================================== *)
(** ** Request lifecycle manager ([two-factor-auth.ts]) *)
(* ===================================================================== *)

Module TwoFactor.

(** ["pending" | "verified" | "expired" | "cancelled"] *)
Inductive TwoFactorRequestStatus := Pending | Verified | Expired | Cancelled.

Record TwoFactorRequest := {
  id : jsstring;
  command : jsstring;
  verificationCode : jsstring;
  createdAtMs : Z;
  expiresAtMs : Z;
  status : TwoFactorRequestStatus;
  sessionKey : option jsstring;
  agentId : option jsstring;
  channelId : option jsstring;
  userId : option jsstring;
  resolvedAtMs : option Z;
}.

Record TwoFactorRequestPayload := {
  payload_command : jsstring;
  payload_sessionKey : option jsstring;
  payload_agentId : option jsstring;
  payload_channelId : option jsstring;
  payload_userId : option jsstring;
}.

Record MockConfig := {
  mock_enabled : option bool;
  mock_authUrl : option jsstring;
  mock_code : option jsstring;
}.

(** [timeoutSeconds] is declared as a number, but [create] defaults it
    with [??], so that an absent value is represented too. *)
Record TwoFactorConfig := {
  enabled : bool;
  timeoutSeconds : option Z;
  authBaseUrl : jsstring;
  codeLength : option nat;
  mock : option MockConfig;
}.

Definition DEFAULT_CODE_LENGTH : nat := 6.
Definition DEFAULT_TIMEOUT_SECONDS : Z := 300.

(** References to request objects, promise resolvers and timer handles. *)
Abbreviation ref := nat.
Abbreviation resolver := nat.
Abbreviation handle := nat.

Record PendingEntry := {
  request : ref;
  resolve : resolver;
  timer : handle;
}.

(** An armed timer: the closure passed to [setTimeout] in
    [waitForVerification] (its captured variables) and its delay. *)
Record TimerTask := {
  task_request : ref;
  task_resolve : resolver;
  task_delay : Z;
}.

(** The manager ([pending]) together with the part of the JavaScript
    runtime it acts on: the request objects, the armed timers, and the
    calls made so far to promise resolvers (latest first). *)
Record State := {
  heap : gmap ref TwoFactorRequest;
  nextRef : ref;
  pending : gmap jsstring PendingEntry;
  timers : gmap handle TimerTask;
  nextTimer : handle;
  nextPromise : resolver;
  resolveLog : list (resolver * bool);
}.

Definition init : State := {|
  heap := ∅; nextRef := 0%nat; pending := ∅; timers := ∅;
  nextTimer := 0%nat; nextPromise := 0%nat; resolveLog := [];
|}.

(** *** Field updates *)

Definition withStatus (st : TwoFactorRequestStatus) (r : TwoFactorRequest)
  : TwoFactorRequest := {|
    id := id r; command := command r;
    verificationCode := verificationCode r;
    createdAtMs := createdAtMs r; expiresAtMs := expiresAtMs r;
    status := st;
    sessionKey := sessionKey r; agentId := agentId r;
    channelId := channelId r; userId := userId r;
    resolvedAtMs := resolvedAtMs r;
  |}.

Definition withResolvedAtMs (t : Z) (r : TwoFactorRequest)
  : TwoFactorRequest := {|
    id := id r; command := command r;
    verificationCode := verificationCode r;
    createdAtMs := createdAtMs r; expiresAtMs := expiresAtMs r;
    status := status r;
    sessionKey := sessionKey r; agentId := agentId r;
    channelId := channelId r; userId := userId r;
    resolvedAtMs := Some t;
  |}.

Definition setHeap (h : gmap ref TwoFactorRequest) (s : State) : State := {|
  heap := h; nextRef := nextRef s; pending := pending s;
  timers := timers s; nextTimer := nextTimer s;
  nextPromise := nextPromise s; resolveLog := resolveLog s;
|}.

(** [request.status = st] through the reference [l]. *)
Definition setStatus (l : ref) (st : TwoFactorRequestStatus) (s : State)
  : State := setHeap (alter (withStatus st) l (heap s)) s.

(** [request.resolvedAtMs = t] through the reference [l]. *)
Definition setResolvedAtMs (l : ref) (t : Z) (s : State) : State :=
  setHeap (alter (withResolvedAtMs t) l (heap s)) s.

(** [this.pending.delete(requestId)] *)
Definition pendingDelete (requestId : jsstring) (s : State) : State := {|
  heap := heap s; nextRef := nextRef s;
  pending := delete requestId (pending s);
  timers := timers s; nextTimer := nextTimer s;
  nextPromise := nextPromise s; resolveLog := resolveLog s;
|}.

(** [clearTimeout(timer)]: disarms the timer; no effect on a timer that
    has fired or has been cleared. *)
Definition clearTimeout (t : handle) (s : State) : State := {|
  heap := heap s; nextRef := nextRef s; pending := pending s;
  timers := delete t (timers s); nextTimer := nextTimer s;
  nextPromise := nextPromise s; resolveLog := resolveLog s;
|}.

(** A call [resolve(verified)] of a promise resolver. *)
Definition callResolve (p : resolver) (verified : bool) (s : State)
  : State := {|
    heap := heap s; nextRef := nextRef s; pending := pending s;
    timers := timers s; nextTimer := nextTimer s;
    nextPromise := nextPromise s;
    resolveLog := (p, verified) :: resolveLog s;
  |}.

(** The values passed to the resolver [p], in the order of the calls. *)
Definition calls (s : State) (p : resolver) : list bool :=
  rev (map snd (filter (fun c => c.1 = p) (resolveLog s))).

(** What the waiter on [p] receives: a promise settles with the value
    of the first call of its resolver and ignores the later ones. *)
Definition outcome (s : State) (p : resolver) : option bool :=
  head (calls s p).

Inductive WaitResult :=
| Settled (verified : bool)     (* the promise is already fulfilled *)
| Suspended (p : resolver).     (* the caller waits for a call of [p] *)

Record VerifyResult := {
  success : bool;
  error : option string;
}.

Section Manager.

(** [String.prototype.toUpperCase], whose Unicode case mapping is the
    runtime's. *)
Variable toUpperCase : jsstring -> jsstring.

(** [this.config] *)
Variable config : TwoFactorConfig.

(** [this.config.mock?.enabled === true
       ? this.config.mock.code?.trim() || "123456" : null] *)
Definition mockCode : option jsstring :=
  match mock config with
  | Some m =>
      match mock_enabled m with
      | Some true =>
          match trim <$> mock_code m with
          | Some c => if truthy c then Some c else Some (js "123456")
          | None => Some (js "123456")
          end
      | _ => None
      end
  | None => None
  end.

(** [create(payload)]: [now] is [Date.now()], [uuid] is
    [crypto.randomUUID()], and [randomBytes] is the buffer that
    [crypto.randomBytes] returns if the generator is called. *)
Definition create (now : Z) (uuid : jsstring) (randomBytes : list byte)
    (payload : TwoFactorRequestPayload) (s : State) : ref * State :=
  let timeoutMs := default DEFAULT_TIMEOUT_SECONDS (timeoutSeconds config) * 1000 in
  let codeLength := default DEFAULT_CODE_LENGTH (codeLength config) in
  let request := {|
    id := uuid;
    command := payload_command payload;
    verificationCode :=
      match mockCode with
      | Some c => c
      | None => CodeGen.generateVerificationCode codeLength randomBytes
      end;
    createdAtMs := now;
    expiresAtMs := now + timeoutMs;
    status := Pending;
    sessionKey := payload_sessionKey payload;
    agentId := payload_agentId payload;
    channelId := payload_channelId payload;
    userId := payload_userId payload;
    resolvedAtMs := None;
  |} in
  let l := nextRef s in
  (l, {| heap := <[l := request]> (heap s); nextRef := S l;
         pending := pending s; timers := timers s;
         nextTimer := nextTimer s; nextPromise := nextPromise s;
         resolveLog := resolveLog s |}).

(** [waitForVerification(request)] up to the point where it returns
    or suspends; [now] is [Date.now()]. A reference always denotes an
    object, so the first branch is not taken in an execution. *)
Definition waitForVerification (l : ref) (now : Z) (s : State)
  : WaitResult * State :=
  match heap s !! l with
  | None => (Settled false, s)
  | Some r =>
      let timeoutMs := expiresAtMs r - now in
      if timeoutMs <=? 0 then
        (Settled false, setStatus l Expired s)
      else
        let p := nextPromise s in
        let t := nextTimer s in
        (Suspended p,
         {| heap := heap s; nextRef := nextRef s;
            pending :=
              <[id r := {| request := l; resolve := p; timer := t |}]>
                (pending s);
            timers :=
              <[t := {| task_request := l; task_resolve := p;
                        task_delay := timeoutMs |}]> (timers s);
            nextTimer := S t; nextPromise := S p;
            resolveLog := resolveLog s |})
  end.

(** The callback given to [setTimeout] by [waitForVerification],
    run by the event loop when the armed timer [t] expires. *)
Definition onTimeout (t : handle) (s : State) : State :=
  match timers s !! t with
  | None => s
  | Some task =>
      let s := clearTimeout t s in      (* a fired timer is no longer armed *)
      match heap s !! task_request task with
      | None => s
      | Some r =>
          let s := pendingDelete (id r) s in
          let s := setStatus (task_request task) Expired s in
          callResolve (task_resolve task) false s
      end
  end.

(** [verify(requestId, code)]; [now] is the first [Date.now()] and
    [now'] the second one. *)
Definition verify (requestId code : jsstring) (now now' : Z) (s : State)
  : VerifyResult * State :=
  match pending s !! requestId with
  | None =>
      ({| success := false;
          error := Some "Request not found or expired"%string |}, s)
  | Some entry =>
      match heap s !! request entry with
      | None =>
          ({| success := false;
              error := Some "Request not found or expired"%string |}, s)
      | Some r =>
          if now >? expiresAtMs r then
            let s := clearTimeout (timer entry) s in
            let s := pendingDelete requestId s in
            let s := setStatus (request entry) Expired s in
            let s := callResolve (resolve entry) false s in
            ({| success := false;
                error := Some "Request expired"%string |}, s)
          else
            let normalizedInput := toUpperCase (trim code) in
            let normalizedExpected :=
              toUpperCase (trim (verificationCode r)) in
            if bool_decide (normalizedInput ≠ normalizedExpected) then
              ({| success := false;
                  error := Some "Invalid verification code"%string |}, s)
            else
              let s := clearTimeout (timer entry) s in
              let s := pendingDelete requestId s in
              let s := setStatus (request entry) Verified s in
              let s := setResolvedAtMs (request entry) now' s in
              let s := callResolve (resolve entry) true s in
              ({| success := true; error := None |}, s)
      end
  end.

(** [cancel(requestId)] *)
Definition cancel (requestId : jsstring) (s : State) : bool * State :=
  match pending s !! requestId with
  | None => (false, s)
  | Some entry =>
      let s := clearTimeout (timer entry) s in
      let s := pendingDelete requestId s in
      let s := setStatus (request entry) Cancelled s in
      let s := callResolve (resolve entry) false s in
      (true, s)
  end.

(** [getRequest(requestId)]: the reference held by the entry, or
    [null]. *)
Definition getRequest (requestId : jsstring) (s : State) : option ref :=
  request <$> pending s !! requestId.

(** [getPendingCount()] *)
Definition getPendingCount (s : State) : nat := size (pending s).

(** *** Executions

    The operations that act on a manager: the calls of its methods
    and the expiry of an armed timer. *)
Inductive Op :=
| OpCreate (now : Z) (uuid : jsstring) (randomBytes : list byte)
           (payload : TwoFactorRequestPayload)
| OpWait (l : ref) (now : Z)
| OpVerify (requestId code : jsstring) (now now' : Z)
| OpCancel (requestId : jsstring)
| OpTimeout (t : handle).

Definition step (op : Op) (s : State) : State :=
  match op with
  | OpCreate now uuid randomBytes payload =>
      (create now uuid randomBytes payload s).2
  | OpWait l now => (waitForVerification l now s).2
  | OpVerify requestId code now now' =>
      (verify requestId code now now' s).2
  | OpCancel requestId => (cancel requestId s).2
  | OpTimeout t => onTimeout t s
  end.

Definition run (ops : list Op) (s : State) : State :=
  foldl (fun s op => step op s) s ops.

(** The states of a manager in an execution that starts from a new
    manager, whatever the operations and their order. *)
Inductive reachable : State -> Prop :=
| reachable_init : reachable init
| reachable_step op s : reachable s -> reachable (step op s).

(** The result of [verify] reports a terminal transition: success,
    or the discovery of a missed deadline. *)
Definition terminalResult (res : VerifyResult) : bool :=
  success res || bool_decide (error res = Some "Request expired"%string).

(** [performs k op s]: run in [s], the operation [op] performs a
    terminal transition for the request id [k]. *)
Definition performs (k : jsstring) (op : Op) (s : State) : bool :=
  match op with
  | OpVerify requestId code now now' =>
      bool_decide (requestId = k)
      && terminalResult (verify requestId code now now' s).1
  | OpCancel requestId =>
      bool_decide (requestId = k) && (cancel requestId s).1
  | OpTimeout t =>
      match timers s !! t with
      | Some task =>
          match heap s !! task_request task with
          | Some r => bool_decide (id r = k)
          | None => false
          end
      | None => false
      end
  | OpCreate _ _ _ _ | OpWait _ _ => false
  end.

(** The number of terminal transitions for [k] in an execution. *)
Fixpoint transitions (k : jsstring) (ops : list Op) (s : State) : nat :=
  match ops with
  | op :: ops' =>
      ((if performs k op s then 1 else 0) + transitions k ops' (step op s))%nat
  | [] => 0%nat
  end.

(** [op] is a call of [waitForVerification] on a request whose id
    is [k]. *)
Definition waitsOn (k : jsstring) (op : Op) (s : State) : bool :=
  match op with
  | OpWait l _ =>
      match heap s !! l with
      | Some r => bool_decide (id r = k)
      | None => false
      end
  | _ => false
  end.

(** No operation of the execution starts a wait on the id [k]. *)
Fixpoint noWaitOn (k : jsstring) (ops : list Op) (s : State) : Prop :=
  match ops with
  | op :: ops' => waitsOn k op s = false /\ noWaitOn k ops' (step op s)
  | [] => True
  end.

End Manager.

(** The references on which an execution calls [waitForVerification]. *)
Definition waitRefs (ops : list Op) : list ref :=
  omap (fun op => match op with OpWait l _ => Some l | _ => None end) ops.

Definition statusOf (s : State) (l : ref) : option TwoFactorRequestStatus :=
  status <$> heap s !! l.

(** An armed timer concerns the id [k]. *)
Definition timerFor (s : State) (k : jsstring) (t : handle) : Prop :=
  exists task r,
    timers s !! t = Some task /\ heap s !! task_request task = Some r
    /\ id r = k.

(** One waiter at most is registered for [k]: an armed timer that
    concerns [k] is the timer of the table entry of [k]. *)
Definition soleWaiter (s : State) (k : jsstring) : Prop :=
  forall t, timerFor s k t ->
    exists entry, pending s !! k = Some entry /\ timer entry = t.

(** Nothing is registered for [k]: no table entry, no armed timer. *)
Definition quiet (s : State) (k : jsstring) : Prop :=
  pending s !! k = None /\ forall t, ~ timerFor s k t.

(** No timer has been registered for the request [l], which is still
    pending. *)
Definition unregistered (s : State) (l : ref) : Prop :=
  statusOf s l = Some Pending
  /\ forall t task, timers s !! t = Some task -> task_request task <> l.

(** Invariant of the executions in which [waitForVerification] is
    called at most once on each request, [W] being the requests on
    which it has been called so far. *)
Record WaitedOnce (W : list ref) (s : State) : Prop := {
  once_timer : forall t task, timers s !! t = Some task ->
    task_request task ∈ W
    /\ statusOf s (task_request task) = Some Pending;
  once_unique : forall t1 t2 task1 task2,
    timers s !! t1 = Some task1 -> timers s !! t2 = Some task2 ->
    task_request task1 = task_request task2 -> t1 = t2;
  once_fresh : forall l, l ∉ W ->
    statusOf s l = None \/ statusOf s l = Some Pending;
}.

(** In the execution [ops] of a new manager, a status that is terminal
    at some point is the same at the end. Over all executions: a
    terminal status is never changed. *)
Definition statusImmutable (toUpperCase : jsstring -> jsstring)
    (config : TwoFactorConfig) (ops : list Op) : Prop :=
  forall ops1 ops2 l st,
    ops = ops1 ++ ops2 ->
    statusOf (run toUpperCase config ops1 init) l = Some st ->
    st <> Pending ->
    statusOf (run toUpperCase config ops init) l = Some st.

(** In the execution [ops] of a new manager, the first status of a
    request object is [Pending]. *)
Definition startsPending (toUpperCase : jsstring -> jsstring)
    (config : TwoFactorConfig) (ops : list Op) : Prop :=
  forall ops1 op ops2 l st,
    ops = ops1 ++ op :: ops2 ->
    statusOf (run toUpperCase config ops1 init) l = None ->
    statusOf (run toUpperCase config (ops1 ++ [op]) init) l = Some st ->
    st = Pending.

(** How an operation changes the manager: nothing, a new request
    object, an immediate expiry in [waitForVerification], a
    registration, or a terminal transition that retires an armed
    timer. The proofs of the invariants go by these five cases. *)
Inductive Change (toUpperCase : jsstring -> jsstring)
    (op : Op) (s s' : State) : Prop :=
| ChangeNone :
    s' = s ->
    (forall k, performs toUpperCase k op s = false) ->
    Change toUpperCase op s s'
| ChangeCreate r :
    waitRefs [op] = [] ->
    heap s !! nextRef s = None ->
    status r = Pending ->
    heap s' = <[nextRef s := r]> (heap s) ->
    pending s' = pending s -> timers s' = timers s ->
    resolveLog s' = resolveLog s ->
    (forall k, performs toUpperCase k op s = false) ->
    Change toUpperCase op s s'
| ChangeExpire l now r :
    op = OpWait l now ->
    heap s !! l = Some r ->
    heap s' = alter (withStatus Expired) l (heap s) ->
    pending s' = pending s -> timers s' = timers s ->
    resolveLog s' = resolveLog s ->
    Change toUpperCase op s s'
| ChangeRegister l now r d :
    op = OpWait l now ->
    heap s !! l = Some r ->
    heap s' = heap s ->
    pending s'
    = <[id r := {| request := l; resolve := nextPromise s;
                   timer := nextTimer s |}]> (pending s) ->
    timers s'
    = <[nextTimer s := {| task_request := l;
                          task_resolve := nextPromise s;
                          task_delay := d |}]> (timers s) ->
    resolveLog s' = resolveLog s ->
    Change toUpperCase op s s'
| ChangeRetire t task r st b f :
    waitRefs [op] = [] ->
    timers s !! t = Some task ->
    heap s !! task_request task = Some r ->
    st <> Pending ->
    (forall x, id (f x) = id x /\ status (f x) = st) ->
    heap s' = alter f (task_request task) (heap s) ->
    pending s' = delete (id r) (pending s) ->
    timers s' = delete t (timers s) ->
    resolveLog s' = (task_resolve task, b) :: resolveLog s ->
    (forall k, performs toUpperCase k op s = bool_decide (id r = k)) ->
    Change toUpperCase op s s'.

(** The verified transition of the entry [e] of [k], from [s] to [s']:
    the armed timer of the entry is cleared, the entry is removed, the
    request is marked verified with its resolution time, and the
    resolver of the waiter, not called before, is called once with
    true. *)
Definition verifiedTransition (s s' : State) (k : jsstring)
    (e : PendingEntry) (now' : Z) : Prop :=
  is_Some (timers s !! timer e) /\ timers s' !! timer e = None
  /\ pending s' !! k = None
  /\ statusOf s' (request e) = Some Verified
  /\ resolvedAtMs <$> heap s' !! request e = Some (Some now')
  /\ calls s (resolve e) = [] /\ calls s' (resolve e) = [true]
  /\ outcome s' (resolve e) = Some true.

(** *** Invariant of the manager, in every execution *)
Record Inv (s : State) : Prop := {
  inv_entry : forall k e, pending s !! k = Some e ->
    exists r d, heap s !! request e = Some r /\ id r = k
      /\ timers s !! timer e
         = Some {| task_request := request e; task_resolve := resolve e;
                   task_delay := d |};
  inv_timer : forall t task, timers s !! t = Some task ->
    (t < nextTimer s)%nat /\ (task_resolve task < nextPromise s)%nat
    /\ is_Some (heap s !! task_request task)
    /\ calls s (task_resolve task) = [];
  inv_resolver : forall t1 t2 task1 task2,
    timers s !! t1 = Some task1 -> timers s !! t2 = Some task2 ->
    task_resolve task1 = task_resolve task2 -> t1 = t2;
  inv_heap : forall l, is_Some (heap s !! l) -> (l < nextRef s)%nat;
  inv_log : forall c, c ∈ resolveLog s -> (c.1 < nextPromise s)%nat;
  inv_once : forall p, (length (calls s p) <= 1)%nat;
}.

End TwoFactor.

(* ===================================================================== *)
(** ** Concrete configurations and executions

    Used to run the embedding on explicit inputs. *)
(* ===================================================================== *)

Module Scenario.
Import TwoFactor.

(** Mock mode with the fixed code [" 123456 "] and a 300 s timeout. *)
Definition mockConfig : TwoFactorConfig := {|
  enabled := true;
  timeoutSeconds := Some 300;
  authBaseUrl := js "https://gateway.example";
  codeLength := None;
  mock := Some {| mock_enabled := Some true; mock_authUrl := None;
                  mock_code := Some (js " 123456 ") |};
|}.

Definition payload : TwoFactorRequestPayload := {|
  payload_command := js "rm -rf /tmp";
  payload_sessionKey := None; payload_agentId := None;
  payload_channelId := None; payload_userId := None;
|}.

Definition uuid : jsstring := js "req-1".

Definition runScenario (ops : list Op) : State :=
  run asciiToUpperCase mockConfig ops init.

(** A request created at time 1000 (deadline 301000). *)
Definition opsCreated : list Op := [OpCreate 1000 uuid [] payload].
Definition created : State := runScenario opsCreated.

Definition request0 : TwoFactorRequest := {|
  id := uuid;
  command := js "rm -rf /tmp";
  verificationCode := js "123456";
  createdAtMs := 1000;
  expiresAtMs := 301000;
  status := Pending;
  sessionKey := None; agentId := None; channelId := None; userId := None;
  resolvedAtMs := None;
|}.

(** ... and waited on from time 1000: entry, timer 0 and resolver 0. *)
Definition opsWaiting : list Op := opsCreated ++ [OpWait 0%nat 1000].
Definition waiting : State := runScenario opsWaiting.

Definition entry0 : PendingEntry :=
  {| request := 0%nat; resolve := 0%nat; timer := 0%nat |}.

(** The request is verified at time 2000, and waited on a second time
    after its deadline. *)
Definition opsVerified : list Op :=
  opsWaiting ++ [OpVerify uuid (js "123456") 2000 2001].
Definition opsWaitAgain : list Op := opsVerified ++ [OpWait 0%nat 400000].

(** The request is verified at time 2000 and waited on a second time
    at time 3000, before its deadline. *)
Definition opsRewaited : list Op := opsVerified ++ [OpWait 0%nat 3000].

(** From [waiting]: a wrong code, the right code, and then the expiry of
    the timer and a cancellation, which come too late. *)
Definition opsRace : list Op :=
  [OpVerify uuid (js "654321") 1500 1501;
   OpVerify uuid (js "123456") 2000 2001;
   OpTimeout 0%nat; OpCancel uuid].

(** The request is waited on twice before its deadline (timers 0 and 1,
    resolvers 0 and 1), verified, and then the first timer expires. *)
Definition opsTwoWaiters : list Op :=
  opsWaiting ++ [OpWait 0%nat 1500].
Definition opsTwoWaitersVerified : list Op :=
  opsTwoWaiters ++ [OpVerify uuid (js "123456") 2000 2001].
Definition opsTwoTransitions : list Op :=
  opsTwoWaitersVerified ++ [OpTimeout 0%nat].

End Scenario.

Module RiskScenario.
Import Regex HighRisk.

(** A custom pattern that reuses the id of a built-in one. *)
Definition launchNukes : HighRiskPattern := {|
  id := js "sudo";
  pattern := compile (cat [Bol; lit "launch-nukes"; Eol]);
  description := js "Custom launch command";
  severity := medium;
|}.

(** Detection enabled, the built-in [sudo] pattern disabled, one custom
    pattern. *)
Definition detectorConfig : HighRiskDetectorConfig := {|
  enabled := true;
  customPatterns := Some [launchNukes];
  disabledPatternIds := Some [js "sudo"];
|}.

Definition defaultsOnly : HighRiskDetectorConfig := {|
  enabled := true; customPatterns := None; disabledPatternIds := None;
|}.

(** The second built-in pattern. *)
Definition builtinSudo : HighRiskPattern := {|
  id := js "sudo";
  pattern := compile
    (cat [Bol; alts [lit "sudo"; lit "doas"]; plus Space]);
  description := js "Elevated privilege command";
  severity := high;
|}.

End RiskScenario.

(* ===================================================================== *)
(** ** String operations of the challenge URL

    [String.prototype.includes] and [String.prototype.replace] with a
    string pattern, the removal of one trailing slash, and
    [encodeURIComponent]. *)
(* ===================================================================== *)

Module StringOps.

(** [s.startsWith(needle)] *)
Fixpoint startsWith (needle s : jsstring) : bool :=
  match needle, s with
  | [], _ => true
  | c :: needle', d :: s' => (c =? d)%N && startsWith needle' s'
  | _ :: _, [] => false
  end.

(** The index of the first occurrence of [needle] in [s], counted from
    [pos] at the head of [s]. *)
Fixpoint indexOfFrom (needle s : jsstring) (pos : nat) : option nat :=
  if startsWith needle s then Some pos
  else match s with
       | _ :: s' => indexOfFrom needle s' (S pos)
       | [] => None
       end.

(** [s.indexOf(needle)], with [None] for [-1]. *)
Definition indexOf (needle s : jsstring) : option nat :=
  indexOfFrom needle s 0.

(** [s.includes(needle)] *)
Definition includes (needle s : jsstring) : bool :=
  bool_decide (is_Some (indexOf needle s)).

(** [GetSubstitution] for a string pattern (no capture groups): in the
    replacement text, [$$] stands for a dollar sign, [$&] for the matched
    text, [$`] for the text before the match and [$'] for the text after
    it; a dollar sign followed by anything else stands for itself. *)
Fixpoint getSubstitution (matched before after template : jsstring)
  : jsstring :=
  match template with
  | [] => []
  | c :: t =>
      if (c =? 36)%N then
        match t with
        | c2 :: t' =>
            if (c2 =? 36)%N then
              36%N :: getSubstitution matched before after t'
            else if (c2 =? 96)%N then
              before ++ getSubstitution matched before after t'
            else if (c2 =? 38)%N then
              matched ++ getSubstitution matched before after t'
            else if (c2 =? 39)%N then
              after ++ getSubstitution matched before after t'
            else c :: getSubstitution matched before after t
        | [] => [c]
        end
      else c :: getSubstitution matched before after t
  end.

(** [s.replace(pattern, replacement)] for a string [pattern]: the first
    occurrence only. *)
Definition replace (pattern replacement s : jsstring) : jsstring :=
  match indexOf pattern s with
  | Some pos =>
      let before := take pos s in
      let after := drop (pos + length pattern) s in
      before ++ getSubstitution pattern before after replacement ++ after
  | None => s
  end.

(** [s.replace(re, empty)] for the regular expression [re] that matches
    a slash at the end of the input: one trailing slash is removed. *)
Definition stripTrailingSlash (s : jsstring) : jsstring :=
  match rev s with
  | c :: r => if (c =? 47)%N then rev r else s
  | [] => s
  end.

(** The characters that [encodeURIComponent] leaves as they are:
    letters, digits and [-_.!~*'()]. *)
Definition isUnreserved (c : N) : bool :=
  ((65 <=? c) && (c <=? 90) || (97 <=? c) && (c <=? 122)
   || (48 <=? c) && (c <=? 57)
   || (c =? 45) || (c =? 95) || (c =? 46) || (c =? 33) || (c =? 126)
   || (c =? 42) || (c =? 39) || (c =? 40) || (c =? 41))%N.

Definition isLeadSurrogate (c : N) : bool := ((55296 <=? c) && (c <=? 56319))%N.
Definition isTrailSurrogate (c : N) : bool := ((56320 <=? c) && (c <=? 57343))%N.

(** The UTF-8 octets of a code point. *)
Definition utf8 (cp : N) : list N :=
  (if cp <? 128 then [cp]
   else if cp <? 2048 then [192 + cp / 64; 128 + cp mod 64]
   else if cp <? 65536 then
     [224 + cp / 4096; 128 + (cp / 64) mod 64; 128 + cp mod 64]
   else
     [240 + cp / 262144; 128 + (cp / 4096) mod 64;
      128 + (cp / 64) mod 64; 128 + cp mod 64])%N.

Definition hexDigit (n : N) : N := (if n <? 10 then 48 + n else 55 + n)%N.

(** [%XX], with upper-case hexadecimal digits. *)
Definition percent (octet : N) : jsstring :=
  [37%N; hexDigit (octet / 16); hexDigit (octet mod 16)].

Definition escape (cp : N) : jsstring := concat (map percent (utf8 cp)).

(** [encodeURIComponent(s)]; [None] stands for the [URIError] thrown on
    a surrogate that has no partner. *)
Fixpoint encodeURIComponent (s : jsstring) : option jsstring :=
  match s with
  | [] => Some []
  | c :: rest =>
      if isUnreserved c then cons c <$> encodeURIComponent rest
      else if isLeadSurrogate c then
        match rest with
        | c2 :: rest' =>
            if isTrailSurrogate c2 then
              app (escape ((c - 55296) * 1024 + (c2 - 56320) + 65536)%N)
                <$> encodeURIComponent rest'
            else None
        | [] => None
        end
      else if isTrailSurrogate c then None
      else app (escape c) <$> encodeURIComponent rest
  end.

(** Linear arithmetic with division and remainder by constants. *)
Ltac div_lia := zify; Z.to_euclidean_division_equations; lia.

(** Every code unit is white space. *)
Definition allWhiteSpace (s : jsstring) : Prop :=
  Forall (fun c => isWhiteSpace c = true) s.

End StringOps.

(* ===================================================================== *)
(** ** Challenge URL ([TwoFactorAuthManager.getAuthUrl]) *)
(* ===================================================================== *)

Module AuthUrl.
Import StringOps TwoFactor.

(** [this.config.mock?.enabled ? this.config.mock.authUrl?.trim()
      : undefined], when it is truthy. *)
Definition mockUrl (config : TwoFactorConfig) : option jsstring :=
  match mock config with
  | Some m =>
      match mock_enabled m with
      | Some true =>
          match trim <$> mock_authUrl m with
          | Some u => if truthy u then Some u else None
          | None => None
          end
      | _ => None
      end
  | None => None
  end.

(** [getAuthUrl(requestId)]; [None] when [encodeURIComponent] throws. *)
Definition getAuthUrl (config : TwoFactorConfig) (requestId : jsstring)
  : option jsstring :=
  match mockUrl config with
  | Some mockUrl =>
      if includes (js "{requestId}") mockUrl then
        Some (replace (js "{requestId}") requestId mockUrl)
      else
        let joiner := if includes (js "?") mockUrl then js "&" else js "?" in
        (fun encoded => mockUrl ++ joiner ++ js "requestId=" ++ encoded)
          <$> encodeURIComponent requestId
  | None =>
      let baseUrl := stripTrailingSlash (authBaseUrl config) in
      Some (baseUrl ++ js "/2fa/verify/" ++ requestId)
  end.

End AuthUrl.

(* ===================================================================== *)
(** ** Gateway handlers ([gateway/server-methods/two-factor-auth.ts])

    The three request handlers built by [createTwoFactorAuthHandlers].
    The error codes and [errorShape] come from the protocol module and
    are parameters. The global slot read by [getTwoFactorAuthManager]
    holds a manager or nothing. A handler returns the calls it made to
    [respond], in order, and the slot after the call. *)
(* ===================================================================== *)

Module Gateway.
Import TwoFactor.

(** A field of [params], as far as the handlers look at it: absent, a
    string, or a value of another type. *)
Inductive JsValue :=
| VUndefined
| VString (s : jsstring)
| VOther.

(** The value passes the test [!v || typeof v !== "string"] of the
    handlers: it is a string and it is not empty. *)
Definition nonEmptyString (v : JsValue) : option jsstring :=
  match v with
  | VString s => if truthy s then Some s else None
  | VUndefined | VOther => None
  end.

(** The second argument of a successful [respond]. *)
Inductive Payload :=
| VerifiedPayload (requestId : jsstring)      (* { verified: true, requestId } *)
| StatusPayload (requestId : jsstring) (status : TwoFactorRequestStatus)
                (command : jsstring) (expiresAtMs : Z)
| CancelledPayload (requestId : jsstring).    (* { cancelled: true, requestId } *)

Section Handlers.

Variable toUpperCase : jsstring -> jsstring.

(** [ErrorCodes.UNAVAILABLE], [ErrorCodes.INVALID_REQUEST] and
    [errorShape] of the protocol module. *)
Variables ErrorCode ErrorShape : Type.
Variables UNAVAILABLE INVALID_REQUEST : ErrorCode.
Variable errorShape : ErrorCode -> string -> ErrorShape.

(** The arguments of one call [respond(ok, payload, error)]. *)
Record Response := {
  ok : bool;
  payload : option Payload;
  error : option ErrorShape;
}.

Definition fail (code : ErrorCode) (message : string) : Response :=
  {| ok := false; payload := None; error := Some (errorShape code message) |}.

Definition succeed (p : Payload) : Response :=
  {| ok := true; payload := Some p; error := None |}.

(** The handler ["2fa.verify"]; [now] and [now'] are the values of
    [Date.now()] read by [manager.verify]. *)
Definition verifyHandler (requestId code : JsValue) (now now' : Z)
    (manager : option State) : list Response * option State :=
  match manager with
  | None => ([fail UNAVAILABLE "2FA not initialized"], manager)
  | Some s =>
      match nonEmptyString requestId with
      | None => ([fail INVALID_REQUEST "requestId is required"], manager)
      | Some requestId =>
          match nonEmptyString code with
          | None => ([fail INVALID_REQUEST "code is required"], manager)
          | Some code =>
              let result := verify toUpperCase requestId code now now' s in
              if negb (success result.1) then
                ([fail INVALID_REQUEST
                    (default "Verification failed"%string
                       (TwoFactor.error result.1))],
                 Some result.2)
              else
                ([succeed (VerifiedPayload requestId)], Some result.2)
          end
      end
  end.

(** The handler ["2fa.status"]. A reference always denotes an object:
    the branch without object is not taken in an execution. *)
Definition statusHandler (requestId : JsValue) (manager : option State)
  : list Response * option State :=
  match manager with
  | None => ([fail UNAVAILABLE "2FA not initialized"], manager)
  | Some s =>
      match nonEmptyString requestId with
      | None => ([fail INVALID_REQUEST "requestId is required"], manager)
      | Some requestId =>
          match getRequest requestId s ≫= fun l => heap s !! l with
          | None =>
              ([fail INVALID_REQUEST "Request not found or expired"], manager)
          | Some request =>
              ([succeed (StatusPayload (id request) (status request)
                           (command request) (expiresAtMs request))],
               manager)
          end
      end
  end.

(** The handler ["2fa.cancel"]. *)
Definition cancelHandler (requestId : JsValue) (manager : option State)
  : list Response * option State :=
  match manager with
  | None => ([fail UNAVAILABLE "2FA not initialized"], manager)
  | Some s =>
      match nonEmptyString requestId with
      | None => ([fail INVALID_REQUEST "requestId is required"], manager)
      | Some requestId =>
          let cancelled := cancel requestId s in
          if negb cancelled.1 then
            ([fail INVALID_REQUEST "Request not found or already resolved"],
             Some cancelled.2)
          else
            ([succeed (CancelledPayload requestId)], Some cancelled.2)
      end
  end.

(** A response is well formed: a failure has an error and no payload, a
    success a payload and no error. *)
Definition wellFormed (r : Response) : Prop :=
  if ok r then is_Some (payload r) /\ error r = None
  else payload r = None /\ is_Some (error r).

End Handlers.

Arguments ok {ErrorShape} r.
Arguments payload {ErrorShape} r.
Arguments error {ErrorShape} r.
Arguments fail {ErrorCode ErrorShape} errorShape code message.
Arguments succeed {ErrorShape} p.
Arguments verifyHandler toUpperCase {ErrorCode ErrorShape}
  UNAVAILABLE INVALID_REQUEST errorShape requestId code now now' manager.
Arguments statusHandler {ErrorCode ErrorShape}
  UNAVAILABLE INVALID_REQUEST errorShape requestId manager.
Arguments cancelHandler {ErrorCode ErrorShape}
  UNAVAILABLE INVALID_REQUEST errorShape requestId manager.
Arguments wellFormed {ErrorShape} r.

End Gateway.

(* ===================================================================== *)
(** ** Configurations of the challenge URL *)
(* ===================================================================== *)

Module UrlScenario.
Import TwoFactor.

(** No mock mode; the base URL ends in a slash. *)
Definition plainConfig : TwoFactorConfig := {|
  enabled := true;
  timeoutSeconds := Some 300;
  authBaseUrl := js "https://gateway.example/";
  codeLength := None;
  mock := None;
|}.

(** Mock mode with a URL that holds the placeholder. *)
Definition templateConfig : TwoFactorConfig := {|
  enabled := true;
  timeoutSeconds := Some 300;
  authBaseUrl := js "https://gateway.example";
  codeLength := None;
  mock := Some {| mock_enabled := Some true;
                  mock_authUrl :=
                    Some (js " https://mock-2fa.test/verify/{requestId}?x=1 ");
                  mock_code := None |};
|}.

(** Mock mode with a URL without placeholder that has a query part. *)
Definition queryConfig : TwoFactorConfig := {|
  enabled := true;
  timeoutSeconds := Some 300;
  authBaseUrl := js "https://gateway.example";
  codeLength := None;
  mock := Some {| mock_enabled := Some true;
                  mock_authUrl := Some (js "https://mock-2fa.test/verify?lang=en");
                  mock_code := None |};
|}.

End UrlScenario.

(* ===================================================================== *)
(** ** An instance of the protocol parameters of the handlers *)
(* ===================================================================== *)

Module GatewayScenario.

Inductive ErrorCode := UNAVAILABLE | INVALID_REQUEST.

(** An error shape that records the code and the message. *)
Definition errorShape (code : ErrorCode) (message : string)
  : ErrorCode * string := (code, message).

End GatewayScenario.

(* ===================================================================== *)
(** ** Predicates of the further properties *)
(* ===================================================================== *)

Module Further.
Import Regex TwoFactor.

(** Every waiter that has not been answered still has an armed timer
    that will answer it. *)
Definition waitersHaveTimers (s : State) : Prop :=
  forall p, (p < nextPromise s)%nat -> calls s p = [] ->
    exists t task, timers s !! t = Some task /\ task_resolve task = p.

(** Every call of [waitForVerification] in the execution is on a request
    whose deadline has passed or whose id has no table entry. *)
Fixpoint waitsFresh (toUpperCase : jsstring -> jsstring)
    (config : TwoFactorConfig) (ops : list Op) (s : State) : Prop :=
  match ops with
  | op :: ops' =>
      match op with
      | OpWait l now =>
          forall r, heap s !! l = Some r ->
            expiresAtMs r <= now \/ pending s !! id r = None
      | _ => True
      end
      /\ waitsFresh toUpperCase config ops' (step toUpperCase config op s)
  | [] => True
  end.

(** The 256 byte values. *)
Definition allBytes : list byte :=
  omap Byte.of_N (map N.of_nat (seq 0 256)).

(** The character of the alphabet that the generator writes for a
    random byte. *)
Definition charFor (b : byte) : N :=
  default 0%N (CodeGen.chars !! (N.to_nat (Byte.to_N b) mod 32)%nat).

(** The lower-case ASCII letters. *)
Definition lowerCaseLetters : list N := map N.of_nat (seq 97 26).

(** The character classes of the expression contain a lower-case ASCII
    letter exactly when they contain the upper-case one. *)
Fixpoint caseClosed (r : regex) : bool :=
  match r with
  | Char ranges =>
      forallb (fun c => Bool.eqb (inRanges c ranges) (inRanges (c - 32) ranges))
        lowerCaseLetters
  | Seq r1 r2 | Alt r1 r2 => caseClosed r1 && caseClosed r2
  | Star r1 => caseClosed r1
  | Empty | Space | Bol | Eol | WordBoundary => true
  end.

(** The expression has no assertion ([^], [$], [\b]). *)
Fixpoint unanchored (r : regex) : bool :=
  match r with
  | Empty | Char _ | Space => true
  | Seq r1 r2 | Alt r1 r2 => unanchored r1 && unanchored r2
  | Star r1 => unanchored r1
  | Bol | Eol | WordBoundary => false
  end.

(** The iteration of a star, by name: [matches (Star r1) prev s k] is
    [iterate r1 k (length s) prev s]. *)
Definition iterate (r1 : regex) (k : option N -> jsstring -> bool)
  : nat -> option N -> jsstring -> bool :=
  fix iterate (fuel : nat) (prev : option N) (s : jsstring) : bool :=
    k prev s
    || match fuel with
       | O => false
       | S fuel' =>
           matches r1 prev s
             (fun prev' s' =>
                (length s' <? length s)%nat && iterate fuel' prev' s')
       end.

(** The largest delay for which [setTimeout] of Node.js arms the timer
    as asked (2^31 - 1 ms); for a larger one it arms 1 ms. *)
Definition TIMEOUT_MAX : Z := 2147483647.

(** [Number.MAX_SAFE_INTEGER]: up to it, in absolute value, integers
    and their sums and differences are exact JavaScript numbers. *)
Definition MAX_SAFE_INTEGER : Z := 9007199254740991.


(** The built-in patterns that are not anchored at the start of the
    command or that are anchored at its end. *)
Definition notPrefixPatterns : list jsstring :=
  [js "drop-database"; js "truncate-table"; js "2fa-test"].

End Further.

(* ===================================================================== *)
(** * Properties of the code generator *)
(* ===================================================================== *)

Module CodeGenFacts.
Import CodeGen TwoFactor.

Lemma chars_length : length chars = 32%nat.
Proof. reflexivity. Qed.

Lemma charAt_index randomBytes i :
  (i < length randomBytes)%nat ->
  exists c, charAt (index randomBytes i) = [c] /\ c ∈ chars.
Proof.
  intros Hi. unfold index.
  destruct (lookup_lt_is_Some_2 randomBytes i Hi) as [b ->].
  set (j := (N.to_nat (Byte.to_N b) mod length chars)%nat).
  assert (Hj : (j < length chars)%nat)
    by (apply Nat.mod_upper_bound; rewrite chars_length; lia).
  destruct (lookup_lt_is_Some_2 chars j Hj) as [c Hc].
  exists c. unfold charAt. rewrite Hc. split; [done|].
  by eapply list_elem_of_lookup_2.
Qed.

Lemma loop_spec randomBytes n : forall i code,
  (i + n <= length randomBytes)%nat ->
  Forall (fun c => c ∈ chars) code ->
  length (loop randomBytes i n code) = (length code + n)%nat
  /\ Forall (fun c => c ∈ chars) (loop randomBytes i n code).
Proof.
  induction n as [|n IH]; intros i code Hlen Hcode; simpl.
  - split; [lia | done].
  - destruct (charAt_index randomBytes i) as (c & -> & Hc); [lia|].
    destruct (IH (S i) (code ++ [c])) as [IH1 IH2].
    + lia.
    + apply Forall_app. split; [done|]. by apply Forall_singleton.
    + split; [|done]. rewrite IH1, length_app. simpl. lia.
Qed.

(** C9. A code produced by the generator from the [length] bytes of
    [crypto.randomBytes(length)] has [length] characters, all of them
    in the 32-character alphabet, which contains none of [0], [O], [1]
    and [I]. With the mock override enabled, [create] stores the
    configured code trimmed, or [123456] when the configured code is
    absent or trims to the empty string; without it, [create] stores
    the generated code of the configured length (6 by default). *)
Theorem generated_code_shape_and_mock_override
    (config : TwoFactorConfig) (length : nat) (randomBytes : list byte)
    (now : Z) (uuid : jsstring) (payload : TwoFactorRequestPayload)
    (s : State) :
  List.length randomBytes = length ->
  let code := generateVerificationCode length randomBytes in
  let created := create config now uuid randomBytes payload s in
  (List.length code = length
   /\ Forall (fun c => c ∈ chars) code
   /\ List.length chars = 32%nat
   /\ Forall (fun c => c ∉ chars) (js "0O1I"))
  /\ (forall m, mock config = Some m -> mock_enabled m = Some true ->
       verificationCode <$> heap created.2 !! created.1
       = Some (match mock_code m with
               | Some c => if truthy (trim c) then trim c else js "123456"
               | None => js "123456"
               end))
  /\ (mockCode config = None ->
       length = default DEFAULT_CODE_LENGTH (codeLength config) ->
       verificationCode <$> heap created.2 !! created.1 = Some code).
Proof.
  intros Hlen code created. split_and!.
  - destruct (loop_spec randomBytes length 0 []) as [H _]; [lia|done|].
    exact H.
  - destruct (loop_spec randomBytes length 0 []) as [_ H]; [lia|done|].
    exact H.
  - reflexivity.
  - apply (bool_decide_unpack _). vm_compute. exact I.
  - intros m Hm Hen. subst created. simpl.
    rewrite lookup_insert_eq. simpl. unfold mockCode. rewrite Hm, Hen.
    destruct (mock_code m) as [c|]; simpl; [|done].
    by destruct (truthy (trim c)).
  - intros Hmock ->. subst created code. simpl.
    rewrite lookup_insert_eq. simpl. by rewrite Hmock.
Qed.

Lemma generated_code_shape_and_mock_override_witness :
  List.length [x00; xff; x21; x40; x7f; x1f]%byte = 6%nat
  /\ generateVerificationCode 6 [x00; xff; x21; x40; x7f; x1f]%byte
     = js "A9BA99"
  /\ List.length
       (generateVerificationCode 6 [x00; xff; x21; x40; x7f; x1f]%byte)
     = 6%nat
  /\ verificationCode
       <$> heap (create Scenario.mockConfig 1000 Scenario.uuid
                   [x00; xff; x21; x40; x7f; x1f]%byte Scenario.payload
                   init).2
           !! (create Scenario.mockConfig 1000 Scenario.uuid
                 [x00; xff; x21; x40; x7f; x1f]%byte Scenario.payload init).1
     = Some (js "123456").
Proof.
  destruct (generated_code_shape_and_mock_override Scenario.mockConfig 6
              [x00; xff; x21; x40; x7f; x1f]%byte
              1000 Scenario.uuid Scenario.payload init eq_refl)
    as ((Hlen & _) & Hmock & _).
  split; [reflexivity|]. split; [vm_compute; reflexivity|].
  split; [exact Hlen|]. exact (Hmock _ eq_refl eq_refl).
Defined.

End CodeGenFacts.

(* ===================================================================== *)
(** * Properties of the risk classifier *)
(* ===================================================================== *)

Module HighRiskFacts.
Import HighRisk.

Lemma scan_first_match before p after cmd :
  Forall (rejects cmd) before ->
  test (pattern p) cmd = true ->
  scan (before ++ p :: after) cmd
  = {| isHighRisk := true; matchedPattern := Some p; command := cmd |}.
Proof.
  induction 1 as [|q before Hq _ IH]; intros Hp; simpl.
  - by rewrite Hp.
  - unfold rejects in Hq. rewrite Hq. by apply IH.
Qed.

Lemma scan_no_match patterns cmd :
  Forall (rejects cmd) patterns ->
  scan patterns cmd
  = {| isHighRisk := false; matchedPattern := None; command := cmd |}.
Proof.
  induction 1 as [|q patterns Hq _ IH]; simpl; [done|].
  unfold rejects in Hq. by rewrite Hq.
Qed.

(** C8. Without a configuration, or with a disabled one, the result is
    not-high-risk with the trimmed command. With an enabled one, the
    patterns are tried in the order: built-in defaults whose id is not
    disabled, then all the custom patterns, whatever their ids; the
    result is the first pattern of that list that accepts the trimmed
    command, whatever follows it in the list, and not-high-risk when no
    pattern accepts. *)
Theorem classifier_first_match_wins
    (command : jsstring) (config : option HighRiskDetectorConfig) :
  let trimmed := trim command in
  let notHighRisk :=
    {| isHighRisk := false; matchedPattern := None; command := trimmed |} in
  (config = None -> detectHighRiskCommand command config = notHighRisk)
  /\ (forall cfg, config = Some cfg -> enabled cfg = false ->
       detectHighRiskCommand command config = notHighRisk)
  /\ (forall cfg, config = Some cfg -> enabled cfg = true ->
       let disabled := default [] (disabledPatternIds cfg) in
       let customs := default [] (customPatterns cfg) in
       let patterns :=
         filter (fun p => id p ∉ disabled) DEFAULT_HIGH_RISK_PATTERNS
         ++ customs in
       getHighRiskPatterns config = patterns
       /\ (forall p, p ∈ customs -> p ∈ patterns)
       /\ (forall before p after,
            patterns = before ++ p :: after ->
            Forall (rejects trimmed) before ->
            test (pattern p) trimmed = true ->
            detectHighRiskCommand command config
            = {| isHighRisk := true; matchedPattern := Some p;
                 command := trimmed |})
       /\ (Forall (rejects trimmed) patterns ->
            detectHighRiskCommand command config = notHighRisk)).
Proof.
  intros trimmed notHighRisk. split_and!.
  - by intros ->.
  - intros cfg -> Hen. unfold detectHighRiskCommand. by rewrite Hen.
  - intros cfg -> Hen disabled customs patterns.
    assert (Heff : effectivePatterns (disabledSet (disabledPatternIds cfg))
                     (customPatterns cfg) = patterns).
    { unfold effectivePatterns, patterns. f_equal.
      apply list_filter_iff. intros p. unfold disabledSet.
      by rewrite elem_of_list_to_set. }
    unfold detectHighRiskCommand, getHighRiskPatterns. rewrite Hen. simpl.
    rewrite Heff. split_and!.
    + done.
    + intros p Hp. apply elem_of_app. by right.
    + intros before p after -> Hbefore Hp. by apply scan_first_match.
    + apply scan_no_match.
Qed.

Lemma classifier_first_match_wins_witness :
  enabled RiskScenario.detectorConfig = true
  /\ isHighRisk (detectHighRiskCommand (js "  launch-nukes ")
                   (Some RiskScenario.detectorConfig)) = true
  /\ (id <$> matchedPattern
               (detectHighRiskCommand (js "  launch-nukes ")
                  (Some RiskScenario.detectorConfig))) = Some (js "sudo")
  /\ isHighRisk (detectHighRiskCommand (js "sudo apt update")
                   (Some RiskScenario.detectorConfig)) = false.
Proof.
  destruct (classifier_first_match_wins (js "  launch-nukes ")
              (Some RiskScenario.detectorConfig)) as (_ & _ & H).
  destruct (H RiskScenario.detectorConfig eq_refl eq_refl) as (_ & _ & H1 & _).
  pose proof (H1 (filter (fun p => id p ∉ [js "sudo"])
                    DEFAULT_HIGH_RISK_PATTERNS)
                RiskScenario.launchNukes [] ) as H2.
  rewrite H2.
  - split_and!; vm_compute; reflexivity.
  - reflexivity.
  - unfold rejects. apply (bool_decide_unpack _). vm_compute. exact I.
  - vm_compute. reflexivity.
Defined.

(** First match, not highest severity: [sudo] (high) comes before
    [drop-database] (critical) among the defaults, and hides it. *)
Example earlier_pattern_hides_more_severe_one :
  let res := detectHighRiskCommand (js "sudo psql -c 'DROP TABLE users'")
               (Some RiskScenario.defaultsOnly) in
  (id <$> matchedPattern res) = Some (js "sudo")
  /\ (severity <$> matchedPattern res) = Some high
  /\ exists p, p ∈ DEFAULT_HIGH_RISK_PATTERNS /\ id p = js "drop-database"
       /\ severity p = critical
       /\ test (pattern p) (js "sudo psql -c 'DROP TABLE users'") = true.
Proof.
  intros res. split; [vm_compute; reflexivity|].
  split; [vm_compute; reflexivity|].
  eexists. split_and!.
  - do 2 apply list_elem_of_further. apply list_elem_of_here.
  - reflexivity.
  - reflexivity.
  - vm_compute. reflexivity.
Qed.

(** The examples of the specification. *)
Example classifier_examples :
  (id <$> matchedPattern (detectHighRiskCommand (js "rm -rf /tmp")
                            (Some RiskScenario.defaultsOnly)))
    = Some (js "rm-recursive")
  /\ isHighRisk (detectHighRiskCommand (js "ls -la")
                   (Some RiskScenario.defaultsOnly)) = false
  /\ isHighRisk (detectHighRiskCommand (js "sudo apt update")
                   (Some RiskScenario.defaultsOnly)) = true
  /\ isHighRisk (detectHighRiskCommand (js "sudo apt update")
                   (Some RiskScenario.detectorConfig)) = false
  /\ isHighRisk (detectHighRiskCommand (js "rm -rf /tmp") None) = false.
Proof. split_and!; vm_compute; reflexivity. Qed.

End HighRiskFacts.

(* ===================================================================== *)
(** * Properties of the lifecycle manager *)
(* ===================================================================== *)

Module TwoFactorFacts.
Import TwoFactor.

(** ** Calls of resolvers *)

Lemma calls_callResolve_same s p b :
  calls (callResolve p b s) p = calls s p ++ [b].
Proof.
  unfold calls; simpl. rewrite filter_cons_True by done. reflexivity.
Qed.

Lemma calls_callResolve_other s p q b :
  q <> p -> calls (callResolve p b s) q = calls s q.
Proof.
  intros Hne. unfold calls; simpl.
  rewrite filter_cons_False; [reflexivity | simpl; congruence].
Qed.

Lemma calls_log s s' p :
  resolveLog s = resolveLog s' -> calls s p = calls s' p.
Proof. unfold calls. by intros ->. Qed.

Lemma calls_fresh s p :
  (forall c, c ∈ resolveLog s -> (c.1 < p)%nat) -> calls s p = [].
Proof.
  unfold calls. induction (resolveLog s) as [|c log IH]; intros Hlog.
  - reflexivity.
  - rewrite filter_cons_False.
    + apply IH. intros c' Hc'. apply Hlog. by right.
    + specialize (Hlog c (list_elem_of_here _ _)). lia.
Qed.

(** ** The invariant holds in every execution *)

Lemma Inv_init : Inv init.
Proof.
  split; simpl.
  - intros k e H. by rewrite lookup_empty in H.
  - intros t task H. by rewrite lookup_empty in H.
  - intros t1 t2 task1 task2 H. by rewrite lookup_empty in H.
  - intros l [r H]. by rewrite lookup_empty in H.
  - intros c H. by apply not_elem_of_nil in H.
  - intros p. unfold calls; simpl. lia.
Qed.

Lemma Inv_setHeap s h :
  (forall l, is_Some (h !! l) <-> is_Some (heap s !! l)) ->
  (forall l r, heap s !! l = Some r ->
     exists r', h !! l = Some r' /\ id r' = id r) ->
  Inv s -> Inv (setHeap h s).
Proof.
  intros Hdom Hid [He Ht Hr Hh Hl Ho]. split; simpl.
  - intros k e Hk. destruct (He k e Hk) as (r & d & Hr1 & Hr2 & Hr3).
    destruct (Hid _ _ Hr1) as (r' & Hr' & Hid').
    exists r', d. split_and!; [done | congruence | done].
  - intros t task Hk. destruct (Ht t task Hk) as (? & ? & ? & ?).
    split_and!; try done. by apply Hdom.
  - exact Hr.
  - intros l Hl'. apply Hh. by apply Hdom.
  - exact Hl.
  - exact Ho.
Qed.

Lemma Inv_setStatus s l st : Inv s -> Inv (setStatus l st s).
Proof.
  apply Inv_setHeap.
  - intros l'. rewrite lookup_alter. case_decide; subst; [|done].
    by rewrite fmap_is_Some.
  - intros l' r Hr. rewrite lookup_alter. case_decide; subst.
    + rewrite Hr. by eexists.
    + by eexists.
Qed.

Lemma Inv_setResolvedAtMs s l t : Inv s -> Inv (setResolvedAtMs l t s).
Proof.
  apply Inv_setHeap.
  - intros l'. rewrite lookup_alter. case_decide; subst; [|done].
    by rewrite fmap_is_Some.
  - intros l' r Hr. rewrite lookup_alter. case_decide; subst.
    + rewrite Hr. by eexists.
    + by eexists.
Qed.

(** Disarming a timer, deleting the table entry of its request and
    calling its resolver, which is what every resolution path does. *)
Lemma Inv_retire s t task r b :
  Inv s ->
  timers s !! t = Some task ->
  heap s !! task_request task = Some r ->
  Inv (callResolve (task_resolve task) b
         (pendingDelete (id r) (clearTimeout t s))).
Proof.
  intros [He Ht Hr Hh Hl Ho] Htask Hreq. split; simpl.
  - intros k e Hk. apply lookup_delete_Some in Hk as [Hne Hk].
    destruct (He k e Hk) as (r' & d & Hr1 & Hr2 & Hr3).
    exists r', d. split_and!; try done.
    rewrite lookup_delete_ne; [done|].
    intros Heq. rewrite <- Heq, Htask in Hr3. injection Hr3 as ->.
    simpl in *. congruence.
  - intros t' task' Hk. apply lookup_delete_Some in Hk as [Hne Hk].
    destruct (Ht t' task' Hk) as (? & ? & ? & Hc). split_and!; try done.
    rewrite calls_callResolve_other; [done|].
    intros Heq. apply Hne. symmetry. by eapply Hr.
  - intros t1 t2 task1 task2 H1 H2.
    apply lookup_delete_Some in H1 as [_ H1].
    apply lookup_delete_Some in H2 as [_ H2]. by eapply Hr.
  - exact Hh.
  - intros c Hc. apply elem_of_cons in Hc as [->|Hc]; [|by apply Hl].
    simpl. by destruct (Ht t task Htask) as (? & ? & ? & ?).
  - intros p. destruct (decide (p = task_resolve task)) as [->|Hne].
    + rewrite calls_callResolve_same, (calls_log _ s) by reflexivity.
      destruct (Ht t task Htask) as (? & ? & ? & ->). simpl. lia.
    + rewrite calls_callResolve_other by done. apply Ho.
Qed.

Section Executions.

Variable toUpperCase : jsstring -> jsstring.
Variable config : TwoFactorConfig.

Lemma Inv_create now uuid randomBytes payload s :
  Inv s -> Inv (create config now uuid randomBytes payload s).2.
Proof.
  intros [He Ht Hr Hh Hl Ho]. split; simpl.
  - intros k e Hk. destruct (He k e Hk) as (r & d & Hr1 & Hr2 & Hr3).
    exists r, d. split_and!; try done.
    rewrite lookup_insert_ne; [done|].
    assert (request e < nextRef s)%nat by (apply Hh; eauto). lia.
  - intros t task Hk. destruct (Ht t task Hk) as (? & ? & Hin & ?).
    split_and!; try done.
    rewrite lookup_insert_ne; [done|]. apply Hh in Hin. lia.
  - exact Hr.
  - intros l Hsome. destruct (decide (nextRef s = l)) as [<-|Hne]; [lia|].
    rewrite lookup_insert_ne in Hsome by done. apply Hh in Hsome. lia.
  - exact Hl.
  - exact Ho.
Qed.

Lemma Inv_waitForVerification l now s :
  Inv s -> Inv (waitForVerification l now s).2.
Proof.
  intros HI. unfold waitForVerification.
  destruct (heap s !! l) as [r|] eqn:Hl; [|done].
  destruct (expiresAtMs r - now <=? 0); simpl; [by apply Inv_setStatus|].
  destruct HI as [He Ht Hr Hh Hlog Ho]. split; simpl.
  - intros k e Hk. apply lookup_insert_Some in Hk as [[<- <-]|[Hne Hk]].
    + exists r, (expiresAtMs r - now). simpl.
      by rewrite lookup_insert_eq.
    + destruct (He k e Hk) as (r' & d & Hr1 & Hr2 & Hr3).
      exists r', d. split_and!; try done.
      rewrite lookup_insert_ne; [done|].
      apply Ht in Hr3. lia.
  - intros t task Hk. apply lookup_insert_Some in Hk as [[<- <-]|[Hne Hk]].
    + simpl. split_and!; [lia | lia | by eexists |].
      apply calls_fresh. exact Hlog.
    + destruct (Ht t task Hk) as (? & ? & ? & ?). split_and!; try done; lia.
  - intros t1 t2 task1 task2 H1 H2 Heq.
    apply lookup_insert_Some in H1 as [[<- <-]|[Hne1 H1]];
      apply lookup_insert_Some in H2 as [[<- <-]|[Hne2 H2]]; simpl in *.
    + done.
    + apply Ht in H2. lia.
    + apply Ht in H1. lia.
    + by eapply Hr.
  - exact Hh.
  - intros c Hc. apply Hlog in Hc. lia.
  - exact Ho.
Qed.

Lemma Inv_onTimeout t s : Inv s -> Inv (onTimeout t s).
Proof.
  intros HI. unfold onTimeout.
  destruct (timers s !! t) as [task|] eqn:Ht; [|done].
  simpl.
  destruct (heap s !! task_request task) as [r|] eqn:Hr.
  - change (Inv (setStatus (task_request task) Expired
              (callResolve (task_resolve task) false
                 (pendingDelete (id r) (clearTimeout t s))))).
    apply Inv_setStatus. by eapply Inv_retire.
  - destruct (inv_timer _ HI t task Ht) as (_ & _ & [? ?] & _).
    congruence.
Qed.

(** What [verify] and [cancel] know of the entry they find. *)
Lemma entry_task s k e :
  Inv s -> pending s !! k = Some e ->
  exists r d,
    heap s !! request e = Some r /\ id r = k
    /\ timers s !! timer e
       = Some {| task_request := request e; task_resolve := resolve e;
                 task_delay := d |}.
Proof. intros HI. apply (inv_entry _ HI). Qed.

Lemma Inv_cancel k s : Inv s -> Inv (cancel k s).2.
Proof.
  intros HI. unfold cancel.
  destruct (pending s !! k) as [e|] eqn:Hk; [|done].
  destruct (entry_task _ _ _ HI Hk) as (r & d & Hr & Hid & Ht).
  simpl.
  change (Inv (setStatus (request e) Cancelled
            (callResolve (resolve e) false
               (pendingDelete k (clearTimeout (timer e) s))))).
  apply Inv_setStatus. rewrite <- Hid.
  by apply (Inv_retire s (timer e) _ r false HI Ht).
Qed.

Lemma Inv_verify k code now now' s :
  Inv s -> Inv (verify toUpperCase k code now now' s).2.
Proof.
  intros HI. unfold verify.
  destruct (pending s !! k) as [e|] eqn:Hk; [|done].
  destruct (entry_task _ _ _ HI Hk) as (r & d & Hr & Hid & Ht).
  rewrite Hr. destruct (now >? expiresAtMs r); simpl.
  - change (Inv (setStatus (request e) Expired
              (callResolve (resolve e) false
                 (pendingDelete k (clearTimeout (timer e) s))))).
    apply Inv_setStatus. rewrite <- Hid.
    by apply (Inv_retire s (timer e) _ r false HI Ht).
  - case_bool_decide; simpl; [done|].
    change (Inv (setResolvedAtMs (request e) now'
              (setStatus (request e) Verified
                 (callResolve (resolve e) true
                    (pendingDelete k (clearTimeout (timer e) s)))))).
    apply Inv_setResolvedAtMs, Inv_setStatus. rewrite <- Hid.
    by apply (Inv_retire s (timer e) _ r true HI Ht).
Qed.

Lemma Inv_step op s : Inv s -> Inv (step toUpperCase config op s).
Proof.
  intros HI. destruct op; simpl.
  - by apply Inv_create.
  - by apply Inv_waitForVerification.
  - by apply Inv_verify.
  - by apply Inv_cancel.
  - by apply Inv_onTimeout.
Qed.

Lemma Inv_run ops s : Inv s -> Inv (run toUpperCase config ops s).
Proof.
  revert s. induction ops as [|op ops IH]; intros s HI; [done|].
  simpl. apply IH. by apply Inv_step.
Qed.

Lemma reachable_Inv s : reachable toUpperCase config s -> Inv s.
Proof. induction 1; auto using Inv_init, Inv_step. Qed.

Lemma reachable_run ops s :
  reachable toUpperCase config s ->
  reachable toUpperCase config (run toUpperCase config ops s).
Proof.
  revert s. induction ops as [|op ops IH]; intros s Hs; [done|].
  simpl. apply IH. by constructor.
Qed.

(** ** The effect of one operation *)

Lemma step_Change op s :
  Inv s -> Change toUpperCase op s (step toUpperCase config op s).
Proof.
  intros HI. destruct op as [now uuid rb payload|l now|k code now now'|k|t].
  - (* create *)
    eapply ChangeCreate; simpl; try done; [|reflexivity].
    destruct (heap s !! nextRef s) eqn:Hl; [|done].
    assert (nextRef s < nextRef s)%nat by (apply (inv_heap _ HI); eauto).
    lia.
  - (* waitForVerification *)
    simpl. unfold waitForVerification.
    destruct (heap s !! l) as [r|] eqn:Hl; [|by apply ChangeNone].
    destruct (expiresAtMs r - now <=? 0).
    + by eapply ChangeExpire.
    + by eapply ChangeRegister.
  - (* verify *)
    simpl. unfold verify.
    destruct (pending s !! k) as [e|] eqn:Hk.
    2:{ apply ChangeNone; [done|]. intros k'. simpl. unfold verify.
        rewrite Hk. simpl. by rewrite andb_false_r. }
    destruct (entry_task _ _ _ HI Hk) as (r & d & Hr & Hid & Ht).
    rewrite Hr. destruct (now >? expiresAtMs r) eqn:Hgt.
    + eapply (ChangeRetire _ _ _ _ (timer e) _ r Expired false
                (withStatus Expired)); simpl; try done.
      * by rewrite Hid.
      * intros k'. unfold verify. rewrite Hk, Hr, Hgt. simpl.
        rewrite andb_true_r. subst k.
        apply bool_decide_ext. done.
    + case_bool_decide as Hcode.
      * apply ChangeNone; [done|]. intros k'. simpl. unfold verify.
        rewrite Hk, Hr, Hgt, (bool_decide_eq_true_2 _ Hcode). simpl.
        by rewrite andb_false_r.
      * eapply (ChangeRetire _ _ _ _ (timer e) _ r Verified true
                  (withResolvedAtMs now' ∘ withStatus Verified));
          simpl; try done.
        -- by rewrite alter_alter_eq.
        -- by rewrite Hid.
        -- intros k'. unfold verify.
           assert (Hd : bool_decide
                          (toUpperCase (trim code)
                           <> toUpperCase (trim (verificationCode r)))
                        = false)
             by (apply bool_decide_eq_false_2; intros Hne; by apply Hne).
           rewrite Hk, Hr, Hgt, Hd. simpl.
           rewrite andb_true_r. subst k. by apply bool_decide_ext.
  - (* cancel *)
    simpl. unfold cancel.
    destruct (pending s !! k) as [e|] eqn:Hk.
    2:{ apply ChangeNone; [done|]. intros k'. simpl. unfold cancel.
        rewrite Hk. simpl. by rewrite andb_false_r. }
    destruct (entry_task _ _ _ HI Hk) as (r & d & Hr & Hid & Ht).
    eapply (ChangeRetire _ _ _ _ (timer e) _ r Cancelled false
              (withStatus Cancelled)); simpl; try done.
    + by rewrite Hid.
    + intros k'. unfold cancel. rewrite Hk. simpl.
      rewrite andb_true_r. subst k. by apply bool_decide_ext.
  - (* timer callback *)
    simpl. unfold onTimeout.
    destruct (timers s !! t) as [task|] eqn:Ht.
    2:{ apply ChangeNone; [done|]. intros k'. simpl. by rewrite Ht. }
    destruct (inv_timer _ HI _ _ Ht) as (_ & _ & [r Hr] & _).
    simpl. rewrite Hr.
    eapply (ChangeRetire _ _ _ _ t task r Expired false
              (withStatus Expired)); simpl; try done.
    intros k'. by rewrite Ht, Hr.
Qed.

(** ** Status writes when each request is waited on once *)

Lemma statusOf_alter_ne s s' f l l' :
  heap s' = alter f l (heap s) -> l' <> l ->
  statusOf s' l' = statusOf s l'.
Proof.
  intros Hh Hne. unfold statusOf. by rewrite Hh, lookup_alter_ne.
Qed.

Lemma statusOf_insert_ne s s' r l l' :
  heap s' = <[l := r]> (heap s) -> l' <> l ->
  statusOf s' l' = statusOf s l'.
Proof.
  intros Hh Hne. unfold statusOf. by rewrite Hh, lookup_insert_ne.
Qed.

Lemma statusOf_heap s s' l :
  heap s' = heap s -> statusOf s' l = statusOf s l.
Proof. intros Hh. unfold statusOf. by rewrite Hh. Qed.

Lemma statusOf_Some s l r :
  heap s !! l = Some r -> statusOf s l = Some (status r).
Proof. intros Hl. unfold statusOf. by rewrite Hl. Qed.

Lemma statusOf_None s l : statusOf s l = None -> heap s !! l = None.
Proof. unfold statusOf. by destruct (heap s !! l). Qed.

Lemma WaitedOnce_mono W W' s :
  W ⊆ W' -> WaitedOnce W s -> WaitedOnce W' s.
Proof.
  intros Hsub [H1 H2 H3]. split.
  - intros t task Ht. destruct (H1 t task Ht). split; [|done].
    by apply Hsub.
  - exact H2.
  - intros l Hl. apply H3. intros Hin. by apply Hl, Hsub.
Qed.

Lemma WaitedOnce_init : WaitedOnce [] init.
Proof.
  split; simpl.
  - intros t task H. by rewrite lookup_empty in H.
  - intros t1 t2 task1 task2 H. by rewrite lookup_empty in H.
  - intros l _. left. unfold statusOf. simpl. by rewrite lookup_empty.
Qed.

Lemma once_step W op s s' :
  Inv s -> WaitedOnce W s ->
  (forall l now, op = OpWait l now -> l ∉ W) ->
  Change toUpperCase op s s' ->
  WaitedOnce (waitRefs [op] ++ W) s'
  /\ (forall l st, statusOf s l = Some st -> st <> Pending ->
       statusOf s' l = Some st)
  /\ (forall l st, statusOf s l = None -> statusOf s' l = Some st ->
       st = Pending).
Proof.
  intros HI HW Hop
    [-> _
    |r Hrefs Hfresh Hst Hheap Hpend Htim Hlog _
    |l now r -> Hl Hheap Hpend Htim Hlog
    |l now r d -> Hl Hheap Hpend Htim Hlog
    |t task r st b f Hrefs Ht Hr Hst Hf Hheap Hpend Htim Hlog _].
  - (* nothing changes *)
    split_and!.
    + eapply WaitedOnce_mono; [|done]. intros x Hx. apply elem_of_app. by right.
    + done.
    + congruence.
  - (* a new request object *)
    rewrite Hrefs. simpl. destruct HW as [H1 H2 H3]. split_and!.
    + split.
      * intros t task Ht. rewrite Htim in Ht.
        destruct (H1 t task Ht) as [Hin Hp]. split; [done|].
        rewrite (statusOf_insert_ne _ _ _ _ _ Hheap); [done..|].
        intros Heq. rewrite Heq in Hp.
        unfold statusOf in Hp. by rewrite Hfresh in Hp.
      * rewrite Htim. exact H2.
      * intros l Hl. destruct (decide (l = nextRef s)) as [->|Hne].
        -- right. unfold statusOf. by rewrite Hheap, lookup_insert_eq, <- Hst.
        -- rewrite (statusOf_insert_ne _ _ _ _ _ Hheap) by done.
           by apply H3.
    + intros l st' Hl Hne.
      rewrite (statusOf_insert_ne _ _ _ _ _ Hheap); [done..|].
      intros ->. unfold statusOf in Hl. by rewrite Hfresh in Hl.
    + intros l st' Hl Hl'. destruct (decide (l = nextRef s)) as [->|Hne].
      * unfold statusOf in Hl'. rewrite Hheap, lookup_insert_eq in Hl'.
        simpl in Hl'. congruence.
      * rewrite (statusOf_insert_ne _ _ _ _ _ Hheap) in Hl' by done.
        congruence.
  - (* the deadline has passed when the wait starts *)
    specialize (Hop l now eq_refl). destruct HW as [H1 H2 H3].
    assert (Hpl : statusOf s l = Some Pending).
    { destruct (H3 l Hop) as [Hn|Hp]; [|done].
      apply statusOf_None in Hn. congruence. }
    simpl. split_and!.
    + split.
      * intros t task Ht. rewrite Htim in Ht.
        destruct (H1 t task Ht) as [Hin Hp]. split; [by apply list_elem_of_further|].
        rewrite (statusOf_alter_ne _ _ _ _ _ Hheap); [done..|].
        intros Heq. by rewrite Heq in Hin.
      * rewrite Htim. exact H2.
      * intros l' Hl'. apply not_elem_of_cons in Hl' as [Hne Hl'].
        rewrite (statusOf_alter_ne _ _ _ _ _ Hheap) by done. by apply H3.
    + intros l' st' Hl' Hne. destruct (decide (l' = l)) as [->|Hne'].
      * congruence.
      * by rewrite (statusOf_alter_ne _ _ _ _ _ Hheap).
    + intros l' st' Hl' Hl''. destruct (decide (l' = l)) as [->|Hne'].
      * congruence.
      * rewrite (statusOf_alter_ne _ _ _ _ _ Hheap) in Hl'' by done. congruence.
  - (* a registration *)
    specialize (Hop l now eq_refl). destruct HW as [H1 H2 H3].
    assert (Hpl : statusOf s l = Some Pending).
    { destruct (H3 l Hop) as [Hn|Hp]; [|done].
      apply statusOf_None in Hn. congruence. }
    simpl. split_and!.
    + split.
      * intros t task Ht. rewrite Htim in Ht.
        rewrite (statusOf_heap _ _ _ Hheap).
        apply lookup_insert_Some in Ht as [[<- <-]|[Hne Ht]]; simpl.
        -- split; [by apply list_elem_of_here|done].
        -- destruct (H1 t task Ht). split; [by apply list_elem_of_further|done].
      * intros t1 t2 task1 task2 Ht1 Ht2 Heq.
        rewrite Htim in Ht1, Ht2.
        apply lookup_insert_Some in Ht1 as [[<- <-]|[Hne1 Ht1]];
          apply lookup_insert_Some in Ht2 as [[<- <-]|[Hne2 Ht2]];
          simpl in *.
        -- done.
        -- destruct (H1 _ _ Ht2) as [Hin _]. by rewrite <- Heq in Hin.
        -- destruct (H1 _ _ Ht1) as [Hin _]. by rewrite Heq in Hin.
        -- by eapply H2.
      * intros l' Hl'. apply not_elem_of_cons in Hl' as [Hne Hl'].
        rewrite (statusOf_heap _ _ _ Hheap). by apply H3.
    + intros l' st' Hl' Hne. by rewrite (statusOf_heap _ _ _ Hheap).
    + intros l' st' Hl' Hl''. rewrite (statusOf_heap _ _ _ Hheap) in Hl''.
      congruence.
  - (* a terminal transition *)
    rewrite Hrefs. simpl. destruct HW as [H1 H2 H3].
    destruct (H1 t task Ht) as [Hin Hp]. split_and!.
    + split.
      * intros t' task' Ht'. rewrite Htim in Ht'.
        apply lookup_delete_Some in Ht' as [Hne Ht'].
        destruct (H1 t' task' Ht') as [Hin' Hp']. split; [done|].
        rewrite (statusOf_alter_ne _ _ _ _ _ Hheap); [done..|].
        intros Heq. apply Hne. symmetry. by eapply H2.
      * intros t1 t2 task1 task2 Ht1 Ht2. rewrite Htim in Ht1, Ht2.
        apply lookup_delete_Some in Ht1 as [_ Ht1].
        apply lookup_delete_Some in Ht2 as [_ Ht2]. by eapply H2.
      * intros l Hl.
        rewrite (statusOf_alter_ne _ _ _ _ _ Hheap); [by apply H3|].
        intros ->. done.
    + intros l st' Hl Hne.
      destruct (decide (l = task_request task)) as [->|Hne'].
      * congruence.
      * by rewrite (statusOf_alter_ne _ _ _ _ _ Hheap).
    + intros l st' Hl Hl'.
      destruct (decide (l = task_request task)) as [->|Hne'].
      * congruence.
      * rewrite (statusOf_alter_ne _ _ _ _ _ Hheap) in Hl'
          by done.
        congruence.
Qed.

Lemma waitRefs_cons op ops :
  waitRefs (op :: ops) = waitRefs [op] ++ waitRefs ops.
Proof. by destruct op. Qed.

Lemma waitRefs_app ops1 ops2 :
  waitRefs (ops1 ++ ops2) = waitRefs ops1 ++ waitRefs ops2.
Proof. apply omap_app. Qed.

Lemma waitRefs_OpWait l now : waitRefs [OpWait l now] = [l].
Proof. reflexivity. Qed.

Lemma run_app ops1 ops2 s :
  run toUpperCase config (ops1 ++ ops2) s
  = run toUpperCase config ops2 (run toUpperCase config ops1 s).
Proof. apply foldl_app. Qed.

Lemma once_run ops : forall s W,
  Inv s -> WaitedOnce W s ->
  NoDup (waitRefs ops) ->
  (forall l, l ∈ waitRefs ops -> l ∉ W) ->
  (exists W',
      WaitedOnce W' (run toUpperCase config ops s)
      /\ forall l, l ∈ W' <-> l ∈ waitRefs ops \/ l ∈ W)
  /\ forall l st, statusOf s l = Some st -> st <> Pending ->
       statusOf (run toUpperCase config ops s) l = Some st.
Proof.
  induction ops as [|op ops IH]; intros s W HI HW Hnd Hdisj.
  - split; [|done]. exists W. split; [done|]. intros l. split.
    + by right.
    + intros [H|H]; [by apply not_elem_of_nil in H | done].
  - rewrite waitRefs_cons in Hnd, Hdisj.
    apply NoDup_app in Hnd as (Hnd1 & Hnd12 & Hnd2).
    destruct (once_step W op s (step toUpperCase config op s) HI HW)
      as (HW' & Hstable & _).
    { intros l now ->. apply Hdisj, elem_of_app. left.
      rewrite waitRefs_OpWait. apply list_elem_of_here. }
    { by apply step_Change. }
    destruct (IH (step toUpperCase config op s) (waitRefs [op] ++ W))
      as ((W' & HW'' & HW'mem) & Hstable').
    { by apply Inv_step. }
    { done. }
    { done. }
    { intros l Hl Hin. apply elem_of_app in Hin as [Hin|Hin].
      - by apply (Hnd12 l).
      - apply (Hdisj l); [|done]. apply elem_of_app. by right. }
    split.
    + exists W'. split; [done|]. intros l. rewrite HW'mem.
      rewrite (waitRefs_cons op ops), !elem_of_app. clear. tauto.
    + intros l st Hl Hne. simpl. apply Hstable'; [|done].
      by apply Hstable.
Qed.

(** C2, as amended. In an execution of a new manager in which
    [waitForVerification] is called at most once on each request: a
    request object starts with the status pending, and a status that
    has become verified, expired or cancelled is never changed by a
    later operation; the status is thus written once at most. *)
Theorem status_written_once_when_waited_once ops :
  NoDup (waitRefs ops) ->
  startsPending toUpperCase config ops
  /\ statusImmutable toUpperCase config ops.
Proof.
  intros Hnd. split.
  - intros ops1 op ops2 l st -> Hnone Hsome.
    rewrite waitRefs_app, waitRefs_cons in Hnd.
    apply NoDup_app in Hnd as (Hnd1 & Hnd12 & Hnd2).
    apply NoDup_app in Hnd2 as (Hnd2 & Hnd23 & _).
    destruct (once_run ops1 init [] Inv_init WaitedOnce_init Hnd1)
      as ((W & HW & HWmem) & _).
    { intros l' _. apply not_elem_of_nil. }
    rewrite run_app in Hsome. simpl in Hsome.
    destruct (once_step W op (run toUpperCase config ops1 init)
                (step toUpperCase config op
                   (run toUpperCase config ops1 init)))
      as (_ & _ & Hstart); try done.
    + by apply Inv_run, Inv_init.
    + intros l' now -> Hin. apply HWmem in Hin as [Hin|Hin].
      * apply (Hnd12 l' Hin), elem_of_app. left.
        rewrite waitRefs_OpWait. apply list_elem_of_here.
      * by apply not_elem_of_nil in Hin.
    + apply step_Change. by apply Inv_run, Inv_init.
    + by eapply Hstart.
  - intros ops1 ops2 l st -> Hst Hne.
    rewrite waitRefs_app in Hnd.
    apply NoDup_app in Hnd as (Hnd1 & Hnd12 & Hnd2).
    destruct (once_run ops1 init [] Inv_init WaitedOnce_init Hnd1)
      as ((W & HW & HWmem) & _).
    { intros l' _. apply not_elem_of_nil. }
    rewrite run_app.
    destruct (once_run ops2 (run toUpperCase config ops1 init) W)
      as (_ & Hstable); try done.
    + by apply Inv_run, Inv_init.
    + intros l' Hin2 Hin. apply HWmem in Hin as [Hin|Hin].
      * by apply (Hnd12 l').
      * by apply not_elem_of_nil in Hin.
    + by apply Hstable.
Qed.

(** ** Registrations: table entries and armed timers of an id *)

Lemma timerFor_step k op s s' t :
  Inv s -> Change toUpperCase op s s' ->
  waitsOn k op s = false ->
  timerFor s' k t -> timerFor s k t /\ is_Some (timers s' !! t).
Proof.
  intros HI Hch Hw (task & r' & Ht & Hr' & Hid).
  split; [|by eexists].
  destruct Hch
    as [-> _
       |r Hrefs Hfresh Hst Hheap Hpend Htim Hlog _
       |l now r -> Hl Hheap Hpend Htim Hlog
       |l now r d -> Hl Hheap Hpend Htim Hlog
       |t0 task0 r0 st b f Hrefs Ht0 Hr0 Hst Hf Hheap Hpend Htim Hlog _].
  - by exists task, r'.
  - rewrite Htim in Ht. rewrite Hheap in Hr'.
    exists task, r'. split_and!; try done.
    rewrite lookup_insert_ne in Hr'; [done|].
    intros Heq. destruct (inv_timer _ HI _ _ Ht) as (_ & _ & [x Hx] & _).
    rewrite <- Heq in Hx. congruence.
  - rewrite Htim in Ht. rewrite Hheap, lookup_alter in Hr'.
    case_decide as Hd.
    + rewrite Hd in Hr'.
      destruct (heap s !! task_request task) as [x|] eqn:Hx; [|done].
      injection Hr' as <-. by exists task, x.
    + by exists task, r'.
  - rewrite Htim in Ht. rewrite Hheap in Hr'.
    apply lookup_insert_Some in Ht as [[_ <-]|[_ Ht]]; simpl in *.
    + rewrite Hl in *. injection Hr' as <-.
      by apply bool_decide_eq_false in Hw.
    + by exists task, r'.
  - rewrite Htim in Ht. apply lookup_delete_Some in Ht as [_ Ht].
    rewrite Hheap, lookup_alter in Hr'. case_decide as Hd.
    + rewrite Hd in Hr'.
      destruct (heap s !! task_request task) as [x|] eqn:Hx; [|done].
      injection Hr' as <-. exists task, x. split_and!; try done.
      rewrite <- Hid. symmetry. apply Hf.
    + by exists task, r'.
Qed.

Lemma pending_step k op s s' :
  Change toUpperCase op s s' ->
  waitsOn k op s = false -> performs toUpperCase k op s = false ->
  pending s' !! k = pending s !! k.
Proof.
  intros Hch Hw Hp.
  destruct Hch
    as [-> _
       |r Hrefs Hfresh Hst Hheap Hpend Htim Hlog _
       |l now r -> Hl Hheap Hpend Htim Hlog
       |l now r d -> Hl Hheap Hpend Htim Hlog
       |t0 task0 r0 st b f Hrefs Ht0 Hr0 Hst Hf Hheap Hpend Htim Hlog
          Hperf].
  - done.
  - by rewrite Hpend.
  - by rewrite Hpend.
  - rewrite Hpend. simpl in Hw. rewrite Hl in Hw.
    apply bool_decide_eq_false in Hw. by rewrite lookup_insert_ne.
  - rewrite Hpend. rewrite Hperf in Hp.
    apply bool_decide_eq_false in Hp. by rewrite lookup_delete_ne.
Qed.

Lemma quiet_step k op s s' :
  Inv s -> quiet s k -> waitsOn k op s = false ->
  Change toUpperCase op s s' ->
  performs toUpperCase k op s = false /\ quiet s' k.
Proof.
  intros HI [Hq1 Hq2] Hw Hch.
  assert (Hp : performs toUpperCase k op s = false).
  { destruct Hch
      as [_ Hperf
         |r _ _ _ _ _ _ _ Hperf
         |l now r -> _ _ _ _ _
         |l now r d -> _ _ _ _ _
         |t0 task0 r0 st b f _ Ht0 Hr0 _ _ _ _ _ _ Hperf];
      [done | done | done | done |].
    rewrite Hperf. apply bool_decide_eq_false. intros Hid.
    apply (Hq2 t0). by exists task0, r0. }
  split; [done|]. split.
  - by rewrite (pending_step k op s s').
  - intros t Ht. apply (Hq2 t). by eapply timerFor_step.
Qed.

Lemma quiet_soleWaiter s k : quiet s k -> soleWaiter s k.
Proof. intros [_ Hq] t Ht. by destruct (Hq t). Qed.

Lemma soleWaiter_step k op s s' :
  Inv s -> soleWaiter s k -> waitsOn k op s = false ->
  Change toUpperCase op s s' ->
  performs toUpperCase k op s = false ->
  soleWaiter s' k.
Proof.
  intros HI Hsole Hw Hch Hp t Ht.
  destruct (timerFor_step k op s s' t HI Hch Hw Ht) as [Ht' _].
  destruct (Hsole t Ht') as (e & He & Hte).
  exists e. by rewrite (pending_step k op s s').
Qed.

(** The terminal transition of the sole registration of [k]. *)
Lemma soleWaiter_performs k op s s' :
  Inv s -> soleWaiter s k ->
  Change toUpperCase op s s' ->
  performs toUpperCase k op s = true ->
  exists e b,
    pending s !! k = Some e /\ is_Some (timers s !! timer e)
    /\ calls s (resolve e) = []
    /\ pending s' !! k = None /\ timers s' !! timer e = None
    /\ calls s' (resolve e) = [b]
    /\ quiet s' k.
Proof.
  intros HI Hsole Hch Hp.
  destruct Hch
    as [-> Hperf
       |r Hrefs Hfresh Hst Hheap Hpend Htim Hlog Hperf
       |l now r -> Hl Hheap Hpend Htim Hlog
       |l now r d -> Hl Hheap Hpend Htim Hlog
       |t0 task0 r0 st b f Hrefs Ht0 Hr0 Hst Hf Hheap Hpend Htim Hlog
          Hperf];
    try (by rewrite Hperf in Hp); try done.
  rewrite Hperf in Hp. apply bool_decide_eq_true in Hp.
  destruct (Hsole t0) as (e & He & Hte); [by exists task0, r0|].
  destruct (entry_task _ _ _ HI He) as (r & d & Hr & Hid & Ht).
  rewrite Hte, Ht0 in Ht. injection Ht as ->. simpl in *.
  destruct (inv_timer _ HI _ _ Ht0) as (_ & _ & _ & Hc). simpl in Hc.
  exists e, b. split_and!; try done.
  - rewrite Hte. by eexists.
  - rewrite Hpend, Hp. apply lookup_delete_eq.
  - rewrite Htim, Hte. apply lookup_delete_eq.
  - unfold calls in *. rewrite Hlog. rewrite filter_cons_True by done.
    simpl. by rewrite Hc.
  - split.
    + rewrite Hpend, Hp. apply lookup_delete_eq.
    + intros t (task & r' & Ht & Hr' & Hid').
      rewrite Htim in Ht. apply lookup_delete_Some in Ht as [Hne Ht].
      apply Hne. symmetry.
      destruct (Hsole t) as (e' & He' & Hte'); [|congruence].
      rewrite Hheap, lookup_alter in Hr'. case_decide as Hd.
      * rewrite Hd in Hr'.
        destruct (heap s !! task_request task) as [x|] eqn:Hx; [|done].
        injection Hr' as <-. exists task, x. split_and!; try done.
        rewrite <- Hid'. symmetry. apply Hf.
      * by exists task, r'.
Qed.

Lemma calls_step op s s' p b :
  Inv s -> Inv s' -> Change toUpperCase op s s' ->
  calls s p = [b] -> calls s' p = [b].
Proof.
  intros HI HI' Hch Hc.
  assert (Hext : exists extra, calls s' p = calls s p ++ extra).
  { destruct Hch
      as [-> _
         |r Hrefs Hfresh Hst Hheap Hpend Htim Hlog _
         |l now r -> Hl Hheap Hpend Htim Hlog
         |l now r d -> Hl Hheap Hpend Htim Hlog
         |t0 task0 r0 st b0 f Hrefs Ht0 Hr0 Hst Hf Hheap Hpend Htim Hlog _];
      try (exists []; rewrite app_nil_r; by apply calls_log).
    unfold calls. rewrite Hlog.
    destruct (decide (task_resolve task0 = p)) as [Heq|Hne].
    - rewrite filter_cons_True by done. simpl. by eexists.
    - rewrite filter_cons_False by done. exists [].
      by rewrite app_nil_r. }
  destruct Hext as [extra Hext].
  pose proof (inv_once _ HI' p) as Hlen.
  rewrite Hext, Hc in Hlen. rewrite Hext, Hc.
  destruct extra; [done|]. simpl in Hlen. lia.
Qed.

Lemma noWaitOn_app k ops1 : forall ops2 s,
  noWaitOn toUpperCase config k (ops1 ++ ops2) s ->
  noWaitOn toUpperCase config k ops1 s
  /\ noWaitOn toUpperCase config k ops2 (run toUpperCase config ops1 s).
Proof.
  induction ops1 as [|op ops1 IH]; intros ops2 s; simpl; [done|].
  intros [Hw Hrest]. destruct (IH _ _ Hrest). done.
Qed.

(** Once nothing is registered for [k], nothing happens to [k] until
    a wait registers it again. *)
Lemma quiet_run k ops : forall s,
  Inv s -> quiet s k -> noWaitOn toUpperCase config k ops s ->
  transitions toUpperCase config k ops s = 0%nat
  /\ quiet (run toUpperCase config ops s) k.
Proof.
  induction ops as [|op ops IH]; intros s HI Hq; simpl; [done|].
  intros [Hw Hrest].
  destruct (quiet_step k op s (step toUpperCase config op s) HI Hq Hw)
    as [Hp Hq']; [by apply step_Change|].
  rewrite Hp. simpl. apply IH; [by apply Inv_step|done..].
Qed.

Lemma calls_run p b ops : forall s,
  Inv s -> calls s p = [b] ->
  calls (run toUpperCase config ops s) p = [b].
Proof.
  induction ops as [|op ops IH]; intros s HI Hc; simpl; [done|].
  apply IH; [by apply Inv_step|].
  eapply calls_step; [exact HI|by apply Inv_step|by apply step_Change|done].
Qed.

Lemma soleWaiter_run k ops : forall s,
  Inv s -> soleWaiter s k -> noWaitOn toUpperCase config k ops s ->
  (transitions toUpperCase config k ops s <= 1)%nat
  /\ soleWaiter (run toUpperCase config ops s) k.
Proof.
  induction ops as [|op ops IH]; intros s HI Hsole; simpl.
  { intros _. split; [lia|done]. }
  intros [Hw Hrest].
  pose proof (step_Change op s HI) as Hch.
  pose proof (Inv_step op s HI) as HI'.
  destruct (performs toUpperCase k op s) eqn:Hp.
  - destruct (soleWaiter_performs k op s _ HI Hsole Hch Hp)
      as (e & b & _ & _ & _ & _ & _ & _ & Hq).
    destruct (quiet_run k ops _ HI' Hq Hrest) as [-> Hq'].
    split; [lia|]. by apply quiet_soleWaiter.
  - apply IH; [done| |done].
    exact (soleWaiter_step k op s _ HI Hsole Hw Hch Hp).
Qed.

(** C1, as amended. Take a state of an execution in which one waiter
    at most is registered for the id [k], and let the execution go on
    without a new call of [waitForVerification] on [k]. Then at most
    one operation (a successful or deadline-discovering [verify], a
    [cancel], or the expiry of a timer) performs a terminal
    transition for [k]. The operation that does removes the table
    entry, disarms its timer and calls the resolver of the waiter,
    never called before; afterwards every [verify] on [k] fails with
    [Request not found or expired], every [cancel] on [k] returns
    false, both without effect, no armed timer concerns [k], and the
    resolver is not called again. *)
Theorem sole_waiter_resolved_once s k ops :
  reachable toUpperCase config s ->
  soleWaiter s k ->
  noWaitOn toUpperCase config k ops s ->
  (transitions toUpperCase config k ops s <= 1)%nat
  /\ forall ops1 op ops2,
       ops = ops1 ++ op :: ops2 ->
       let s1 := run toUpperCase config ops1 s in
       let s2 := step toUpperCase config op s1 in
       performs toUpperCase k op s1 = true ->
       exists e b,
         pending s1 !! k = Some e /\ is_Some (timers s1 !! timer e)
         /\ calls s1 (resolve e) = []
         /\ pending s2 !! k = None /\ timers s2 !! timer e = None
         /\ calls s2 (resolve e) = [b]
         /\ forall ops3 ops4,
              ops2 = ops3 ++ ops4 ->
              let s3 := run toUpperCase config ops3 s2 in
              (forall code n n',
                  verify toUpperCase k code n n' s3
                  = ({| success := false;
                        error := Some "Request not found or expired"%string
                     |}, s3))
              /\ cancel k s3 = (false, s3)
              /\ (forall t, ~ timerFor s3 k t)
              /\ calls s3 (resolve e) = [b].
Proof.
  intros Hs Hsole Hno. apply reachable_Inv in Hs as HI.
  split; [by apply soleWaiter_run|].
  intros ops1 op ops2 -> s1 s2 Hp.
  apply noWaitOn_app in Hno as [Hno1 [Hw Hno2]].
  assert (HI1 : Inv s1) by by apply Inv_run.
  assert (HI2 : Inv s2) by by apply Inv_step.
  destruct (soleWaiter_run k ops1 s HI Hsole Hno1) as [_ Hsole1].
  destruct (soleWaiter_performs k op s1 s2 HI1 Hsole1
              (step_Change op s1 HI1) Hp)
    as (e & b & He & Ht & Hc & He' & Ht' & Hc' & Hq).
  exists e, b. split_and!; try done.
  intros ops3 ops4 -> s3.
  apply noWaitOn_app in Hno2 as [Hno3 _].
  destruct (quiet_run k ops3 s2 HI2 Hq Hno3) as [_ [Hq1 Hq2]].
  subst s3. split_and!.
  - intros code n n'. unfold verify. by rewrite Hq1.
  - unfold cancel. by rewrite Hq1.
  - exact Hq2.
  - by apply calls_run.
Qed.

(** ** A request that has been created and not yet waited on *)

Lemma unregistered_step l op s s' :
  Inv s -> unregistered s l -> l ∉ waitRefs [op] ->
  Change toUpperCase op s s' -> unregistered s' l.
Proof.
  intros HI [Hst Hun] Hl Hch.
  destruct Hch
    as [-> _
       |r Hrefs Hfresh _ Hheap Hpend Htim Hlog _
       |l' now r -> Hl' Hheap Hpend Htim Hlog
       |l' now r d -> Hl' Hheap Hpend Htim Hlog
       |t0 task0 r0 st b f Hrefs Ht0 Hr0 _ Hf Hheap Hpend Htim Hlog _].
  - done.
  - split.
    + rewrite (statusOf_insert_ne _ _ _ _ _ Hheap); [done|].
      intros ->. unfold statusOf in Hst. by rewrite Hfresh in Hst.
    + by rewrite Htim.
  - rewrite waitRefs_OpWait in Hl. apply not_elem_of_cons in Hl as [Hl _].
    split.
    + by rewrite (statusOf_alter_ne _ _ _ _ _ Hheap).
    + by rewrite Htim.
  - rewrite waitRefs_OpWait in Hl. apply not_elem_of_cons in Hl as [Hl _].
    split.
    + by rewrite (statusOf_heap _ _ _ Hheap).
    + intros t task Ht. rewrite Htim in Ht.
      apply lookup_insert_Some in Ht as [[_ <-]|[_ Ht]]; simpl.
      * congruence.
      * by eapply Hun.
  - split.
    + rewrite (statusOf_alter_ne _ _ _ _ _ Hheap); [done|].
      intros Heq. by apply (Hun t0 task0).
    + intros t task Ht. rewrite Htim in Ht.
      apply lookup_delete_Some in Ht as [_ Ht]. by eapply Hun.
Qed.

Lemma unregistered_run l ops : forall s,
  Inv s -> unregistered s l -> l ∉ waitRefs ops ->
  unregistered (run toUpperCase config ops s) l.
Proof.
  induction ops as [|op ops IH]; intros s HI Hun Hl; simpl; [done|].
  rewrite waitRefs_cons in Hl. apply not_elem_of_app in Hl as [Hl1 Hl2].
  apply IH; [by apply Inv_step| |done].
  eapply unregistered_step; [done..|]. by apply step_Change.
Qed.

(** C3, as amended. [create] returns a pending request and registers
    nothing: the table and the timers are as before, so that
    [getRequest] on the id of the new request reports not found
    (when the id is not the one of a registered request). As long as
    [waitForVerification] is not called on it, the request stays
    pending, no armed timer refers to it and no table entry holds it:
    [getRequest] never returns it. *)
Theorem create_registers_nothing s now uuid randomBytes payload ops :
  reachable toUpperCase config s ->
  let l := (create config now uuid randomBytes payload s).1 in
  let s1 := (create config now uuid randomBytes payload s).2 in
  let s2 := run toUpperCase config ops s1 in
  l ∉ waitRefs ops ->
  (id <$> heap s1 !! l = Some uuid /\ statusOf s1 l = Some Pending)
  /\ (pending s1 = pending s /\ timers s1 = timers s)
  /\ (pending s !! uuid = None -> getRequest uuid s1 = None)
  /\ statusOf s2 l = Some Pending
  /\ (forall t task, timers s2 !! t = Some task -> task_request task <> l)
  /\ (forall k, getRequest k s2 <> Some l).
Proof.
  intros Hs l s1 s2 Hl. apply reachable_Inv in Hs as HI.
  assert (HI1 : Inv s1) by by apply Inv_create.
  assert (Hun1 : unregistered s1 l).
  { split.
    - unfold statusOf. subst s1 l. simpl. by rewrite lookup_insert_eq.
    - intros t task Ht Heq. subst s1 l. simpl in *.
      destruct (inv_timer _ HI _ _ Ht) as (_ & _ & Hin & _).
      apply (inv_heap _ HI) in Hin. lia. }
  destruct (unregistered_run l ops s1 HI1 Hun1 Hl) as [Hst2 Hun2].
  split_and!; try done.
  - subst s1 l. simpl. by rewrite lookup_insert_eq.
  - by destruct Hun1.
  - intros Hk. unfold getRequest. subst s1. simpl. by rewrite Hk.
  - intros k Hget. unfold getRequest in Hget.
    destruct (pending s2 !! k) as [e|] eqn:He; [|done].
    injection Hget as Hreq.
    destruct (entry_task _ _ _ (Inv_run ops s1 HI1) He)
      as (r & d & _ & _ & Ht).
    by apply (Hun2 _ _ Ht).
Qed.

(** ** The three outcomes of [verify] on a table entry *)

Lemma verify_match s k e r code now now' :
  Inv s -> pending s !! k = Some e -> heap s !! request e = Some r ->
  now <= expiresAtMs r ->
  toUpperCase (trim code) = toUpperCase (trim (verificationCode r)) ->
  (verify toUpperCase k code now now' s).1
    = {| success := true; error := None |}
  /\ verifiedTransition s (verify toUpperCase k code now now' s).2
       k e now'.
Proof.
  intros HI Hk Hr Hnow Hcode.
  destruct (entry_task _ _ _ HI Hk) as (r0 & d & Hr0 & Hid & Ht).
  destruct (inv_timer _ HI _ _ Ht) as (_ & _ & _ & Hc). simpl in Hc.
  unfold verify. rewrite Hk, Hr.
  destruct (now >? expiresAtMs r) eqn:Hgt; [lia|].
  rewrite bool_decide_eq_false_2 by (intros Hne; by apply Hne).
  simpl. split; [done|].
  assert (Hcalls : calls
            (callResolve (resolve e) true
               (setResolvedAtMs (request e) now'
                  (setStatus (request e) Verified
                     (pendingDelete k (clearTimeout (timer e) s)))))
            (resolve e) = [true]).
  { rewrite calls_callResolve_same, (calls_log _ s), Hc by reflexivity.
    reflexivity. }
  unfold verifiedTransition. split_and!; try done.
  - by apply lookup_delete_eq.
  - by apply lookup_delete_eq.
  - unfold statusOf; simpl.
    rewrite !lookup_alter, !decide_True by done. by rewrite Hr.
  - simpl. rewrite !lookup_alter, !decide_True by done. by rewrite Hr.
  - unfold outcome. by rewrite Hcalls.
Qed.

(** C6. A submission that finds a table entry whose deadline has
    passed performs the expire transition itself, whatever the code:
    it fails with the error [Request expired], disarms the timer,
    removes the entry, marks the request expired and calls the
    resolver of the waiter, not called before, once with false. The
    resulting state is the one the timer callback would produce. *)
Theorem verify_past_deadline_expires s k e r code now now' :
  reachable toUpperCase config s ->
  pending s !! k = Some e -> heap s !! request e = Some r ->
  expiresAtMs r < now ->
  let res := verify toUpperCase k code now now' s in
  res.1 = {| success := false; error := Some "Request expired"%string |}
  /\ is_Some (timers s !! timer e) /\ timers res.2 !! timer e = None
  /\ pending res.2 !! k = None
  /\ statusOf res.2 (request e) = Some Expired
  /\ calls s (resolve e) = [] /\ calls res.2 (resolve e) = [false]
  /\ outcome res.2 (resolve e) = Some false
  /\ res.2 = onTimeout (timer e) s.
Proof.
  intros Hs Hk Hr Hnow. apply reachable_Inv in Hs as HI.
  destruct (entry_task _ _ _ HI Hk) as (r0 & d & Hr0 & Hid & Ht).
  destruct (inv_timer _ HI _ _ Ht) as (_ & _ & _ & Hc). simpl in Hc.
  assert (r0 = r) as -> by congruence.
  unfold verify. rewrite Hk, Hr.
  destruct (now >? expiresAtMs r) eqn:Hgt; [|lia]. simpl.
  assert (Hcalls : calls
            (callResolve (resolve e) false
               (setStatus (request e) Expired
                  (pendingDelete k (clearTimeout (timer e) s))))
            (resolve e) = [false]).
  { rewrite calls_callResolve_same, (calls_log _ s), Hc by reflexivity.
    reflexivity. }
  split_and!; try done.
  - by apply lookup_delete_eq.
  - by apply lookup_delete_eq.
  - unfold statusOf; simpl. rewrite lookup_alter, decide_True by done.
    by rewrite Hr.
  - unfold outcome. by rewrite Hcalls.
  - unfold onTimeout. rewrite Ht. simpl. rewrite Hr, Hid. reflexivity.
Qed.

(** C5. On a table entry whose deadline has not passed, a code that
    differs from the stored one after trimming and upper-casing is
    refused with the error [Invalid verification code] and the state
    is left as it was: same entry, same armed timer, same request
    fields. A later submission of a matching code, still not after
    the deadline, succeeds and performs the verified transition. *)
Theorem wrong_code_keeps_request_pending s k e r code now now' :
  reachable toUpperCase config s ->
  pending s !! k = Some e -> heap s !! request e = Some r ->
  now <= expiresAtMs r ->
  toUpperCase (trim code) <> toUpperCase (trim (verificationCode r)) ->
  let s1 := (verify toUpperCase k code now now' s).2 in
  (verify toUpperCase k code now now' s).1
    = {| success := false;
         error := Some "Invalid verification code"%string |}
  /\ s1 = s
  /\ pending s1 !! k = Some e /\ heap s1 !! request e = Some r
  /\ is_Some (timers s1 !! timer e)
  /\ forall code2 now2 now2',
       now2 <= expiresAtMs r ->
       toUpperCase (trim code2) = toUpperCase (trim (verificationCode r)) ->
       (verify toUpperCase k code2 now2 now2' s1).1
         = {| success := true; error := None |}
       /\ verifiedTransition s1
            (verify toUpperCase k code2 now2 now2' s1).2 k e now2'.
Proof.
  intros Hs Hk Hr Hnow Hcode. apply reachable_Inv in Hs as HI.
  destruct (entry_task _ _ _ HI Hk) as (r0 & d & Hr0 & Hid & Ht).
  assert (Hv : verify toUpperCase k code now now' s
               = ({| success := false;
                     error := Some "Invalid verification code"%string |},
                  s)).
  { unfold verify. rewrite Hk, Hr.
    destruct (now >? expiresAtMs r) eqn:Hgt; [lia|].
    by rewrite bool_decide_eq_true_2. }
  rewrite Hv. simpl. split_and!; try done.
  intros code2 now2 now2' Hnow2 Hcode2. by apply (verify_match _ _ _ r).
Qed.

(** ** Waiting on a request whose deadline is reached *)

Lemma wait_deadline_reached s l r now :
  heap s !! l = Some r -> expiresAtMs r <= now ->
  let w := waitForVerification l now s in
  w.1 = Settled false /\ statusOf w.2 l = Some Expired
  /\ timers w.2 = timers s /\ pending w.2 = pending s.
Proof.
  intros Hl Hnow. unfold waitForVerification. rewrite Hl.
  destruct (expiresAtMs r - now <=? 0) eqn:Hle; [|lia]. simpl.
  split_and!; try done.
  unfold statusOf; simpl. rewrite lookup_alter, decide_True by done.
  by rewrite Hl.
Qed.

(** C7. When the deadline of a request has passed,
    [waitForVerification] returns false at once, marks the request
    expired, and registers neither a timer nor a table entry. The id
    of the request having no entry, a later submission on it fails:
    the lookup misses and the error is [Request not found or
    expired]; the submission changes nothing. *)
Theorem wait_after_deadline_settles_false s l r now :
  heap s !! l = Some r -> expiresAtMs r < now ->
  pending s !! id r = None ->
  let w := waitForVerification l now s in
  w.1 = Settled false /\ statusOf w.2 l = Some Expired
  /\ timers w.2 = timers s /\ pending w.2 = pending s
  /\ forall code n n',
       verify toUpperCase (id r) code n n' w.2
       = ({| success := false;
             error := Some "Request not found or expired"%string |}, w.2).
Proof.
  intros Hl Hnow Hk.
  destruct (wait_deadline_reached s l r now Hl) as (H1 & H2 & H3 & H4);
    [lia|].
  split_and!; try done.
  intros code n n'. unfold verify. by rewrite H4, Hk.
Qed.

(** C10. At the instant of the deadline ([Date.now()] equal to
    [expiresAtMs]) the two expiry checks disagree: [verify] on a table
    entry still accepts a matching code and performs the verified
    transition, while [waitForVerification] on a request with that
    deadline treats it as expired, returns false and registers
    nothing. *)
Theorem deadline_instant_verify_accepts_wait_expires
    s k e r code now now' :
  reachable toUpperCase config s ->
  pending s !! k = Some e -> heap s !! request e = Some r ->
  now = expiresAtMs r ->
  toUpperCase (trim code) = toUpperCase (trim (verificationCode r)) ->
  ((verify toUpperCase k code now now' s).1
     = {| success := true; error := None |}
   /\ verifiedTransition s (verify toUpperCase k code now now' s).2
        k e now')
  /\ forall l r',
       heap s !! l = Some r' -> expiresAtMs r' = now ->
       let w := waitForVerification l now s in
       w.1 = Settled false /\ statusOf w.2 l = Some Expired
       /\ timers w.2 = timers s /\ pending w.2 = pending s.
Proof.
  intros Hs Hk Hr Hnow Hcode. apply reachable_Inv in Hs as HI. split.
  - apply (verify_match _ _ _ r); try done. lia.
  - intros l r' Hl Hr'. apply (wait_deadline_reached s l r' now Hl). lia.
Qed.

(** ** Cancellation *)

Lemma cancel_entry s k e :
  Inv s -> pending s !! k = Some e ->
  let s' := (cancel k s).2 in
  (cancel k s).1 = true
  /\ is_Some (timers s !! timer e) /\ timers s' !! timer e = None
  /\ pending s' !! k = None
  /\ statusOf s' (request e) = Some Cancelled
  /\ calls s (resolve e) = [] /\ calls s' (resolve e) = [false]
  /\ outcome s' (resolve e) = Some false
  /\ cancel k s' = (false, s').
Proof.
  intros HI Hk.
  destruct (entry_task _ _ _ HI Hk) as (r & d & Hr & Hid & Ht).
  destruct (inv_timer _ HI _ _ Ht) as (_ & _ & _ & Hc). simpl in Hc.
  unfold cancel. rewrite Hk. simpl.
  assert (Hcalls : calls
            (callResolve (resolve e) false
               (setStatus (request e) Cancelled
                  (pendingDelete k (clearTimeout (timer e) s))))
            (resolve e) = [false]).
  { rewrite calls_callResolve_same, (calls_log _ s), Hc by reflexivity.
    reflexivity. }
  split_and!; try done.
  + by apply lookup_delete_eq.
  + by apply lookup_delete_eq.
  + unfold statusOf; simpl. rewrite lookup_alter, decide_True by done.
    by rewrite Hr.
  + unfold outcome. by rewrite Hcalls.
  + by rewrite lookup_delete_eq.
Qed.

(** An id without table entry gets one only through a wait on it. *)
Lemma pending_none_step k op s s' :
  Change toUpperCase op s s' ->
  waitsOn k op s = false ->
  pending s !! k = None -> pending s' !! k = None.
Proof.
  intros Hch Hw Hk.
  destruct Hch
    as [-> _
       |r Hrefs Hfresh Hst Hheap Hpend Htim Hlog _
       |l now r -> Hl Hheap Hpend Htim Hlog
       |l now r d -> Hl Hheap Hpend Htim Hlog
       |t0 task0 r0 st b f Hrefs Ht0 Hr0 Hst Hf Hheap Hpend Htim Hlog _].
  - done.
  - by rewrite Hpend.
  - by rewrite Hpend.
  - simpl in Hw. rewrite Hl in Hw. apply bool_decide_eq_false in Hw.
    by rewrite Hpend, lookup_insert_ne.
  - rewrite Hpend. destruct (decide (id r0 = k)) as [->|Hne].
    + apply lookup_delete_eq.
    + by rewrite lookup_delete_ne.
Qed.

Lemma pending_none_run k ops : forall s,
  Inv s -> pending s !! k = None ->
  noWaitOn toUpperCase config k ops s ->
  pending (run toUpperCase config ops s) !! k = None.
Proof.
  induction ops as [|op ops IH]; intros s HI Hk; simpl; [done|].
  intros [Hw Hrest]. apply IH; [by apply Inv_step| |done].
  eapply pending_none_step; [by apply step_Change|done..].
Qed.

(** A terminal transition for an id removes its table entry. *)
Lemma performs_pending_none k op s :
  Inv s -> performs toUpperCase k op s = true ->
  pending (step toUpperCase config op s) !! k = None.
Proof.
  intros HI Hp.
  destruct (step_Change op s HI)
    as [_ Hperf
       |r _ _ _ _ _ _ _ Hperf
       |l now r Hop _ _ _ _ _
       |l now r d Hop _ _ _ _ _
       |t0 task0 r0 st b f _ _ _ _ _ _ Hpend _ _ Hperf].
  - by rewrite Hperf in Hp.
  - by rewrite Hperf in Hp.
  - by rewrite Hop in Hp.
  - by rewrite Hop in Hp.
  - rewrite Hperf in Hp. apply bool_decide_eq_true in Hp as <-.
    rewrite Hpend. apply lookup_delete_eq.
Qed.

(** A table entry stays while no operation performs a transition for
    its id or waits on it. *)
Lemma pending_kept_run k ops : forall s,
  Inv s -> noWaitOn toUpperCase config k ops s ->
  transitions toUpperCase config k ops s = 0%nat ->
  pending (run toUpperCase config ops s) !! k = pending s !! k.
Proof.
  induction ops as [|op ops IH]; intros s HI; simpl; [done|].
  intros [Hw Hrest] Htr.
  destruct (performs toUpperCase k op s) eqn:Hp; [lia|].
  rewrite IH; [|by apply Inv_step|done|lia].
  eapply pending_step; [by apply step_Change|done..].
Qed.

(** C4, as amended. What [cancel(id)] does depends on the table alone.
    On an id that has a table entry it performs the cancelled
    transition: it returns true, disarms the timer of the entry,
    removes the entry, marks the request cancelled and calls the
    resolver of the waiter, not called before, once with false; this
    is the case of a request on which [waitForVerification] has
    suspended, as long as no operation has performed a terminal
    transition for its id or waited on it again. On an id without
    entry it returns false and leaves the state as it is; this is the
    case of an id that was never waited on, and of an id for which a
    terminal transition has been performed, both as long as
    [waitForVerification] is not called on the id (again). *)
Theorem cancel_transition_or_noop s k :
  reachable toUpperCase config s ->
  match pending s !! k with
  | Some e =>
      let s' := (cancel k s).2 in
      (cancel k s).1 = true
      /\ is_Some (timers s !! timer e) /\ timers s' !! timer e = None
      /\ pending s' !! k = None
      /\ statusOf s' (request e) = Some Cancelled
      /\ calls s (resolve e) = [] /\ calls s' (resolve e) = [false]
      /\ outcome s' (resolve e) = Some false
      /\ cancel k s' = (false, s')
  | None => cancel k s = (false, s)
  end
  /\ (forall l r now ops,
        heap s !! l = Some r -> id r = k -> now < expiresAtMs r ->
        let s1 := (waitForVerification l now s).2 in
        noWaitOn toUpperCase config k ops s1 ->
        transitions toUpperCase config k ops s1 = 0%nat ->
        let s2 := run toUpperCase config ops s1 in
        (cancel k s2).1 = true
        /\ pending (cancel k s2).2 !! k = None
        /\ statusOf (cancel k s2).2 l = Some Cancelled
        /\ calls (cancel k s2).2 (nextPromise s) = [false])
  /\ (forall ops,
        pending s !! k = None ->
        noWaitOn toUpperCase config k ops s ->
        cancel k (run toUpperCase config ops s)
        = (false, run toUpperCase config ops s))
  /\ (forall op ops,
        performs toUpperCase k op s = true ->
        noWaitOn toUpperCase config k ops (step toUpperCase config op s) ->
        cancel k (run toUpperCase config ops (step toUpperCase config op s))
        = (false, run toUpperCase config ops (step toUpperCase config op s))).
Proof.
  intros Hs. apply reachable_Inv in Hs as HI. split_and!.
  - destruct (pending s !! k) as [e|] eqn:Hk.
    + by apply cancel_entry.
    + unfold cancel. by rewrite Hk.
  - intros l r now ops Hl Hid Hnow s1 Hno Htr s2.
    assert (HI1 : Inv s1) by apply (Inv_step (OpWait l now) s HI).
    assert (H1 : pending s1 !! k
                 = Some {| request := l; resolve := nextPromise s;
                           timer := nextTimer s |}).
    { subst s1. unfold waitForVerification. rewrite Hl.
      destruct (expiresAtMs r - now <=? 0) eqn:Hle; [lia|]. simpl.
      by rewrite Hid, lookup_insert_eq. }
    assert (H2 : pending s2 !! k
                 = Some {| request := l; resolve := nextPromise s;
                           timer := nextTimer s |}).
    { subst s2. by rewrite pending_kept_run. }
    destruct (cancel_entry s2 k _ (Inv_run ops s1 HI1) H2)
      as (Hc & _ & _ & Hp & Hst & _ & Hcalls & _).
    done.
  - intros ops Hk Hno. unfold cancel. by rewrite pending_none_run.
  - intros op ops Hp Hno. unfold cancel.
    rewrite pending_none_run; [done|by apply Inv_step| |done].
    by apply performs_pending_none.
Qed.

End Executions.

Lemma cancel_transition_or_noop_witness :
  reachable asciiToUpperCase Scenario.mockConfig Scenario.waiting
  /\ (cancel Scenario.uuid Scenario.waiting).1 = true
  /\ statusOf (cancel Scenario.uuid Scenario.waiting).2 0%nat = Some Cancelled.
Proof.
  pose proof (proj1 (cancel_transition_or_noop asciiToUpperCase
                       Scenario.mockConfig Scenario.waiting Scenario.uuid
                       (reachable_run _ _ Scenario.opsWaiting init
                          (reachable_init _ _)))) as H.
  split; [exact (reachable_run _ _ Scenario.opsWaiting init (reachable_init _ _))|].
  vm_compute in H. vm_compute. tauto.
Defined.

(** C4, as stated, fails on its second half. The request is verified
    (a terminal transition for its id), and a second call of
    [waitForVerification] on it before its deadline registers the id
    again: [cancel] on the id, already resolved, returns true and
    replaces the status verified by cancelled. *)
Lemma cancel_overwrites_verified_status :
  performs asciiToUpperCase Scenario.uuid
    (OpVerify Scenario.uuid (js "123456") 2000 2001) Scenario.waiting = true
  /\ statusOf (Scenario.runScenario Scenario.opsVerified) 0%nat = Some Verified
  /\ statusOf (Scenario.runScenario Scenario.opsRewaited) 0%nat = Some Verified
  /\ (cancel Scenario.uuid (Scenario.runScenario Scenario.opsRewaited)).1 = true
  /\ statusOf (cancel Scenario.uuid
                 (Scenario.runScenario Scenario.opsRewaited)).2 0%nat
     = Some Cancelled
  /\ cancel Scenario.uuid (Scenario.runScenario Scenario.opsRewaited)
     <> (false, Scenario.runScenario Scenario.opsRewaited).
Proof.
  assert (H : (cancel Scenario.uuid
                 (Scenario.runScenario Scenario.opsRewaited)).1 = true)
    by (vm_compute; reflexivity).
  split_and!; try (vm_compute; reflexivity); try exact H.
  intros Heq. rewrite Heq in H. discriminate H.
Qed.

Lemma waiting_reachable :
  reachable asciiToUpperCase Scenario.mockConfig Scenario.waiting.
Proof. apply (reachable_run _ _ Scenario.opsWaiting), reachable_init. Qed.

Lemma verify_past_deadline_expires_witness :
  pending Scenario.waiting !! Scenario.uuid = Some Scenario.entry0
  /\ heap Scenario.waiting !! 0%nat = Some Scenario.request0
  /\ expiresAtMs Scenario.request0 < 400000
  /\ (verify asciiToUpperCase Scenario.uuid (js "123456") 400000 400001
        Scenario.waiting).1
     = {| success := false; error := Some "Request expired"%string |}.
Proof.
  assert (H1 : pending Scenario.waiting !! Scenario.uuid = Some Scenario.entry0)
    by (vm_compute; reflexivity).
  assert (H2 : heap Scenario.waiting !! request Scenario.entry0 = Some Scenario.request0)
    by (vm_compute; reflexivity).
  assert (H3 : expiresAtMs Scenario.request0 < 400000) by (simpl; lia).
  split_and!; [exact H1 | exact H2 | exact H3 |].
  exact (proj1 (verify_past_deadline_expires asciiToUpperCase
                  Scenario.mockConfig Scenario.waiting Scenario.uuid Scenario.entry0
                  Scenario.request0 (js "123456") 400000 400001
                  waiting_reachable H1 H2 H3)).
Defined.

Lemma wrong_code_keeps_request_pending_witness :
  pending Scenario.waiting !! Scenario.uuid = Some Scenario.entry0
  /\ heap Scenario.waiting !! 0%nat = Some Scenario.request0
  /\ 2000 <= expiresAtMs Scenario.request0
  /\ asciiToUpperCase (trim (js "12345"))
     <> asciiToUpperCase (trim (verificationCode Scenario.request0))
  /\ asciiToUpperCase (trim (js " 123456"))
     = asciiToUpperCase (trim (verificationCode Scenario.request0))
  /\ (verify asciiToUpperCase Scenario.uuid (js "12345") 2000 2001
        Scenario.waiting).2 = Scenario.waiting
  /\ (verify asciiToUpperCase Scenario.uuid (js " 123456") 3000 3001
        (verify asciiToUpperCase Scenario.uuid (js "12345") 2000 2001
           Scenario.waiting).2).1
     = {| success := true; error := None |}.
Proof.
  assert (H1 : pending Scenario.waiting !! Scenario.uuid = Some Scenario.entry0)
    by (vm_compute; reflexivity).
  assert (H2 : heap Scenario.waiting !! request Scenario.entry0 = Some Scenario.request0)
    by (vm_compute; reflexivity).
  assert (H3 : 2000 <= expiresAtMs Scenario.request0) by (simpl; lia).
  assert (H4 : asciiToUpperCase (trim (js "12345"))
               <> asciiToUpperCase (trim (verificationCode Scenario.request0)))
    by (vm_compute; discriminate).
  assert (H5 : asciiToUpperCase (trim (js " 123456"))
               = asciiToUpperCase (trim (verificationCode Scenario.request0)))
    by (vm_compute; reflexivity).
  assert (H6 : 3000 <= expiresAtMs Scenario.request0) by (simpl; lia).
  destruct (wrong_code_keeps_request_pending asciiToUpperCase
              Scenario.mockConfig Scenario.waiting Scenario.uuid Scenario.entry0
              Scenario.request0 (js "12345") 2000 2001
              waiting_reachable H1 H2 H3 H4)
    as (_ & Hs & _ & _ & _ & Hnext).
  split_and!; [exact H1 | exact H2 | exact H3 | exact H4 | exact H5
              | exact Hs |].
  exact (proj1 (Hnext (js " 123456") 3000 3001 H6 H5)).
Defined.

Lemma wait_after_deadline_settles_false_witness :
  heap Scenario.created !! 0%nat = Some Scenario.request0
  /\ expiresAtMs Scenario.request0 < 400000
  /\ pending Scenario.created !! id Scenario.request0 = None
  /\ (waitForVerification 0%nat 400000 Scenario.created).1 = Settled false
  /\ (verify asciiToUpperCase Scenario.uuid (js "123456") 400001 400002
        (waitForVerification 0%nat 400000 Scenario.created).2).1
     = {| success := false;
          error := Some "Request not found or expired"%string |}.
Proof.
  assert (H1 : heap Scenario.created !! 0%nat = Some Scenario.request0)
    by (vm_compute; reflexivity).
  assert (H2 : expiresAtMs Scenario.request0 < 400000) by (simpl; lia).
  assert (H3 : pending Scenario.created !! id Scenario.request0 = None)
    by (vm_compute; reflexivity).
  destruct (wait_after_deadline_settles_false asciiToUpperCase
              Scenario.created 0%nat Scenario.request0 400000 H1 H2 H3)
    as (Hw & _ & _ & _ & Hv).
  split_and!; [exact H1 | exact H2 | exact H3 | exact Hw |].
  exact (f_equal fst (Hv (js "123456") 400001 400002)).
Defined.

Lemma deadline_instant_verify_accepts_wait_expires_witness :
  pending Scenario.waiting !! Scenario.uuid = Some Scenario.entry0
  /\ heap Scenario.waiting !! 0%nat = Some Scenario.request0
  /\ 301000 = expiresAtMs Scenario.request0
  /\ asciiToUpperCase (trim (js "123456"))
     = asciiToUpperCase (trim (verificationCode Scenario.request0))
  /\ (verify asciiToUpperCase Scenario.uuid (js "123456") 301000 301000
        Scenario.waiting).1
     = {| success := true; error := None |}
  /\ (waitForVerification 0%nat 301000 Scenario.waiting).1 = Settled false.
Proof.
  assert (H1 : pending Scenario.waiting !! Scenario.uuid = Some Scenario.entry0)
    by (vm_compute; reflexivity).
  assert (H2 : heap Scenario.waiting !! request Scenario.entry0 = Some Scenario.request0)
    by (vm_compute; reflexivity).
  assert (H3 : 301000 = expiresAtMs Scenario.request0) by reflexivity.
  assert (H4 : asciiToUpperCase (trim (js "123456"))
               = asciiToUpperCase (trim (verificationCode Scenario.request0)))
    by (vm_compute; reflexivity).
  destruct (deadline_instant_verify_accepts_wait_expires asciiToUpperCase
              Scenario.mockConfig Scenario.waiting Scenario.uuid Scenario.entry0
              Scenario.request0 (js "123456") 301000 301000
              waiting_reachable H1 H2 H3 H4)
    as ((Hv & _) & Hw).
  split_and!; [exact H1 | exact H2 | exact H3 | exact H4 | exact Hv |].
  exact (proj1 (Hw 0%nat Scenario.request0 H2 eq_refl)).
Defined.

Lemma status_written_once_when_waited_once_witness :
  NoDup (waitRefs Scenario.opsVerified)
  /\ statusOf (Scenario.runScenario Scenario.opsWaiting) 0%nat = Some Pending
  /\ statusOf (Scenario.runScenario Scenario.opsVerified) 0%nat = Some Verified
  /\ statusImmutable asciiToUpperCase Scenario.mockConfig Scenario.opsVerified.
Proof.
  assert (H : NoDup (waitRefs Scenario.opsVerified))
    by (apply (bool_decide_unpack _); vm_compute; exact I).
  split; [exact H|]. split; [vm_compute; reflexivity|].
  split; [vm_compute; reflexivity|].
  exact (proj2 (status_written_once_when_waited_once asciiToUpperCase
                  Scenario.mockConfig Scenario.opsVerified H)).
Defined.

(** C2, as stated, fails: over all executions a terminal status is not
    immutable. A request that has been verified is marked expired by a
    second call of [waitForVerification] on it after its deadline. *)
Lemma status_overwritten_by_second_wait :
  statusOf (Scenario.runScenario Scenario.opsVerified) 0%nat = Some Verified
  /\ statusOf (Scenario.runScenario Scenario.opsWaitAgain) 0%nat = Some Expired
  /\ ~ statusImmutable asciiToUpperCase Scenario.mockConfig Scenario.opsWaitAgain.
Proof.
  assert (H1 : statusOf (Scenario.runScenario Scenario.opsVerified) 0%nat = Some Verified)
    by (vm_compute; reflexivity).
  assert (H2 : statusOf (Scenario.runScenario Scenario.opsWaitAgain) 0%nat = Some Expired)
    by (vm_compute; reflexivity).
  split; [exact H1|]. split; [exact H2|].
  intros Himm.
  specialize (Himm Scenario.opsVerified [OpWait 0%nat 400000] 0%nat Verified
                eq_refl H1).
  unfold Scenario.runScenario in H2. rewrite Himm in H2; [discriminate|].
  discriminate.
Qed.

Lemma waiting_soleWaiter : soleWaiter Scenario.waiting Scenario.uuid.
Proof.
  intros t (task & r & Ht & _). exists Scenario.entry0.
  split; [vm_compute; reflexivity|].
  assert (Htimers : timers Scenario.waiting
                    = {[ 0%nat := {| task_request := 0%nat;
                                     task_resolve := 0%nat;
                                     task_delay := 300000 |} ]})
    by (vm_compute; reflexivity).
  rewrite Htimers in Ht. apply lookup_singleton_Some in Ht as [<- _].
  reflexivity.
Qed.

Lemma sole_waiter_resolved_once_witness :
  soleWaiter Scenario.waiting Scenario.uuid
  /\ noWaitOn asciiToUpperCase Scenario.mockConfig Scenario.uuid
       Scenario.opsRace Scenario.waiting
  /\ (transitions asciiToUpperCase Scenario.mockConfig Scenario.uuid
        Scenario.opsRace Scenario.waiting <= 1)%nat
  /\ performs asciiToUpperCase Scenario.uuid
       (OpVerify Scenario.uuid (js "123456") 2000 2001)
       (run asciiToUpperCase Scenario.mockConfig
          [OpVerify Scenario.uuid (js "654321") 1500 1501] Scenario.waiting)
     = true
  /\ (cancel Scenario.uuid
        (run asciiToUpperCase Scenario.mockConfig [OpTimeout 0%nat]
           (step asciiToUpperCase Scenario.mockConfig
              (OpVerify Scenario.uuid (js "123456") 2000 2001)
              (run asciiToUpperCase Scenario.mockConfig
                 [OpVerify Scenario.uuid (js "654321") 1500 1501]
                 Scenario.waiting)))).1 = false.
Proof.
  assert (Hno : noWaitOn asciiToUpperCase Scenario.mockConfig Scenario.uuid
                  Scenario.opsRace Scenario.waiting)
    by (cbn [noWaitOn Scenario.opsRace]; split_and!; vm_compute; done).
  assert (Hp : performs asciiToUpperCase Scenario.uuid
                 (OpVerify Scenario.uuid (js "123456") 2000 2001)
                 (run asciiToUpperCase Scenario.mockConfig
                    [OpVerify Scenario.uuid (js "654321") 1500 1501]
                    Scenario.waiting) = true)
    by (vm_compute; reflexivity).
  destruct (sole_waiter_resolved_once asciiToUpperCase Scenario.mockConfig
              Scenario.waiting Scenario.uuid Scenario.opsRace
              waiting_reachable waiting_soleWaiter Hno) as [Hle Hdet].
  destruct (Hdet [OpVerify Scenario.uuid (js "654321") 1500 1501]
              (OpVerify Scenario.uuid (js "123456") 2000 2001)
              [OpTimeout 0%nat; OpCancel Scenario.uuid] eq_refl Hp)
    as (e & b & _ & _ & _ & _ & _ & _ & Hafter).
  destruct (Hafter [OpTimeout 0%nat] [OpCancel Scenario.uuid] eq_refl)
    as (_ & Hc & _).
  split; [exact waiting_soleWaiter|]. split; [exact Hno|].
  split; [exact Hle|]. split; [exact Hp|]. exact (f_equal fst Hc).
Defined.

(** C1, as stated, fails. In the execution create, wait, wait, verify,
    expiry of the first timer, two operations perform a terminal
    transition for the one id: the successful [verify] (the entry is
    removed, timer 1 is cleared, the second waiter receives true) and
    then the expiry of timer 0, which the second wait left armed (the
    request, verified, is marked expired and the first waiter receives
    false). *)
Lemma two_waiters_two_transitions :
  transitions asciiToUpperCase Scenario.mockConfig Scenario.uuid
    Scenario.opsTwoTransitions init = 2%nat
  /\ statusOf (Scenario.runScenario Scenario.opsTwoWaitersVerified) 0%nat = Some Verified
  /\ statusOf (Scenario.runScenario Scenario.opsTwoTransitions) 0%nat = Some Expired
  /\ calls (Scenario.runScenario Scenario.opsTwoTransitions) 1%nat = [true]
  /\ calls (Scenario.runScenario Scenario.opsTwoTransitions) 0%nat = [false]
  /\ ~ (transitions asciiToUpperCase Scenario.mockConfig Scenario.uuid
         Scenario.opsTwoTransitions init <= 1)%nat.
Proof.
  assert (H : transitions asciiToUpperCase Scenario.mockConfig Scenario.uuid
                Scenario.opsTwoTransitions init = 2%nat)
    by (vm_compute; reflexivity).
  split; [exact H|]. split_and!; try (vm_compute; reflexivity).
  rewrite H. lia.
Qed.

(** After a terminal transition, a second [waitForVerification] on
    the same request registers its id again, and [verify] succeeds a
    second time. *)
Example verify_succeeds_again_after_second_wait :
  let s := Scenario.runScenario Scenario.opsVerified in
  verify asciiToUpperCase Scenario.uuid (js "123456") 2500 2501 s
  = ({| success := false;
        error := Some "Request not found or expired"%string |}, s)
  /\ (verify asciiToUpperCase Scenario.uuid (js "123456") 4000 4001
        (waitForVerification 0%nat 3000 s).2).1
     = {| success := true; error := None |}.
Proof. split; vm_compute; reflexivity. Qed.

Lemma create_registers_nothing_witness :
  (0%nat ∉ waitRefs [OpCancel Scenario.uuid; OpTimeout 0%nat])
  /\ statusOf Scenario.created 0%nat = Some Pending
  /\ getRequest Scenario.uuid Scenario.created = None.
Proof.
  assert (H : 0%nat ∉ waitRefs [OpCancel Scenario.uuid; OpTimeout 0%nat])
    by apply not_elem_of_nil.
  destruct (create_registers_nothing asciiToUpperCase Scenario.mockConfig
              init 1000 Scenario.uuid [] Scenario.payload
              [OpCancel Scenario.uuid; OpTimeout 0%nat]
              (reachable_init _ _) H)
    as ((_ & Hst) & _ & Hget & _).
  split; [exact H|]. split; [exact Hst|]. exact (Hget eq_refl).
Defined.

(** C3, as stated, fails on its second half: between [create] and
    [waitForVerification], [getRequest] on the id of the new request
    returns null, the request being in no table entry. *)
Lemma getRequest_after_create_is_null :
  create Scenario.mockConfig 1000 Scenario.uuid [] Scenario.payload init
  = (0%nat, Scenario.created)
  /\ heap Scenario.created !! 0%nat = Some Scenario.request0
  /\ id Scenario.request0 = Scenario.uuid
  /\ getRequest Scenario.uuid Scenario.created = None
  /\ getRequest Scenario.uuid Scenario.created <> Some 0%nat.
Proof. split_and!; try (vm_compute; reflexivity). vm_compute. discriminate. Qed.

End TwoFactorFacts.

(* ===================================================================== *)
(** * Further properties: trimming *)
(* ===================================================================== *)

Module TrimFacts.
Import StringOps.

Lemma trimStart_head s c t :
  trimStart s = c :: t -> isWhiteSpace c = false.
Proof.
  induction s as [|d s IH]; simpl; [done|].
  destruct (isWhiteSpace d) eqn:Hd; [done|]. by intros [= <- _].
Qed.

Lemma trimStart_split s :
  exists ws, allWhiteSpace ws /\ s = ws ++ trimStart s.
Proof.
  induction s as [|d s (ws & Hws & IH)]; simpl.
  - exists []. split; [constructor|done].
  - destruct (isWhiteSpace d) eqn:Hd.
    + exists (d :: ws). split; [by constructor|]. simpl. by f_equal.
    + exists []. split; [constructor|done].
Qed.

Lemma trimStart_fixed s :
  (forall c, head s = Some c -> isWhiteSpace c = false) -> trimStart s = s.
Proof.
  destruct s as [|d s]; simpl; [done|]. intros H.
  by rewrite (H d eq_refl).
Qed.

Lemma trimStart_idem s : trimStart (trimStart s) = trimStart s.
Proof.
  apply trimStart_fixed. intros c Hc.
  destruct (trimStart s) as [|d t] eqn:Ht; [done|].
  injection Hc as ->. by eapply trimStart_head.
Qed.

Lemma trimStart_allWhiteSpace ws : allWhiteSpace ws -> trimStart ws = [].
Proof. induction 1 as [|c ws Hc _ IH]; simpl; [done|]. by rewrite Hc. Qed.

Lemma trimStart_nil s : trimStart s = [] -> allWhiteSpace s.
Proof.
  intros H. destruct (trimStart_split s) as (ws & Hws & Hs).
  rewrite H, app_nil_r in Hs. by subst.
Qed.

Lemma trimStart_app_l ws s :
  allWhiteSpace ws -> trimStart (ws ++ s) = trimStart s.
Proof. induction 1 as [|c ws Hc _ IH]; simpl; [done|]. by rewrite Hc. Qed.

Lemma trimStart_app_r s ws :
  allWhiteSpace ws ->
  trimStart (s ++ ws)
  = match trimStart s with [] => [] | _ :: _ => trimStart s ++ ws end.
Proof.
  intros Hws. induction s as [|d s IH]; simpl.
  - by apply trimStart_allWhiteSpace.
  - by destruct (isWhiteSpace d).
Qed.

Lemma allWhiteSpace_rev ws : allWhiteSpace ws -> allWhiteSpace (rev ws).
Proof. apply Forall_rev. Qed.

Lemma last_rev (s : jsstring) : last (rev s) = head s.
Proof. rewrite rev_alt. apply last_reverse. Qed.

Lemma trimEnd_app_r s ws : allWhiteSpace ws -> trimEnd (s ++ ws) = trimEnd s.
Proof.
  intros Hws. unfold trimEnd. rewrite rev_app_distr.
  by rewrite trimStart_app_l by by apply allWhiteSpace_rev.
Qed.

(** White space around a string does not change its trimmed form. *)
Lemma trim_pad ws s ws' :
  allWhiteSpace ws -> allWhiteSpace ws' -> trim (ws ++ s ++ ws') = trim s.
Proof.
  intros Hws Hws'. unfold trim.
  rewrite trimStart_app_l, trimStart_app_r by done.
  destruct (trimStart s) as [|c t] eqn:Ht; [done|].
  by rewrite trimEnd_app_r.
Qed.

Lemma trim_allWhiteSpace s : allWhiteSpace s -> trim s = [].
Proof. intros H. unfold trim. by rewrite trimStart_allWhiteSpace. Qed.

Lemma trim_nil s : trim s = [] -> allWhiteSpace s.
Proof.
  unfold trim, trimEnd. intros H.
  destruct (trimStart_split s) as (ws & Hws & Hs).
  rewrite Hs. apply Forall_app. split; [done|].
  apply (f_equal (@rev N)) in H. rewrite rev_involutive in H. simpl in H.
  apply trimStart_nil in H. apply allWhiteSpace_rev in H.
  by rewrite rev_involutive in H.
Qed.

(** The trimmed form is a segment of the string, between white space. *)
Lemma trim_split s :
  exists ws ws', allWhiteSpace ws /\ allWhiteSpace ws'
                 /\ s = ws ++ trim s ++ ws'.
Proof.
  destruct (trimStart_split s) as (ws & Hws & Hs).
  destruct (trimStart_split (rev (trimStart s))) as (ws' & Hws' & Hs').
  exists ws, (rev ws'). split; [done|]. split; [by apply allWhiteSpace_rev|].
  rewrite Hs at 1. f_equal. unfold trim, trimEnd.
  rewrite <- rev_app_distr, <- Hs'. by rewrite rev_involutive.
Qed.

Lemma trim_head s c : head (trim s) = Some c -> isWhiteSpace c = false.
Proof.
  intros Hc. unfold trim, trimEnd in *.
  destruct (trimStart_split (rev (trimStart s))) as (ws & Hws & Hs).
  apply (f_equal (@rev N)) in Hs. rewrite rev_involutive, rev_app_distr in Hs.
  destruct (rev (trimStart (rev (trimStart s)))) as [|d u] eqn:Hu; [done|].
  injection Hc as ->. simpl in Hs.
  by apply (trimStart_head s c (u ++ rev ws)).
Qed.

Lemma trim_last s c : last (trim s) = Some c -> isWhiteSpace c = false.
Proof.
  unfold trim, trimEnd. rewrite last_rev.
  destruct (trimStart (rev (trimStart s))) as [|d u] eqn:Hu; [done|].
  intros [= ->]. by eapply trimStart_head.
Qed.

Lemma trim_fixed s :
  (forall c, head s = Some c -> isWhiteSpace c = false) ->
  (forall c, last s = Some c -> isWhiteSpace c = false) ->
  trim s = s.
Proof.
  intros Hh Hl. unfold trim, trimEnd. rewrite (trimStart_fixed s Hh).
  rewrite trimStart_fixed; [apply rev_involutive|].
  intros c Hc. apply Hl. by rewrite <- (rev_involutive s), last_rev.
Qed.

Lemma trim_idem s : trim (trim s) = trim s.
Proof. apply trim_fixed; [apply trim_head | apply trim_last]. Qed.

Lemma trim_map f s :
  (forall c, isWhiteSpace (f c) = isWhiteSpace c) ->
  trim (map f s) = map f (trim s).
Proof.
  intros Hf.
  assert (Hstart : forall x, trimStart (map f x) = map f (trimStart x)).
  { induction x as [|c x IH]; simpl; [done|]. rewrite Hf.
    by destruct (isWhiteSpace c). }
  unfold trim, trimEnd. by rewrite Hstart, <- map_rev, Hstart, map_rev.
Qed.

End TrimFacts.

(* ===================================================================== *)
(** * Further properties of the lifecycle manager *)
(* ===================================================================== *)

Module ManagerFurther.
Import StringOps TwoFactor Further TwoFactorFacts TrimFacts.

Lemma waiters_ext s s' :
  nextPromise s' = nextPromise s -> resolveLog s' = resolveLog s ->
  timers s' = timers s ->
  waitersHaveTimers s -> waitersHaveTimers s'.
Proof.
  intros Hn Hl Ht H p Hp Hc. rewrite Hn in Hp.
  rewrite (calls_log s' s) in Hc by done.
  destruct (H p Hp Hc) as (t & task & Htask & Hres).
  exists t, task. by rewrite Ht.
Qed.

Lemma waiters_retire s t task k b :
  Inv s -> waitersHaveTimers s -> timers s !! t = Some task ->
  waitersHaveTimers
    (callResolve (task_resolve task) b (pendingDelete k (clearTimeout t s))).
Proof.
  intros HI H Ht p Hp Hc. simpl in Hp.
  destruct (decide (p = task_resolve task)) as [->|Hne].
  - rewrite calls_callResolve_same in Hc. by destruct (calls _ _).
  - rewrite calls_callResolve_other in Hc by done.
    rewrite (calls_log _ s) in Hc by done.
    destruct (H p Hp Hc) as (t' & task' & Ht' & Hres).
    exists t', task'. split; [|done]. simpl.
    rewrite lookup_delete_ne; [done|]. intros <-. congruence.
Qed.

Section Executions.

Variable toUpperCase : jsstring -> jsstring.
Variable config : TwoFactorConfig.

Lemma waiters_step op s :
  Inv s -> waitersHaveTimers s ->
  waitersHaveTimers (step toUpperCase config op s).
Proof.
  intros HI H. destruct op as [now uuid rb payload|l now|k code now now'|k|t];
    simpl.
  - by apply (waiters_ext s).
  - unfold waitForVerification.
    destruct (heap s !! l) as [r|] eqn:Hl; [|done].
    destruct (expiresAtMs r - now <=? 0); simpl; [by apply (waiters_ext s)|].
    intros p Hp Hc. simpl in *.
    destruct (decide (p = nextPromise s)) as [->|Hne].
    + eexists _, _. by rewrite lookup_insert_eq.
    + destruct (H p) as (t & task & Ht & Hres); [lia|done|].
      exists t, task. split; [|done]. rewrite lookup_insert_ne; [done|].
      destruct (inv_timer _ HI _ _ Ht). lia.
  - unfold verify. destruct (pending s !! k) as [e|] eqn:Hk; [|done].
    destruct (entry_task _ _ _ HI Hk) as (r & d & Hr & Hid & Ht).
    rewrite Hr. destruct (now >? expiresAtMs r); simpl.
    + eapply waiters_ext;
        [| | |exact (waiters_retire s _ _ k false HI H Ht)]; done.
    + case_bool_decide; simpl; [done|].
      eapply waiters_ext;
        [| | |exact (waiters_retire s _ _ k true HI H Ht)]; done.
  - unfold cancel. destruct (pending s !! k) as [e|] eqn:Hk; [|done].
    destruct (entry_task _ _ _ HI Hk) as (r & d & Hr & Hid & Ht). simpl.
    eapply waiters_ext;
      [| | |exact (waiters_retire s _ _ k false HI H Ht)]; done.
  - unfold onTimeout. destruct (timers s !! t) as [task|] eqn:Ht; [|done].
    simpl. destruct (heap s !! task_request task) as [r|] eqn:Hr.
    + eapply waiters_ext;
        [| | |exact (waiters_retire s _ _ (id r) false HI H Ht)]; done.
    + destruct (inv_timer _ HI _ _ Ht) as (_ & _ & [? ?] & _). congruence.
Qed.

Lemma reachable_waiters s :
  reachable toUpperCase config s -> waitersHaveTimers s.
Proof.
  induction 1 as [|op s Hs IH].
  - intros p Hp. simpl in Hp. lia.
  - apply waiters_step; [by eapply reachable_Inv|done].
Qed.

(** X1. In every execution, a waiter is never left without an answer
    to come and never answered twice: the resolver of a suspended call
    of [waitForVerification] either has not been called and a timer is
    armed whose expiry calls it with false, or it has been called
    exactly once and no armed timer refers to it any more. *)
Theorem waiter_answered_once_or_timer_armed s p :
  reachable toUpperCase config s ->
  (p < nextPromise s)%nat ->
  (calls s p = []
   /\ exists t task, timers s !! t = Some task /\ task_resolve task = p
                     /\ calls (onTimeout t s) p = [false])
  \/ ((exists b, calls s p = [b])
      /\ forall t task, timers s !! t = Some task -> task_resolve task <> p).
Proof.
  intros Hs Hp. apply reachable_Inv in Hs as HI.
  apply reachable_waiters in Hs as Hw.
  destruct (calls s p) as [|b rest] eqn:Hc.
  - left. split; [done|]. destruct (Hw p Hp Hc) as (t & task & Ht & Hres).
    exists t, task. split_and!; try done.
    unfold onTimeout. rewrite Ht. simpl.
    destruct (inv_timer _ HI _ _ Ht) as (_ & _ & [r Hr] & _). rewrite Hr.
    subst p. rewrite calls_callResolve_same, (calls_log _ s) by done.
    by rewrite Hc.
  - right. pose proof (inv_once _ HI p) as Hlen. rewrite Hc in Hlen.
    destruct rest; [|simpl in Hlen; lia]. split; [by eexists|].
    intros t task Ht Hres.
    destruct (inv_timer _ HI _ _ Ht) as (_ & _ & _ & Hnil). congruence.
Qed.

(** ** Who can answer a waiter with true *)

Lemma calls_step_cases op s p :
  Inv s ->
  calls (step toUpperCase config op s) p = calls s p
  \/ calls (step toUpperCase config op s) p = calls s p ++ [false]
  \/ (calls (step toUpperCase config op s) p = calls s p ++ [true]
      /\ exists k code now now' e r,
           op = OpVerify k code now now'
           /\ pending s !! k = Some e /\ resolve e = p
           /\ heap s !! request e = Some r
           /\ now <= expiresAtMs r
           /\ toUpperCase (trim code)
              = toUpperCase (trim (verificationCode r))).
Proof.
  intros HI.
  assert (Hcall : forall q b s0,
            resolveLog s0 = resolveLog s ->
            calls (callResolve q b s0) p = calls s p
            \/ (q = p /\ calls (callResolve q b s0) p = calls s p ++ [b])).
  { intros q b s0 Hlog. destruct (decide (q = p)) as [->|Hne].
    - right. split; [done|].
      by rewrite calls_callResolve_same, (calls_log s0 s).
    - left. rewrite calls_callResolve_other by done. by apply calls_log. }
  destruct op as [now uuid rb payload|l now|k code now now'|k|t]; simpl.
  - left. by apply calls_log.
  - left. unfold waitForVerification.
    destruct (heap s !! l) as [r|]; [|done].
    destruct (expiresAtMs r - now <=? 0); by apply calls_log.
  - unfold verify. destruct (pending s !! k) as [e|] eqn:Hk; [|by left].
    destruct (heap s !! request e) as [r|] eqn:Hr; [|by left].
    destruct (now >? expiresAtMs r) eqn:Hgt; simpl.
    + destruct (Hcall (resolve e) false
                  (setStatus (request e) Expired
                     (pendingDelete k (clearTimeout (timer e) s))) eq_refl)
        as [H|[_ H]]; [by left|right; by left].
    + case_bool_decide as Hcode; simpl; [by left|].
      destruct (Hcall (resolve e) true
                  (setResolvedAtMs (request e) now'
                     (setStatus (request e) Verified
                        (pendingDelete k (clearTimeout (timer e) s))))
                  eq_refl)
        as [H|[Hp H]]; [by left|]. right; right. split; [done|].
      exists k, code, now, now', e, r. split_and!; try done. lia.
  - unfold cancel. destruct (pending s !! k) as [e|] eqn:Hk; [|by left].
    simpl.
    destruct (Hcall (resolve e) false
                (setStatus (request e) Cancelled
                   (pendingDelete k (clearTimeout (timer e) s))) eq_refl)
      as [H|[_ H]]; [by left|right; by left].
  - unfold onTimeout. destruct (timers s !! t) as [task|] eqn:Ht; [|by left].
    simpl. destruct (heap s !! task_request task) as [r|] eqn:Hr; [|by left].
    destruct (Hcall (task_resolve task) false
                (setStatus (task_request task) Expired
                   (pendingDelete (id r) (clearTimeout t s))) eq_refl)
      as [H|[_ H]]; [by left|right; by left].
Qed.

(** X2. Fail-closed: when a waiter of an execution has received true,
    the execution contains a [verify] that found the table entry of
    that waiter, not after the deadline of its request, with a code
    equal to the stored one after trimming and upper-casing. Cancels and
    timer expiries only ever answer false. *)
Theorem true_outcome_comes_from_matching_verify ops p :
  outcome (run toUpperCase config ops init) p = Some true ->
  exists ops1 k code now now' ops2 e r,
    ops = ops1 ++ OpVerify k code now now' :: ops2
    /\ pending (run toUpperCase config ops1 init) !! k = Some e
    /\ resolve e = p
    /\ heap (run toUpperCase config ops1 init) !! request e = Some r
    /\ now <= expiresAtMs r
    /\ toUpperCase (trim code) = toUpperCase (trim (verificationCode r)).
Proof.
  induction ops as [|op ops IH] using rev_ind; [done|].
  rewrite run_app. simpl. unfold outcome.
  pose proof (Inv_run toUpperCase config ops init Inv_init) as HI.
  pose proof (Inv_step toUpperCase config op _ HI) as HI'.
  assert (Hold : outcome (run toUpperCase config ops init) p = Some true ->
            exists ops1 k code now now' ops2 e r,
              ops ++ [op] = ops1 ++ OpVerify k code now now' :: ops2
              /\ pending (run toUpperCase config ops1 init) !! k = Some e
              /\ resolve e = p
              /\ heap (run toUpperCase config ops1 init) !! request e = Some r
              /\ now <= expiresAtMs r
              /\ toUpperCase (trim code)
                 = toUpperCase (trim (verificationCode r))).
  { intros H. destruct (IH H)
      as (ops1 & k & code & now & now' & ops2 & e & r & -> & Hrest).
    exists ops1, k, code, now, now', (ops2 ++ [op]), e, r.
    split; [|done]. by rewrite <- app_assoc. }
  destruct (calls_step_cases op _ p HI)
    as [->|[->|[Hc (k & code & now & now' & e & r & -> & Hrest)]]].
  - exact Hold.
  - intros H. apply Hold. unfold outcome.
    by destruct (calls (run toUpperCase config ops init) p).
  - pose proof (inv_once _ HI' p) as Hlen. rewrite Hc in Hlen.
    destruct (calls (run toUpperCase config ops init) p) as [|b rest] eqn:Hcp.
    + intros _. by exists ops, k, code, now, now', [], e, r.
    + rewrite length_app in Hlen. simpl in Hlen. lia.
Qed.

(** ** The results of [verify] *)

(** X3. [verify] succeeds exactly when the id has a table entry, the
    deadline of its request has not passed and the codes agree after
    trimming and upper-casing. A success carries no error; a failure
    carries one of the three messages; only the failure [Request
    expired] changes the state. *)
Theorem verify_result_cases s k code now now' :
  let res := verify toUpperCase k code now now' s in
  (success res.1 = true <->
   exists e r, pending s !! k = Some e /\ heap s !! request e = Some r
               /\ now <= expiresAtMs r
               /\ toUpperCase (trim code)
                  = toUpperCase (trim (verificationCode r)))
  /\ (success res.1 = true -> error res.1 = None)
  /\ (success res.1 = false ->
      error res.1 = Some "Request not found or expired"%string
      \/ error res.1 = Some "Request expired"%string
      \/ error res.1 = Some "Invalid verification code"%string)
  /\ (error res.1 <> Some "Request expired"%string ->
      success res.1 = false -> res.2 = s).
Proof.
  unfold verify.
  destruct (pending s !! k) as [e|] eqn:Hk; simpl.
  2:{ split_and!; try done; [|by left].
      split; [done|]. by intros (e & r & ? & _). }
  destruct (heap s !! request e) as [r|] eqn:Hr; simpl.
  2:{ split_and!; try done; [|by left].
      split; [done|]. intros (e' & r' & ? & ? & _). congruence. }
  destruct (now >? expiresAtMs r) eqn:Hgt; simpl.
  { split_and!; try done; [|right; by left].
    split; [done|]. intros (e' & r' & ? & ? & ? & _).
    assert (r' = r) by congruence. subst. lia. }
  case_bool_decide as Hcode; simpl.
  - split_and!; try done; [|right; by right].
    split; [done|]. intros (e' & r' & ? & ? & _ & Heq).
    assert (r' = r) by congruence. by subst.
  - split_and!; try done.
    split; [|done]. intros _. exists e, r. split_and!; try done; lia.
Qed.

(** X4. Surrounding white space in the submitted code is ignored: with
    white space before and after it, the code gives the same result and
    the same state. *)
Theorem verify_ignores_surrounding_whitespace s k code ws ws' now now' :
  allWhiteSpace ws -> allWhiteSpace ws' ->
  verify toUpperCase k (ws ++ code ++ ws') now now' s
  = verify toUpperCase k code now now' s.
Proof. intros Hws Hws'. unfold verify. by rewrite trim_pad. Qed.

(** ** Requests do not interfere *)

(** X5. An operation that neither performs a terminal transition for
    the id [k] nor is a wait on [k] leaves the registration of [k] as it
    is: same table entry, same armed timer, same request object, and the
    waiter is not answered. *)
Theorem other_operations_leave_registration s op k e :
  reachable toUpperCase config s ->
  pending s !! k = Some e ->
  performs toUpperCase k op s = false ->
  waitsOn k op s = false ->
  let s' := step toUpperCase config op s in
  pending s' !! k = Some e
  /\ timers s' !! timer e = timers s !! timer e
  /\ is_Some (timers s' !! timer e)
  /\ heap s' !! request e = heap s !! request e
  /\ calls s' (resolve e) = [].
Proof.
  intros Hs Hk Hp Hw s'. apply reachable_Inv in Hs as HI.
  destruct (entry_task _ _ _ HI Hk) as (r & d & Hr & Hid & Ht).
  destruct (inv_timer _ HI _ _ Ht) as (_ & _ & _ & Hc). simpl in Hc.
  pose proof (step_Change toUpperCase config op s HI) as Hch. fold s' in Hch.
  pose proof (pending_step toUpperCase k op s s' Hch Hw Hp) as Hpend.
  rewrite Hpend. split; [done|].
  destruct Hch
    as [-> _
       |r0 Hrefs Hfresh Hst Hheap Hpend' Htim Hlog _
       |l now r0 -> Hl Hheap Hpend' Htim Hlog
       |l now r0 d0 -> Hl Hheap Hpend' Htim Hlog
       |t0 task0 r0 st b f Hrefs Ht0 Hr0 Hst Hf Hheap Hpend' Htim Hlog Hperf].
  - split_and!; try done; by eexists.
  - rewrite Htim, Hheap, (calls_log s' s) by done.
    rewrite lookup_insert_ne by congruence.
    split_and!; try done; by eexists.
  - rewrite Htim, Hheap, (calls_log s' s) by done.
    assert (Hne : l <> request e).
    { intros ->. simpl in Hw. rewrite Hr in Hw.
      by apply bool_decide_eq_false in Hw. }
    rewrite lookup_alter_ne by done.
    split_and!; try done; by eexists.
  - rewrite Htim, Hheap, (calls_log s' s) by done.
    assert (Hne : nextTimer s <> timer e).
    { destruct (inv_timer _ HI _ _ Ht). lia. }
    rewrite lookup_insert_ne by done. split_and!; try done; by eexists.
  - rewrite Hperf in Hp. apply bool_decide_eq_false in Hp.
    assert (Hreq : task_request task0 <> request e).
    { intros Heq. rewrite Heq, Hr in Hr0. congruence. }
    assert (Hne : t0 <> timer e).
    { intros ->. rewrite Ht in Ht0. injection Ht0 as <-. by apply Hreq. }
    rewrite Htim, Hheap, lookup_delete_ne, lookup_alter_ne by done.
    assert (Hres : task_resolve task0 <> resolve e).
    { intros Heq. apply Hne. by eapply (inv_resolver _ HI). }
    split_and!; try done; try (by eexists).
    unfold calls. rewrite Hlog, filter_cons_False by done. exact Hc.
Qed.

(** ** Inspection *)

(** X6. In every execution, [getRequest(id)] returns a request whose
    [id] field is the id asked for; it returns a request exactly when
    [cancel(id)] would return true, and null exactly when [verify] on
    that id fails with [Request not found or expired]. *)
Theorem getRequest_matches_cancel_and_verify s k :
  reachable toUpperCase config s ->
  (forall l, getRequest k s = Some l ->
     exists r, heap s !! l = Some r /\ id r = k)
  /\ (is_Some (getRequest k s) <-> (cancel k s).1 = true)
  /\ (forall code now now',
        getRequest k s = None <->
        error (verify toUpperCase k code now now' s).1
        = Some "Request not found or expired"%string).
Proof.
  intros Hs. apply reachable_Inv in Hs as HI.
  unfold getRequest, cancel, verify.
  destruct (pending s !! k) as [e|] eqn:Hk; simpl.
  - destruct (entry_task _ _ _ HI Hk) as (r & d & Hr & Hid & Ht).
    split_and!.
    + intros l [= <-]. by exists r.
    + split; [done|]. by eexists.
    + intros code now now'. rewrite Hr.
      destruct (now >? expiresAtMs r); simpl; [done|].
      by case_bool_decide.
  - split_and!; done.
Qed.

(** ** Registering and cancelling *)

(** X7. Round trip. Waiting on a request whose deadline is ahead and
    whose id has no table entry registers it: [getRequest] returns it
    and the pending count grows by one. A [cancel] of the id then
    succeeds and puts the table and the set of armed timers back as they
    were; the request is cancelled and the waiter receives false. *)
Theorem wait_then_cancel_restores_table s l r now :
  reachable toUpperCase config s ->
  heap s !! l = Some r -> now < expiresAtMs r ->
  pending s !! id r = None ->
  let s1 := (waitForVerification l now s).2 in
  let s2 := (cancel (id r) s1).2 in
  (waitForVerification l now s).1 = Suspended (nextPromise s)
  /\ getRequest (id r) s1 = Some l
  /\ getPendingCount s1 = S (getPendingCount s)
  /\ (cancel (id r) s1).1 = true
  /\ pending s2 = pending s /\ timers s2 = timers s
  /\ getPendingCount s2 = getPendingCount s
  /\ statusOf s2 l = Some Cancelled
  /\ calls s2 (nextPromise s) = [false].
Proof.
  intros Hs Hl Hnow Hk. apply reachable_Inv in Hs as HI.
  assert (Ht : timers s !! nextTimer s = None).
  { destruct (timers s !! nextTimer s) as [task|] eqn:Ht; [|done].
    destruct (inv_timer _ HI _ _ Ht). lia. }
  unfold waitForVerification. rewrite Hl.
  destruct (expiresAtMs r - now <=? 0) eqn:Hle; [lia|]. simpl.
  unfold cancel, getRequest, getPendingCount. simpl.
  rewrite lookup_insert_eq. simpl.
  rewrite !delete_insert_id by done.
  split_and!; try done.
  - by apply map_size_insert_None.
  - unfold statusOf. simpl. rewrite lookup_alter, decide_True by done.
    by rewrite Hl.
  - rewrite calls_callResolve_same, (calls_log _ s) by done.
    by rewrite (calls_fresh s _ (inv_log _ HI)).
Qed.

(** ** Timers and table entries *)

Lemma soleWaiter_any_step op s :
  Inv s -> (forall k, soleWaiter s k) ->
  match op with
  | OpWait l now =>
      forall r, heap s !! l = Some r ->
        expiresAtMs r <= now \/ pending s !! id r = None
  | _ => True
  end ->
  forall k, soleWaiter (step toUpperCase config op s) k.
Proof.
  intros HI Hsole Hfresh k.
  pose proof (step_Change toUpperCase config op s HI) as Hch.
  destruct (waitsOn k op s) eqn:Hw.
  - destruct op as [| l now | | |]; try done. simpl in Hw.
    destruct (heap s !! l) as [r|] eqn:Hl; [|done].
    apply bool_decide_eq_true in Hw. subst k.
    specialize (Hfresh r eq_refl).
    simpl. unfold waitForVerification. rewrite Hl.
    destruct (expiresAtMs r - now <=? 0) eqn:Hle.
    + intros t (task & r' & Ht & Hr' & Hid). simpl in *.
      apply (Hsole (id r) t). exists task.
      rewrite lookup_alter in Hr'. case_decide as Hd.
      * rewrite Hd in Hr'.
        destruct (heap s !! task_request task) as [x|] eqn:Hx; [|done].
        injection Hr' as <-. by exists x.
      * by exists r'.
    + destruct Hfresh as [Hpast|Hnone]; [lia|].
      intros t (task & r' & Ht & Hr' & Hid). simpl in *.
      apply lookup_insert_Some in Ht as [[<- <-]|[Hne Ht]].
      * eexists. by rewrite lookup_insert_eq.
      * destruct (Hsole (id r) t) as (e & He & _); [by exists task, r'|].
        congruence.
  - destruct (performs toUpperCase k op s) eqn:Hp.
    + destruct (soleWaiter_performs toUpperCase k op s _ HI (Hsole k) Hch Hp)
        as (e & b & _ & _ & _ & _ & _ & _ & Hq).
      by apply quiet_soleWaiter.
    + by eapply soleWaiter_step.
Qed.

Lemma soleWaiter_any_run ops : forall s,
  Inv s -> (forall k, soleWaiter s k) ->
  waitsFresh toUpperCase config ops s ->
  forall k, soleWaiter (run toUpperCase config ops s) k.
Proof.
  induction ops as [|op ops IH]; intros s HI Hsole; simpl; [done|].
  intros [Hfresh Hrest]. apply IH; [by apply Inv_step| |done].
  by apply soleWaiter_any_step.
Qed.

(** X8. No timer is left behind. In an execution in which every call
    of [waitForVerification] is on a request whose deadline has passed
    or whose id has no table entry, every armed timer is the timer of
    the table entry of its request, and that entry holds the request
    and the resolver of the timer. *)
Theorem fresh_waits_leave_no_stray_timer ops t task :
  waitsFresh toUpperCase config ops init ->
  timers (run toUpperCase config ops init) !! t = Some task ->
  exists r e,
    heap (run toUpperCase config ops init) !! task_request task = Some r
    /\ pending (run toUpperCase config ops init) !! id r = Some e
    /\ timer e = t /\ request e = task_request task
    /\ resolve e = task_resolve task.
Proof.
  intros Hfresh Ht.
  pose proof (Inv_run toUpperCase config ops init Inv_init) as HI.
  destruct (inv_timer _ HI _ _ Ht) as (_ & _ & [r Hr] & _).
  destruct (soleWaiter_any_run ops init Inv_init) with (k := id r) (t := t)
    as (e & He & Hte); try done.
  - intros k t' (task' & ? & Ht' & _). simpl in Ht'.
    by rewrite lookup_empty in Ht'.
  - by exists task, r.
  - exists r, e. split_and!; try done.
    + destruct (entry_task _ _ _ HI He) as (r' & d & _ & _ & Ht').
      rewrite Hte, Ht in Ht'. by injection Ht' as ->.
    + destruct (entry_task _ _ _ HI He) as (r' & d & _ & _ & Ht').
      rewrite Hte, Ht in Ht'. by injection Ht' as ->.
Qed.

(** X9. What [getRequest] can return. In an execution in which
    [waitForVerification] is called at most once on each request, a
    request returned by [getRequest(id)] has the id asked for and the
    status pending: a resolved request is never returned. *)
Theorem getRequest_returns_pending_requests ops k l :
  NoDup (waitRefs ops) ->
  getRequest k (run toUpperCase config ops init) = Some l ->
  exists r,
    heap (run toUpperCase config ops init) !! l = Some r
    /\ id r = k /\ status r = Pending.
Proof.
  intros Hnd Hget.
  pose proof (Inv_run toUpperCase config ops init Inv_init) as HI.
  destruct (once_run toUpperCase config ops init [] Inv_init WaitedOnce_init
              Hnd) as ((W & HW & _) & _).
  { intros l' _. apply not_elem_of_nil. }
  unfold getRequest in Hget.
  destruct (pending (run toUpperCase config ops init) !! k) as [e|] eqn:He;
    [|done].
  injection Hget as <-.
  destruct (entry_task _ _ _ HI He) as (r & d & Hr & Hid & Ht).
  destruct (once_timer _ _ HW _ _ Ht) as [_ Hst]. simpl in Hst.
  exists r. split_and!; try done.
  unfold statusOf in Hst. rewrite Hr in Hst. by injection Hst.
Qed.

(** ** Creating and then waiting *)

(** X10. A request created at [now] and waited on at [now'], not before
    [now], with times and a timeout that JavaScript numbers represent
    exactly and a timeout of at most 2147483647 ms in absolute value
    (the largest delay that [setTimeout] arms as asked). The deadline
    is [now] plus the timeout. When less than the timeout has elapsed,
    the wait suspends, the request can be found by its id, and the
    delay handed to [setTimeout] is the time that remains, which lies
    between 1 ms and the timeout, hence in the range in which the timer
    is armed for the delay it is given. Otherwise (in particular with a
    timeout that is zero or negative) the wait returns false at once,
    the request is expired and nothing is registered. *)
Theorem create_then_wait s now uuid randomBytes payload now' :
  let timeoutMs :=
    default DEFAULT_TIMEOUT_SECONDS (timeoutSeconds config) * 1000 in
  0 <= now <= now' ->
  now' <= MAX_SAFE_INTEGER - TIMEOUT_MAX ->
  - TIMEOUT_MAX <= timeoutMs <= TIMEOUT_MAX ->
  let c := create config now uuid randomBytes payload s in
  let w := waitForVerification c.1 now' c.2 in
  (exists r, heap c.2 !! c.1 = Some r
             /\ expiresAtMs r = now + timeoutMs
             /\ - MAX_SAFE_INTEGER <= expiresAtMs r <= MAX_SAFE_INTEGER)
  /\ (now' - now < timeoutMs ->
      w.1 = Suspended (nextPromise s)
      /\ getRequest uuid w.2 = Some c.1
      /\ statusOf w.2 c.1 = Some Pending
      /\ exists task,
           timers w.2 !! nextTimer s = Some task
           /\ task_request task = c.1
           /\ task_delay task = timeoutMs - (now' - now)
           /\ 1 <= task_delay task <= timeoutMs
           /\ task_delay task <= TIMEOUT_MAX)
  /\ (timeoutMs <= now' - now ->
      w.1 = Settled false /\ statusOf w.2 c.1 = Some Expired
      /\ pending w.2 = pending s /\ timers w.2 = timers s).
Proof.
  intros timeoutMs Hnow Hsafe Hmax c w. subst c w. simpl.
  unfold waitForVerification. simpl. rewrite lookup_insert_eq. simpl.
  fold timeoutMs. unfold MAX_SAFE_INTEGER, TIMEOUT_MAX in *. split_and!.
  - eexists. split; [done|]. simpl. fold timeoutMs. lia.
  - intros Hlt. destruct (now + timeoutMs - now' <=? 0) eqn:Hle; [lia|].
    simpl. unfold getRequest, statusOf. simpl.
    rewrite !lookup_insert_eq. simpl. split_and!; try done.
    eexists. split_and!; try done; simpl; lia.
  - intros Hge. destruct (now + timeoutMs - now' <=? 0) eqn:Hle; [|lia].
    simpl. unfold statusOf. simpl.
    rewrite lookup_alter, decide_True, lookup_insert_eq by done. done.
Qed.

(** ** The mock code *)

(** X11. In mock mode the stored code is never empty and carries no
    white space around it: it is its own trimmed form; a configured code
    made of white space only gives [123456]. *)
Theorem mock_code_trimmed_and_not_empty c :
  mockCode config = Some c ->
  c <> [] /\ trim c = c
  /\ (forall now uuid randomBytes payload s,
        verificationCode
          <$> heap (create config now uuid randomBytes payload s).2
              !! (create config now uuid randomBytes payload s).1
        = Some c)
  /\ (forall m raw, mock config = Some m -> mock_code m = Some raw ->
        allWhiteSpace raw -> c = js "123456").
Proof.
  unfold mockCode. intros Hc.
  assert (Hshape : c <> [] /\ trim c = c).
  { destruct (mock config) as [m|]; [|done].
    destruct (mock_enabled m) as [[|]|]; try done.
    destruct (mock_code m) as [raw|]; simpl in Hc.
    - destruct (truthy (trim raw)) eqn:Htr; injection Hc as <-.
      + split; [by destruct (trim raw)|apply trim_idem].
      + done.
    - by injection Hc as <-. }
  destruct Hshape as [Hne Htrim]. split_and!; try done.
  - intros now uuid rb payload s. simpl. rewrite lookup_insert_eq. simpl.
    unfold mockCode. by rewrite Hc.
  - intros m raw Hm Hraw Hws. rewrite Hm, Hraw in Hc. simpl in Hc.
    rewrite (trim_allWhiteSpace raw Hws) in Hc.
    destruct (mock_enabled m) as [[|]|]; try done. by injection Hc.
Qed.

End Executions.

Lemma waiter_answered_once_or_timer_armed_witness :
  (0 < nextPromise Scenario.waiting)%nat
  /\ ((calls Scenario.waiting 0%nat = []
       /\ exists t task,
            timers Scenario.waiting !! t = Some task
            /\ task_resolve task = 0%nat
            /\ calls (onTimeout t Scenario.waiting) 0%nat = [false])
      \/ ((exists b, calls Scenario.waiting 0%nat = [b])
          /\ forall t task,
               timers Scenario.waiting !! t = Some task ->
               task_resolve task <> 0%nat)).
Proof.
  assert (H : (0 < nextPromise Scenario.waiting)%nat) by (vm_compute; lia).
  split; [exact H|].
  exact (waiter_answered_once_or_timer_armed asciiToUpperCase
           Scenario.mockConfig Scenario.waiting 0%nat waiting_reachable H).
Defined.

Lemma true_outcome_comes_from_matching_verify_witness :
  outcome (run asciiToUpperCase Scenario.mockConfig Scenario.opsVerified init)
    0%nat = Some true
  /\ exists ops1 k code now now' ops2 e r,
       Scenario.opsVerified = ops1 ++ OpVerify k code now now' :: ops2
       /\ pending (run asciiToUpperCase Scenario.mockConfig ops1 init) !! k
          = Some e
       /\ resolve e = 0%nat
       /\ heap (run asciiToUpperCase Scenario.mockConfig ops1 init)
            !! request e = Some r
       /\ now <= expiresAtMs r
       /\ asciiToUpperCase (trim code)
          = asciiToUpperCase (trim (verificationCode r)).
Proof.
  assert (H : outcome (run asciiToUpperCase Scenario.mockConfig
                         Scenario.opsVerified init) 0%nat = Some true)
    by (vm_compute; reflexivity).
  split; [exact H|].
  exact (true_outcome_comes_from_matching_verify asciiToUpperCase
           Scenario.mockConfig Scenario.opsVerified 0%nat H).
Defined.

Lemma verify_ignores_surrounding_whitespace_witness :
  allWhiteSpace (js " ") /\ allWhiteSpace [9%N; 160%N]
  /\ verify asciiToUpperCase Scenario.uuid
       (js " " ++ js "123456" ++ [9%N; 160%N]) 2000 2001 Scenario.waiting
     = verify asciiToUpperCase Scenario.uuid (js "123456") 2000 2001
         Scenario.waiting.
Proof.
  assert (H1 : allWhiteSpace (js " ")) by (repeat constructor).
  assert (H2 : allWhiteSpace [9%N; 160%N]) by (repeat constructor).
  split; [exact H1|]. split; [exact H2|].
  exact (verify_ignores_surrounding_whitespace asciiToUpperCase
           Scenario.waiting Scenario.uuid (js "123456") _ _ 2000 2001 H1 H2).
Defined.

Lemma other_operations_leave_registration_witness :
  pending Scenario.waiting !! Scenario.uuid = Some Scenario.entry0
  /\ performs asciiToUpperCase Scenario.uuid (OpCancel (js "req-2"))
       Scenario.waiting = false
  /\ waitsOn Scenario.uuid (OpCancel (js "req-2")) Scenario.waiting = false
  /\ pending (step asciiToUpperCase Scenario.mockConfig
                (OpCancel (js "req-2")) Scenario.waiting) !! Scenario.uuid
     = Some Scenario.entry0.
Proof.
  assert (H1 : pending Scenario.waiting !! Scenario.uuid = Some Scenario.entry0)
    by (vm_compute; reflexivity).
  assert (H2 : performs asciiToUpperCase Scenario.uuid (OpCancel (js "req-2"))
                 Scenario.waiting = false) by (vm_compute; reflexivity).
  assert (H3 : waitsOn Scenario.uuid (OpCancel (js "req-2")) Scenario.waiting
               = false) by reflexivity.
  split; [exact H1|]. split; [exact H2|]. split; [exact H3|].
  exact (proj1 (other_operations_leave_registration asciiToUpperCase
                  Scenario.mockConfig Scenario.waiting (OpCancel (js "req-2"))
                  Scenario.uuid Scenario.entry0 waiting_reachable H1 H2 H3)).
Defined.

Lemma getRequest_matches_cancel_and_verify_witness :
  reachable asciiToUpperCase Scenario.mockConfig Scenario.waiting
  /\ (is_Some (getRequest Scenario.uuid Scenario.waiting)
      <-> (cancel Scenario.uuid Scenario.waiting).1 = true).
Proof.
  split; [exact waiting_reachable|].
  exact (proj1 (proj2 (getRequest_matches_cancel_and_verify asciiToUpperCase
                         Scenario.mockConfig Scenario.waiting Scenario.uuid
                         waiting_reachable))).
Defined.

Lemma created_reachable :
  reachable asciiToUpperCase Scenario.mockConfig Scenario.created.
Proof. apply (reachable_run _ _ Scenario.opsCreated), reachable_init. Qed.

Lemma wait_then_cancel_restores_table_witness :
  heap Scenario.created !! 0%nat = Some Scenario.request0
  /\ 1000 < expiresAtMs Scenario.request0
  /\ pending Scenario.created !! id Scenario.request0 = None
  /\ pending (cancel (id Scenario.request0)
                (waitForVerification 0%nat 1000 Scenario.created).2).2
     = pending Scenario.created.
Proof.
  assert (H1 : heap Scenario.created !! 0%nat = Some Scenario.request0)
    by (vm_compute; reflexivity).
  assert (H2 : 1000 < expiresAtMs Scenario.request0) by (simpl; lia).
  assert (H3 : pending Scenario.created !! id Scenario.request0 = None)
    by (vm_compute; reflexivity).
  destruct (wait_then_cancel_restores_table asciiToUpperCase
              Scenario.mockConfig Scenario.created 0%nat Scenario.request0
              1000 created_reachable H1 H2 H3)
    as (_ & _ & _ & _ & Hp & _).
  split; [exact H1|]. split; [exact H2|]. split; [exact H3|]. exact Hp.
Defined.

Lemma opsWaiting_fresh :
  waitsFresh asciiToUpperCase Scenario.mockConfig Scenario.opsWaiting init.
Proof.
  cbn [waitsFresh Scenario.opsWaiting Scenario.opsCreated app].
  split; [done|]. split; [|done]. intros r _. right.
  assert (H : pending (step asciiToUpperCase Scenario.mockConfig
                         (OpCreate 1000 Scenario.uuid [] Scenario.payload)
                         init) = ∅) by reflexivity.
  rewrite H. apply lookup_empty.
Qed.

Lemma fresh_waits_leave_no_stray_timer_witness :
  waitsFresh asciiToUpperCase Scenario.mockConfig Scenario.opsWaiting init
  /\ timers (run asciiToUpperCase Scenario.mockConfig Scenario.opsWaiting init)
       !! 0%nat
     = Some {| task_request := 0%nat; task_resolve := 0%nat;
               task_delay := 300000 |}
  /\ exists r e,
       heap (run asciiToUpperCase Scenario.mockConfig Scenario.opsWaiting init)
         !! 0%nat = Some r
       /\ pending (run asciiToUpperCase Scenario.mockConfig
                     Scenario.opsWaiting init) !! id r = Some e
       /\ timer e = 0%nat /\ request e = 0%nat /\ resolve e = 0%nat.
Proof.
  assert (H : timers (run asciiToUpperCase Scenario.mockConfig
                        Scenario.opsWaiting init) !! 0%nat
              = Some {| task_request := 0%nat; task_resolve := 0%nat;
                        task_delay := 300000 |})
    by (vm_compute; reflexivity).
  split; [exact opsWaiting_fresh|]. split; [exact H|].
  exact (fresh_waits_leave_no_stray_timer asciiToUpperCase Scenario.mockConfig
           Scenario.opsWaiting 0%nat _ opsWaiting_fresh H).
Defined.

Lemma getRequest_returns_pending_requests_witness :
  NoDup (waitRefs Scenario.opsWaiting)
  /\ getRequest Scenario.uuid
       (run asciiToUpperCase Scenario.mockConfig Scenario.opsWaiting init)
     = Some 0%nat
  /\ exists r,
       heap (run asciiToUpperCase Scenario.mockConfig Scenario.opsWaiting init)
         !! 0%nat = Some r
       /\ id r = Scenario.uuid /\ status r = Pending.
Proof.
  assert (H1 : NoDup (waitRefs Scenario.opsWaiting))
    by (apply (bool_decide_unpack _); vm_compute; exact I).
  assert (H2 : getRequest Scenario.uuid
                 (run asciiToUpperCase Scenario.mockConfig
                    Scenario.opsWaiting init) = Some 0%nat)
    by (vm_compute; reflexivity).
  split; [exact H1|]. split; [exact H2|].
  exact (getRequest_returns_pending_requests asciiToUpperCase
           Scenario.mockConfig Scenario.opsWaiting Scenario.uuid 0%nat H1 H2).
Defined.

Lemma create_then_wait_witness :
  (waitForVerification
     (create Scenario.mockConfig 1000 Scenario.uuid [] Scenario.payload
        init).1 1500
     (create Scenario.mockConfig 1000 Scenario.uuid [] Scenario.payload
        init).2).1
  = Suspended 0%nat.
Proof.
  refine (proj1 (proj1 (proj2 (create_then_wait Scenario.mockConfig init 1000
                                 Scenario.uuid [] Scenario.payload 1500
                                 _ _ _)) _)).
  - lia.
  - unfold MAX_SAFE_INTEGER, TIMEOUT_MAX. lia.
  - unfold TIMEOUT_MAX. simpl. lia.
  - simpl. lia.
Defined.

Lemma mock_code_trimmed_and_not_empty_witness :
  mockCode Scenario.mockConfig = Some (js "123456")
  /\ js "123456" <> [] /\ trim (js "123456") = js "123456".
Proof.
  assert (H : mockCode Scenario.mockConfig = Some (js "123456"))
    by (vm_compute; reflexivity).
  destruct (mock_code_trimmed_and_not_empty Scenario.mockConfig _ H)
    as (H1 & H2 & _).
  split; [exact H|]. split; [exact H1|exact H2].
Defined.

End ManagerFurther.

(* ===================================================================== *)
(** * Further properties of the code generator *)
(* ===================================================================== *)

Module CodeGenFurther.
Import CodeGen Further.

Lemma loop_concat randomBytes n : forall i code,
  loop randomBytes i n code
  = code ++ concat (map (fun j => charAt (index randomBytes j)) (seq i n)).
Proof.
  induction n as [|n IH]; intros i code; simpl.
  - by rewrite app_nil_r.
  - by rewrite IH, <- app_assoc.
Qed.

Lemma charAt_index_charFor randomBytes i b :
  randomBytes !! i = Some b -> charAt (index randomBytes i) = [charFor b].
Proof.
  intros Hb. unfold index, charFor. rewrite Hb. unfold charAt.
  change (length chars) with 32%nat.
  destruct (lookup_lt_is_Some_2 chars (N.to_nat (Byte.to_N b) mod 32))
    as [c Hc].
  - change (length chars) with 32%nat. by apply Nat.mod_upper_bound.
  - by rewrite Hc.
Qed.

Lemma chars_of_bytes pre randomBytes :
  concat (map (fun j => charAt (index (pre ++ randomBytes) j))
            (seq (length pre) (length randomBytes)))
  = map charFor randomBytes.
Proof.
  revert pre. induction randomBytes as [|b rest IH]; intros pre; [done|].
  simpl. rewrite (charAt_index_charFor _ _ b).
  - simpl. f_equal. specialize (IH (pre ++ [b])).
    rewrite length_app, Nat.add_1_r, <- app_assoc in IH. exact IH.
  - by rewrite lookup_app_r, Nat.sub_diag.
Qed.

(** X12. The generator works byte by byte: from a buffer of the
    requested length, the i-th character of the code is the character of
    the alphabet at position (i-th byte mod 32), and bytes beyond the
    requested length are not read. The 32 characters of the alphabet are
    distinct and each is written for exactly 8 of the 256 byte values, so
    that the reduction modulo 32 introduces no bias. *)
Theorem generator_bytewise_and_unbiased :
  (forall randomBytes,
      generateVerificationCode (length randomBytes) randomBytes
      = map charFor randomBytes)
  /\ (forall randomBytes extra,
        generateVerificationCode (length randomBytes) (randomBytes ++ extra)
        = generateVerificationCode (length randomBytes) randomBytes)
  /\ NoDup chars
  /\ (forall b, b ∈ allBytes) /\ NoDup allBytes
  /\ Forall (fun c => length (filter (fun b => charFor b = c) allBytes) = 8%nat)
       chars.
Proof.
  assert (Hgen : forall randomBytes extra,
             generateVerificationCode (length randomBytes)
               (randomBytes ++ extra) = map charFor randomBytes).
  { intros rb extra. unfold generateVerificationCode.
    rewrite loop_concat. simpl. rewrite <- (chars_of_bytes [] rb). simpl.
    f_equal. apply map_ext_in. intros j Hj. apply in_seq in Hj.
    unfold index. by rewrite lookup_app_l by lia. }
  split_and!.
  - intros rb. by rewrite <- (Hgen rb []), app_nil_r.
  - intros rb extra. by rewrite Hgen, <- (Hgen rb []), app_nil_r.
  - apply (bool_decide_unpack _). vm_compute. exact I.
  - intros b. apply list_elem_of_lookup_2 with (N.to_nat (Byte.to_N b)).
    by destruct b.
  - apply (NoDup_fmap_1 Byte.to_N).
    apply (bool_decide_unpack _). vm_compute. exact I.
  - apply (bool_decide_unpack _). vm_compute. exact I.
Qed.

End CodeGenFurther.

(* ===================================================================== *)
(** * Properties of the challenge URL *)
(* ===================================================================== *)

Module UrlFacts.
Import StringOps TwoFactor AuthUrl.

(** ** [startsWith], [indexOf], [includes] *)

Lemma startsWith_app needle rest : startsWith needle (needle ++ rest) = true.
Proof. induction needle as [|c n IH]; simpl; [done|]. by rewrite N.eqb_refl. Qed.

Lemma indexOfFrom_here needle s pos :
  startsWith needle s = true -> indexOfFrom needle s pos = Some pos.
Proof. intros H. destruct s; simpl; by rewrite H. Qed.

Lemma indexOfFrom_first c needle pre rest pos :
  c ∉ pre ->
  indexOfFrom (c :: needle) (pre ++ (c :: needle) ++ rest) pos
  = Some (pos + length pre)%nat.
Proof.
  revert pos. induction pre as [|d pre IH]; intros pos Hpre.
  - rewrite app_nil_l, indexOfFrom_here by apply startsWith_app.
    simpl. f_equal. lia.
  - apply not_elem_of_cons in Hpre as [Hc Hpre].
    rewrite <- app_comm_cons.
    change (indexOfFrom (c :: needle) (d :: pre ++ (c :: needle) ++ rest) pos)
      with (if (c =? d)%N && startsWith needle (pre ++ (c :: needle) ++ rest)
            then Some pos
            else indexOfFrom (c :: needle) (pre ++ (c :: needle) ++ rest) (S pos)).
    destruct (N.eqb_spec c d) as [->|_]; [done|]. simpl andb. cbv iota.
    rewrite IH by done. simpl. f_equal. lia.
Qed.

Lemma indexOfFrom_placeholder pre rest pos :
  123%N ∉ pre ->
  indexOfFrom (js "{requestId}") (pre ++ js "{requestId}" ++ rest) pos
  = Some (pos + length pre)%nat.
Proof.
  change (js "{requestId}") with (123%N :: js "requestId}").
  apply indexOfFrom_first.
Qed.

Lemma includes_placeholder pre rest :
  123%N ∉ pre -> includes (js "{requestId}") (pre ++ js "{requestId}" ++ rest) = true.
Proof.
  intros Hpre. unfold includes, indexOf.
  rewrite indexOfFrom_placeholder by done. by apply bool_decide_eq_true_2.
Qed.

Lemma indexOfFrom_char c s pos : is_Some (indexOfFrom [c] s pos) <-> c ∈ s.
Proof.
  revert pos. induction s as [|d s IH]; intros pos; simpl.
  - split; [by intros [? ?] | by intros ?%elem_of_nil].
  - destruct (N.eqb_spec c d) as [->|Hcd]; simpl.
    + split; [intros _; apply list_elem_of_here | by eexists].
    + rewrite IH. rewrite elem_of_cons. clear -Hcd. tauto.
Qed.

Lemma includes_char c s : includes [c] s = bool_decide (c ∈ s).
Proof. apply bool_decide_ext, indexOfFrom_char. Qed.

(** ** [replace] *)

Lemma getSubstitution_app matched before after plain template :
  36%N ∉ plain ->
  getSubstitution matched before after (plain ++ template)
  = plain ++ getSubstitution matched before after template.
Proof.
  induction plain as [|c t IH]; [done|].
  intros [Hc Ht]%not_elem_of_cons. simpl.
  destruct (N.eqb_spec c 36); [congruence|]. by rewrite IH.
Qed.

Lemma getSubstitution_plain matched before after plain :
  36%N ∉ plain -> getSubstitution matched before after plain = plain.
Proof.
  intros H. rewrite <- (app_nil_r plain) at 1.
  rewrite getSubstitution_app by done. simpl. by rewrite app_nil_r.
Qed.

Lemma getSubstitution_dollar matched before after x c y :
  36%N ∉ x -> 36%N ∉ y ->
  getSubstitution matched before after (x ++ 36%N :: c :: y)
  = x ++ (if (c =? 36)%N then [36%N]
          else if (c =? 96)%N then before
          else if (c =? 38)%N then matched
          else if (c =? 39)%N then after
          else [36%N; c]) ++ y.
Proof.
  intros Hx Hy. rewrite getSubstitution_app by done. f_equal.
  assert (Hc : c = 36%N \/ 36%N ∉ c :: y).
  { destruct (N.eqb_spec c 36) as [->|Hc]; [by left|right].
    apply not_elem_of_cons. split; [congruence|done]. }
  simpl. rewrite !(getSubstitution_plain _ _ _ y) by done.
  destruct (c =? 36)%N eqn:E36; [done|].
  destruct (c =? 96)%N; [done|].
  destruct (c =? 38)%N; [done|].
  destruct (c =? 39)%N; [done|].
  destruct Hc as [->|Hc]; [done|].
  by rewrite ?(getSubstitution_plain _ _ _ (c :: y)).
Qed.

Lemma replace_placeholder pre post replacement :
  123%N ∉ pre ->
  replace (js "{requestId}") replacement (pre ++ js "{requestId}" ++ post)
  = pre ++ getSubstitution (js "{requestId}") pre post replacement ++ post.
Proof.
  intros Hpre. unfold replace, indexOf.
  rewrite indexOfFrom_placeholder by done. cbv beta iota zeta.
  rewrite Nat.add_0_l, take_app_length, <- drop_drop, drop_app_length.
  by rewrite drop_app_length.
Qed.

(** ** Removal of one trailing slash *)

Lemma stripTrailingSlash_slash base : stripTrailingSlash (base ++ js "/") = base.
Proof.
  unfold stripTrailingSlash. change (js "/") with [47%N].
  rewrite rev_app_distr. simpl. apply rev_involutive.
Qed.

Lemma stripTrailingSlash_other s :
  last s <> Some 47%N -> stripTrailingSlash s = s.
Proof.
  intros H. unfold stripTrailingSlash.
  destruct (rev s) as [|c r] eqn:Hr; [done|].
  destruct (N.eqb_spec c 47) as [->|]; [|done].
  apply (f_equal (@rev N)) in Hr. rewrite rev_involutive in Hr. subst s.
  simpl in H. by rewrite last_snoc in H.
Qed.

(** ** [encodeURIComponent] *)

Lemma hexDigit_unreserved n : (n < 16)%N -> isUnreserved (hexDigit n) = true.
Proof.
  intros Hn. unfold hexDigit, isUnreserved.
  rewrite !orb_true_iff, !andb_true_iff, !N.leb_le, !N.eqb_eq.
  destruct (N.ltb_spec n 10); lia.
Qed.

Lemma percent_alphabet octet :
  (octet < 256)%N ->
  Forall (fun c => isUnreserved c = true \/ c = 37%N) (percent octet).
Proof.
  intros Ho. unfold percent.
  apply Forall_cons; split; [by right|].
  apply Forall_cons; split; [left; apply hexDigit_unreserved; div_lia|].
  apply Forall_cons; split; [left; apply hexDigit_unreserved; div_lia|].
  constructor.
Qed.

Lemma utf8_octets cp :
  (cp < 1114112)%N -> Forall (fun octet => (octet < 256)%N) (utf8 cp).
Proof.
  intros Hcp. unfold utf8.
  destruct (N.ltb_spec cp 128); [repeat constructor; div_lia|].
  destruct (N.ltb_spec cp 2048); [repeat constructor; div_lia|].
  destruct (N.ltb_spec cp 65536); repeat constructor; div_lia.
Qed.

Lemma escape_alphabet cp :
  (cp < 1114112)%N ->
  Forall (fun c => isUnreserved c = true \/ c = 37%N) (escape cp).
Proof.
  intros Hcp. unfold escape. apply Forall_concat, Forall_fmap.
  eapply Forall_impl; [by apply utf8_octets|].
  intros octet Ho. by apply percent_alphabet.
Qed.

Lemma encodeURIComponent_alphabet n : forall s out,
  (length s <= n)%nat ->
  Forall (fun c => (c < 65536)%N) s ->
  encodeURIComponent s = Some out ->
  Forall (fun c => isUnreserved c = true \/ c = 37%N) out.
Proof.
  induction n as [|n IH]; intros [|c rest] out Hlen Hs; simpl in Hlen;
    try lia; try (by intros [= <-]).
  apply Forall_cons in Hs as [Hc Hs]. simpl.
  destruct (isUnreserved c) eqn:Hu.
  { destruct (encodeURIComponent rest) as [out'|] eqn:Hrest; [|done].
    intros [= <-]. constructor; [by left|].
    apply (IH rest); [lia|done|done]. }
  destruct (isLeadSurrogate c) eqn:Hlead.
  { destruct rest as [|c2 rest']; [done|].
    destruct (isTrailSurrogate c2) eqn:Htrail; [|done].
    destruct (encodeURIComponent rest') as [out'|] eqn:Hrest; [|done].
    intros [= <-]. apply Forall_cons in Hs as [Hc2 Hs]. apply Forall_app. split.
    - apply escape_alphabet.
      unfold isLeadSurrogate, isTrailSurrogate in *.
      apply andb_true_iff in Hlead as [_ ?%N.leb_le].
      apply andb_true_iff in Htrail as [_ ?%N.leb_le]. lia.
    - apply (IH rest'); [simpl in Hlen; lia|done|done]. }
  destruct (isTrailSurrogate c); [done|].
  destruct (encodeURIComponent rest) as [out'|] eqn:Hrest; [|done].
  intros [= <-]. apply Forall_app. split.
  - apply escape_alphabet. lia.
  - apply (IH rest); [lia|done|done].
Qed.

Lemma encodeURIComponent_unreserved s :
  Forall (fun c => isUnreserved c = true) s -> encodeURIComponent s = Some s.
Proof.
  induction 1 as [|c s Hc _ IH]; [done|]. simpl. by rewrite Hc, IH.
Qed.

Lemma encodeURIComponent_defined s :
  Forall (fun c => isLeadSurrogate c = false /\ isTrailSurrogate c = false) s ->
  is_Some (encodeURIComponent s).
Proof.
  induction 1 as [|c s [Hl Ht] _ [out IH]]; [by eexists|]. simpl.
  rewrite Hl, Ht, IH. destruct (isUnreserved c); by eexists.
Qed.

Lemma lead_not_unreserved c : isLeadSurrogate c = true -> isUnreserved c = false.
Proof.
  unfold isLeadSurrogate, isUnreserved.
  rewrite andb_true_iff, !N.leb_le. intros [? ?].
  apply not_true_iff_false.
  rewrite !orb_true_iff, !andb_true_iff, !N.leb_le, !N.eqb_eq. lia.
Qed.

Lemma lead_not_trail c : isLeadSurrogate c = true -> isTrailSurrogate c = false.
Proof.
  unfold isLeadSurrogate, isTrailSurrogate.
  rewrite andb_true_iff, !N.leb_le. intros [? ?].
  apply not_true_iff_false. rewrite andb_true_iff, !N.leb_le. lia.
Qed.

Lemma encodeURIComponent_lone_lead n : forall s c,
  (length s <= n)%nat ->
  isLeadSurrogate c = true -> encodeURIComponent (s ++ [c]) = None.
Proof.
  induction n as [|n IH]; intros [|d s] c Hlen Hc; simpl in Hlen; try lia.
  - simpl. by rewrite (lead_not_unreserved c), Hc.
  - simpl. by rewrite (lead_not_unreserved c), Hc.
  - simpl. destruct (isUnreserved d).
    { by rewrite (IH s c) by (done || lia). }
    destruct (isLeadSurrogate d).
    { destruct s as [|e s']; simpl.
      - by rewrite (lead_not_trail c).
      - destruct (isTrailSurrogate e); [|done].
        by rewrite (IH s' c) by (done || simpl in Hlen; lia). }
    destruct (isTrailSurrogate d); [done|].
    by rewrite (IH s c) by (done || lia).
Qed.

(** ** [getAuthUrl] *)

(** X13. Without a mock URL (mock mode absent or off, or its URL absent
    or blank), the challenge URL is the base URL, the path [/2fa/verify/]
    and the request id as it is. One trailing slash of the base URL is
    dropped, so that a base URL with and without it give the same
    challenge URL; a base URL without trailing slash is used unchanged. *)
Theorem base_url_loses_one_trailing_slash config requestId :
  mockUrl config = None ->
  (forall base, authBaseUrl config = base ++ js "/" ->
     getAuthUrl config requestId = Some (base ++ js "/2fa/verify/" ++ requestId))
  /\ (last (authBaseUrl config) <> Some 47%N ->
      getAuthUrl config requestId
      = Some (authBaseUrl config ++ js "/2fa/verify/" ++ requestId)).
Proof.
  intros Hmock. unfold getAuthUrl. rewrite Hmock. split.
  - intros base ->. by rewrite stripTrailingSlash_slash.
  - intros Hlast. by rewrite stripTrailingSlash_other.
Qed.

(** X14. With a mock URL that contains the placeholder, a request id
    without dollar sign is put verbatim (not percent-encoded) in the
    place of the first placeholder; the text before and after it,
    including any further placeholder, is unchanged. *)
Theorem placeholder_replaced_by_plain_id config pre post requestId :
  mockUrl config = Some (pre ++ js "{requestId}" ++ post) ->
  123%N ∉ pre ->
  36%N ∉ requestId ->
  getAuthUrl config requestId = Some (pre ++ requestId ++ post).
Proof.
  intros Hmock Hpre Hid. unfold getAuthUrl. rewrite Hmock.
  rewrite includes_placeholder by done.
  by rewrite replace_placeholder, getSubstitution_plain.
Qed.

(** X15. A request id is a replacement text: in it, [$$] yields one
    dollar sign, [$&] the placeholder itself, [$`] the part of the mock
    URL before the placeholder and [$'] the part after it. *)
Theorem dollar_patterns_in_id_are_expanded config pre post x y :
  mockUrl config = Some (pre ++ js "{requestId}" ++ post) ->
  123%N ∉ pre ->
  36%N ∉ x -> 36%N ∉ y ->
  getAuthUrl config (x ++ js "$$" ++ y) = Some (pre ++ (x ++ js "$" ++ y) ++ post)
  /\ getAuthUrl config (x ++ js "$&" ++ y)
     = Some (pre ++ (x ++ js "{requestId}" ++ y) ++ post)
  /\ getAuthUrl config (x ++ js "$`" ++ y) = Some (pre ++ (x ++ pre ++ y) ++ post)
  /\ getAuthUrl config (x ++ js "$'" ++ y) = Some (pre ++ (x ++ post ++ y) ++ post).
Proof.
  intros Hmock Hpre Hx Hy. unfold getAuthUrl. rewrite Hmock.
  rewrite includes_placeholder by done.
  rewrite !replace_placeholder by done.
  change (js "$$" ++ y) with (36%N :: 36%N :: y).
  change (js "$&" ++ y) with (36%N :: 38%N :: y).
  change (js "$`" ++ y) with (36%N :: 96%N :: y).
  change (js "$'" ++ y) with (36%N :: 39%N :: y).
  by rewrite !getSubstitution_dollar by done.
Qed.

(** X16. With a mock URL without placeholder, the request id is added
    as the query parameter [requestId]: it is joined with [&] when the
    mock URL contains a question mark and with [?] when it does not, and
    an id made of letters, digits and [-_.!~*'()] is added as it is. *)
Theorem id_appended_as_query_parameter config mockUrl requestId :
  AuthUrl.mockUrl config = Some mockUrl ->
  includes (js "{requestId}") mockUrl = false ->
  Forall (fun c => isUnreserved c = true) requestId ->
  getAuthUrl config requestId
  = Some (mockUrl ++ (if bool_decide (63%N ∈ mockUrl) then js "&" else js "?")
            ++ js "requestId=" ++ requestId).
Proof.
  intros Hmock Hinc Hid. unfold getAuthUrl. rewrite Hmock, Hinc.
  rewrite encodeURIComponent_unreserved by done.
  change (js "?") with [63%N] at 1. by rewrite includes_char.
Qed.

(** X17. In the query-parameter form, what follows [requestId=] consists
    of letters, digits, [-_.!~*'()] and percent signs only, whatever the
    request id (a string of 16-bit code units); the URL is produced for
    every id without surrogate code units, and an id that ends in a lead
    surrogate makes [encodeURIComponent] throw. *)
Theorem query_parameter_is_percent_encoded config mockUrl :
  AuthUrl.mockUrl config = Some mockUrl ->
  includes (js "{requestId}") mockUrl = false ->
  (forall requestId url,
      Forall (fun c => (c < 65536)%N) requestId ->
      getAuthUrl config requestId = Some url ->
      exists joiner encoded,
        url = mockUrl ++ joiner ++ js "requestId=" ++ encoded
        /\ (joiner = js "&" \/ joiner = js "?")
        /\ Forall (fun c => isUnreserved c = true \/ c = 37%N) encoded)
  /\ (forall requestId,
        Forall (fun c => isLeadSurrogate c = false /\ isTrailSurrogate c = false)
          requestId ->
        is_Some (getAuthUrl config requestId))
  /\ (forall requestId c,
        isLeadSurrogate c = true -> getAuthUrl config (requestId ++ [c]) = None).
Proof.
  intros Hmock Hinc. unfold getAuthUrl. rewrite Hmock, Hinc. split_and!.
  - intros requestId url Hid.
    destruct (encodeURIComponent requestId) as [encoded|] eqn:Henc; [|done].
    intros [= <-]. eexists _, encoded. split; [done|]. split.
    + destruct (includes (js "?") mockUrl); [by left | by right].
    + by eapply (encodeURIComponent_alphabet (length requestId)).
  - intros requestId Hid.
    destruct (encodeURIComponent_defined requestId Hid) as [encoded ->].
    by eexists.
  - intros requestId c Hc.
    by rewrite (encodeURIComponent_lone_lead (length requestId)).
Qed.

Lemma base_url_loses_one_trailing_slash_witness :
  mockUrl UrlScenario.plainConfig = None
  /\ getAuthUrl UrlScenario.plainConfig (js "req-1")
     = Some (js "https://gateway.example" ++ js "/2fa/verify/" ++ js "req-1").
Proof.
  split; [reflexivity|].
  apply (proj1 (base_url_loses_one_trailing_slash UrlScenario.plainConfig
                  (js "req-1") eq_refl)).
  reflexivity.
Defined.

Lemma placeholder_replaced_by_plain_id_witness :
  getAuthUrl UrlScenario.templateConfig (js "req-1")
  = Some (js "https://mock-2fa.test/verify/" ++ js "req-1" ++ js "?x=1").
Proof.
  apply (placeholder_replaced_by_plain_id UrlScenario.templateConfig).
  - reflexivity.
  - apply (bool_decide_unpack _). vm_compute. exact I.
  - apply (bool_decide_unpack _). vm_compute. exact I.
Defined.

Lemma dollar_patterns_in_id_are_expanded_witness :
  getAuthUrl UrlScenario.templateConfig (js "a" ++ js "$&" ++ js "b")
  = Some (js "https://mock-2fa.test/verify/"
            ++ (js "a" ++ js "{requestId}" ++ js "b") ++ js "?x=1").
Proof.
  refine (proj1 (proj2 (dollar_patterns_in_id_are_expanded
            UrlScenario.templateConfig (js "https://mock-2fa.test/verify/")
            (js "?x=1") (js "a") (js "b") _ _ _ _))).
  - reflexivity.
  - apply (bool_decide_unpack _). vm_compute. exact I.
  - apply (bool_decide_unpack _). vm_compute. exact I.
  - apply (bool_decide_unpack _). vm_compute. exact I.
Defined.

Lemma id_appended_as_query_parameter_witness :
  getAuthUrl UrlScenario.queryConfig (js "req-1")
  = Some (js "https://mock-2fa.test/verify?lang=en"
            ++ (if bool_decide (63%N ∈ js "https://mock-2fa.test/verify?lang=en")
                then js "&" else js "?")
            ++ js "requestId=" ++ js "req-1").
Proof.
  apply (id_appended_as_query_parameter UrlScenario.queryConfig).
  - reflexivity.
  - reflexivity.
  - apply (bool_decide_unpack _). vm_compute. exact I.
Defined.

Lemma query_parameter_is_percent_encoded_witness :
  getAuthUrl UrlScenario.queryConfig (js "a b" ++ [55357%N]) = None.
Proof.
  apply (proj2 (proj2 (query_parameter_is_percent_encoded
           UrlScenario.queryConfig (js "https://mock-2fa.test/verify?lang=en")
           eq_refl eq_refl))).
  reflexivity.
Defined.

End UrlFacts.

(* ===================================================================== *)
(** * Properties of the gateway handlers *)
(* ===================================================================== *)

Module GatewayFacts.
Import TwoFactor Gateway TwoFactorFacts.

Lemma nonEmptyString_Some v k :
  nonEmptyString v = Some k -> v = VString k /\ k <> [].
Proof.
  destruct v as [|s|]; simpl; try done.
  destruct s; simpl; [done|]. by intros [= <-].
Qed.

Lemma nonEmptyString_VString k : k <> [] -> nonEmptyString (VString k) = Some k.
Proof. by destruct k. Qed.

Section Handlers.

Variable toUpperCase : jsstring -> jsstring.
Variable config : TwoFactorConfig.
Variables ErrorCode ErrorShape : Type.
Variables UNAVAILABLE INVALID_REQUEST : ErrorCode.
Variable errorShape : ErrorCode -> string -> ErrorShape.

(** The four ways in which [verify] returns. *)
Lemma verify_outcomes k code now now' s :
  let result := verify toUpperCase k code now now' s in
  (result.1 = {| TwoFactor.success := false;
                 TwoFactor.error := Some "Request not found or expired"%string |}
   /\ result.2 = s)
  \/ (result.1 = {| TwoFactor.success := false;
                    TwoFactor.error := Some "Invalid verification code"%string |}
      /\ result.2 = s)
  \/ (result.1 = {| TwoFactor.success := false;
                    TwoFactor.error := Some "Request expired"%string |}
      /\ is_Some (pending s !! k) /\ pending result.2 !! k = None)
  \/ (result.1 = {| TwoFactor.success := true; TwoFactor.error := None |}
      /\ is_Some (pending s !! k) /\ pending result.2 !! k = None).
Proof.
  unfold verify. destruct (pending s !! k) as [e|] eqn:He; [|by left].
  destruct (heap s !! request e) as [r|]; [|by left].
  destruct (now >? expiresAtMs r).
  { right; right; left. simpl. by rewrite lookup_delete_eq. }
  destruct (bool_decide _); [by right; left|].
  right; right; right. simpl. by rewrite lookup_delete_eq.
Qed.

Lemma cancel_outcomes k s :
  ((cancel k s).1 = false /\ (cancel k s).2 = s)
  \/ ((cancel k s).1 = true /\ is_Some (pending s !! k)
      /\ pending (cancel k s).2 !! k = None).
Proof.
  unfold cancel. destruct (pending s !! k) as [e|] eqn:He; [|by left].
  right. simpl. by rewrite lookup_delete_eq.
Qed.

(** The answers of the handlers for an id without table entry. *)
Lemma not_found_responses k s :
  k <> [] -> pending s !! k = None ->
  statusHandler UNAVAILABLE INVALID_REQUEST errorShape (VString k) (Some s)
  = ([fail errorShape INVALID_REQUEST "Request not found or expired"], Some s)
  /\ cancelHandler UNAVAILABLE INVALID_REQUEST errorShape (VString k) (Some s)
     = ([fail errorShape INVALID_REQUEST
           "Request not found or already resolved"],
        Some s)
  /\ forall code now now', code <> [] ->
       verifyHandler toUpperCase UNAVAILABLE INVALID_REQUEST errorShape
         (VString k) (VString code) now now' (Some s)
       = ([fail errorShape INVALID_REQUEST "Request not found or expired"],
          Some s).
Proof.
  intros Hk Hp.
  unfold statusHandler, cancelHandler, verifyHandler.
  rewrite !nonEmptyString_VString by done.
  unfold getRequest, cancel, verify. rewrite Hp. simpl. split_and!; try done.
  intros code now now' Hcode. by destruct code.
Qed.

Lemma wellFormed_fail code message :
  wellFormed (fail errorShape code message).
Proof. split; [done | by eexists]. Qed.

Lemma wellFormed_succeed p : wellFormed (succeed (ErrorShape:=ErrorShape) p).
Proof. split; [by eexists | done]. Qed.

(** X18. Each handler calls [respond] exactly once on every path, with
    a well-formed answer (a failure carries an error and no payload, a
    success a payload and no error), and leaves the global manager slot
    initialised or not as it found it; the status handler never changes
    the manager. *)
Theorem handlers_respond_exactly_once requestId code now now' manager :
  (exists r manager',
      verifyHandler toUpperCase UNAVAILABLE INVALID_REQUEST errorShape
        requestId code now now' manager
      = ([r], manager')
      /\ wellFormed r /\ (is_Some manager' <-> is_Some manager))
  /\ (exists r,
        statusHandler UNAVAILABLE INVALID_REQUEST errorShape requestId manager
        = ([r], manager)
        /\ wellFormed r)
  /\ (exists r manager',
        cancelHandler UNAVAILABLE INVALID_REQUEST errorShape requestId manager
        = ([r], manager')
        /\ wellFormed r /\ (is_Some manager' <-> is_Some manager)).
Proof.
  unfold verifyHandler, statusHandler, cancelHandler.
  split_and!.
  - destruct manager as [s|];
      [destruct (nonEmptyString requestId) as [k|];
       [destruct (nonEmptyString code) as [c|]; [destruct (negb _)|]|]|];
      eexists _, _; (split; [reflexivity|]);
      (split; [first [apply wellFormed_fail | apply wellFormed_succeed]
              |first [reflexivity | by split; eexists]]).
  - destruct manager as [s|];
      [destruct (nonEmptyString requestId) as [k|];
       [destruct (getRequest k s ≫= _)|]|];
      eexists; (split; [reflexivity|]);
      first [apply wellFormed_fail | apply wellFormed_succeed].
  - destruct manager as [s|];
      [destruct (nonEmptyString requestId) as [k|]; [destruct (negb _)|]|];
      eexists _, _; (split; [reflexivity|]);
      (split; [first [apply wellFormed_fail | apply wellFormed_succeed]
              |first [reflexivity | by split; eexists]]).
Qed.

(** X19. The answers of [2fa.verify]. The handler answers with one of:
    not initialised, id required, code required, the three errors of
    [verify], or success with the id it was given. The fallback message
    [Verification failed] is never sent, and the manager is unchanged
    except on success and on the expired error, both of which remove the
    table entry of the id. *)
Theorem verify_handler_answers requestId code now now' manager :
  exists r manager',
    verifyHandler toUpperCase UNAVAILABLE INVALID_REQUEST errorShape
      requestId code now now' manager
    = ([r], manager')
    /\ ((r = fail errorShape UNAVAILABLE "2FA not initialized"
         /\ manager = None /\ manager' = None)
        \/ (r = fail errorShape INVALID_REQUEST "requestId is required"
            /\ nonEmptyString requestId = None /\ manager' = manager)
        \/ (r = fail errorShape INVALID_REQUEST "code is required"
            /\ nonEmptyString code = None /\ manager' = manager)
        \/ (r = fail errorShape INVALID_REQUEST "Request not found or expired"
            /\ manager' = manager)
        \/ (r = fail errorShape INVALID_REQUEST "Invalid verification code"
            /\ manager' = manager)
        \/ (exists k s s',
              (r = fail errorShape INVALID_REQUEST "Request expired"
               \/ r = succeed (VerifiedPayload k))
              /\ requestId = VString k /\ k <> []
              /\ manager = Some s /\ manager' = Some s'
              /\ is_Some (pending s !! k) /\ pending s' !! k = None)).
Proof.
  unfold verifyHandler. destruct manager as [s|].
  2:{ eexists _, _. split; [done|]. by left. }
  destruct (nonEmptyString requestId) as [k|] eqn:Hk.
  2:{ eexists _, _. split; [done|]. by right; left. }
  destruct (nonEmptyString code) as [c|] eqn:Hc.
  2:{ eexists _, _. split; [done|]. by right; right; left. }
  apply nonEmptyString_Some in Hk as [-> Hk].
  destruct (verify_outcomes k c now now' s)
    as [[-> ->]|[[-> ->]|[(-> & Hs & Hd)|(-> & Hs & Hd)]]]; simpl;
    eexists _, _; (split; [done|]).
  - by right; right; right; left.
  - by right; right; right; right; left.
  - do 5 right. eexists k, s, _. split_and!; try done. by left.
  - do 5 right. eexists k, s, _. split_and!; try done. by right.
Qed.

(** X20. Once [2fa.verify] or [2fa.cancel] has answered with success
    for an id, the id is gone: [2fa.status] and a further [2fa.verify]
    answer that the request is not found or expired, a further
    [2fa.cancel] that it is not found or already resolved, all without
    changing the manager. *)
Theorem answered_request_is_gone k code now now' s r manager' :
  verifyHandler toUpperCase UNAVAILABLE INVALID_REQUEST errorShape
    (VString k) (VString code) now now' (Some s)
  = ([r], manager')
  \/ cancelHandler UNAVAILABLE INVALID_REQUEST errorShape (VString k) (Some s)
     = ([r], manager') ->
  ok r = true ->
  statusHandler UNAVAILABLE INVALID_REQUEST errorShape (VString k) manager'
  = ([fail errorShape INVALID_REQUEST "Request not found or expired"],
     manager')
  /\ cancelHandler UNAVAILABLE INVALID_REQUEST errorShape (VString k) manager'
     = ([fail errorShape INVALID_REQUEST
           "Request not found or already resolved"],
        manager')
  /\ forall code' t t', code' <> [] ->
       verifyHandler toUpperCase UNAVAILABLE INVALID_REQUEST errorShape
         (VString k) (VString code') t t' manager'
       = ([fail errorShape INVALID_REQUEST "Request not found or expired"],
          manager').
Proof.
  intros H Hok.
  assert (exists s', manager' = Some s' /\ k <> [] /\ pending s' !! k = None)
    as (s' & -> & Hk & Hp); [|by apply not_found_responses].
  destruct H as [H|H].
  - unfold verifyHandler in H.
    destruct (nonEmptyString (VString k)) as [k'|] eqn:Hk;
      [|by injection H as <- <-].
    apply nonEmptyString_Some in Hk as [[= <-] Hk].
    destruct (nonEmptyString (VString code)) as [c|];
      [|by injection H as <- <-].
    destruct (verify_outcomes k c now now' s)
      as [[Hr _]|[[Hr _]|[(Hr & _)|(Hr & Hs & Hd)]]];
      simpl in Hr; rewrite Hr in H; simpl in H; injection H as <- <-;
      try done.
    by eexists.
  - unfold cancelHandler in H.
    destruct (nonEmptyString (VString k)) as [k'|] eqn:Hk;
      [|by injection H as <- <-].
    apply nonEmptyString_Some in Hk as [[= <-] Hk].
    destruct (cancel_outcomes k s) as [[Hr _]|(Hr & Hs & Hd)];
      rewrite Hr in H; simpl in H; injection H as <- <-; try done.
    by eexists.
Qed.

(** X21. What [2fa.status] can report. In an execution in which
    [waitForVerification] is called at most once on each request, a
    successful answer of the status handler carries the id that was
    asked for and the status pending: the handler never reports a
    verified, expired or cancelled request. *)
Theorem status_handler_reports_pending ops requestId r :
  NoDup (waitRefs ops) ->
  (statusHandler UNAVAILABLE INVALID_REQUEST errorShape requestId
     (Some (run toUpperCase config ops init))).1
  = [r] ->
  ok r = true ->
  exists k command expiresAtMs,
    requestId = VString k /\ k <> []
    /\ payload r
       = Some (StatusPayload k Pending command expiresAtMs).
Proof.
  intros Hnd H Hok.
  pose proof (Inv_run toUpperCase config ops init Inv_init) as HI.
  destruct (once_run toUpperCase config ops init [] Inv_init WaitedOnce_init
              Hnd) as ((W & HW & _) & _).
  { intros l' _. apply not_elem_of_nil. }
  unfold statusHandler in H.
  destruct (nonEmptyString requestId) as [k|] eqn:Hk;
    [|by injection H as <-].
  apply nonEmptyString_Some in Hk as [-> Hk].
  unfold getRequest in H.
  destruct (pending (run toUpperCase config ops init) !! k) as [e|] eqn:He;
    [|by injection H as <-].
  destruct (entry_task _ _ _ HI He) as (q & d & Hq & Hid & Ht).
  destruct (once_timer _ _ HW _ _ Ht) as [_ Hst]. simpl in Hst.
  unfold statusOf in Hst. rewrite Hq in Hst. injection Hst as Hst.
  simpl in H. rewrite Hq in H. injection H as <-. simpl.
  rewrite Hid, Hst. by eexists _, _, _.
Qed.

End Handlers.

Lemma answered_request_is_gone_witness :
  statusHandler GatewayScenario.UNAVAILABLE GatewayScenario.INVALID_REQUEST
    GatewayScenario.errorShape (VString Scenario.uuid)
    (cancelHandler GatewayScenario.UNAVAILABLE GatewayScenario.INVALID_REQUEST
       GatewayScenario.errorShape (VString Scenario.uuid)
       (Some Scenario.waiting)).2
  = ([fail GatewayScenario.errorShape GatewayScenario.INVALID_REQUEST
        "Request not found or expired"],
     (cancelHandler GatewayScenario.UNAVAILABLE GatewayScenario.INVALID_REQUEST
        GatewayScenario.errorShape (VString Scenario.uuid)
        (Some Scenario.waiting)).2).
Proof.
  refine (proj1 (answered_request_is_gone asciiToUpperCase
            GatewayScenario.ErrorCode _ GatewayScenario.UNAVAILABLE
            GatewayScenario.INVALID_REQUEST GatewayScenario.errorShape
            Scenario.uuid [] 0 0 Scenario.waiting
            (succeed (CancelledPayload Scenario.uuid)) _ _ _)).
  - right. vm_compute. reflexivity.
  - reflexivity.
Defined.

Lemma status_handler_reports_pending_witness :
  exists k command expiresAtMs,
    VString Scenario.uuid = VString k /\ k <> []
    /\ payload
         (succeed (ErrorShape:=GatewayScenario.ErrorCode * string)
            (StatusPayload Scenario.uuid Pending (js "rm -rf /tmp") 301000))
       = Some (StatusPayload k Pending command expiresAtMs).
Proof.
  apply (status_handler_reports_pending asciiToUpperCase Scenario.mockConfig
           GatewayScenario.ErrorCode _ GatewayScenario.UNAVAILABLE
           GatewayScenario.INVALID_REQUEST GatewayScenario.errorShape
           Scenario.opsWaiting).
  - apply (bool_decide_unpack _). vm_compute. exact I.
  - vm_compute. reflexivity.
  - reflexivity.
Defined.

End GatewayFacts.

(* ===================================================================== *)
(** * Properties of the regular expressions *)
(* ===================================================================== *)

Module RegexFacts.
Import Regex Further.

Lemma matches_Star r k prev s :
  matches (Star r) prev s k = iterate r k (length s) prev s.
Proof. reflexivity. Qed.

Lemma iterate_0 r k prev s : iterate r k 0 prev s = k prev s || false.
Proof. reflexivity. Qed.

Lemma iterate_S r k fuel prev s :
  iterate r k (S fuel) prev s
  = k prev s
    || matches r prev s
         (fun prev' s' =>
            (length s' <? length s)%nat && iterate r k fuel prev' s').
Proof. reflexivity. Qed.

(** ** Anchoring at the start *)

Lemma search_Bol_Some r c s : search (Seq Bol r) (Some c) s = false.
Proof.
  revert c. induction s as [|d s IH]; intros c; simpl; [done|]. apply IH.
Qed.

Lemma exec_anchored rs s :
  exec (cat (Bol :: rs)) s = matches (cat rs) None s (fun _ _ => true).
Proof.
  unfold exec. change (cat (Bol :: rs)) with (Seq Bol (cat rs)).
  destruct s as [|c s]; simpl.
  - apply orb_false_r.
  - by rewrite search_Bol_Some, orb_false_r.
Qed.

(** ** Text after a match *)

Lemma matches_extend t r :
  unanchored r = true ->
  forall prev s k k',
    (forall p u, k p u = true -> k' p (u ++ t) = true) ->
    matches r prev s k = true -> matches r prev (s ++ t) k' = true.
Proof.
  induction r as [|ranges| |r1 IH1 r2 IH2|r1 IH1 r2 IH2|r1 IH1| | |];
    intros Hr prev s k k' Hk; simpl in Hr; try discriminate Hr.
  - simpl. apply Hk.
  - destruct s as [|c s']; simpl; [done|].
    rewrite !andb_true_iff. intros [? ?]. split; [done|by apply Hk].
  - destruct s as [|c s']; simpl; [done|].
    rewrite !andb_true_iff. intros [? ?]. split; [done|by apply Hk].
  - apply andb_true_iff in Hr as [H1 H2]. simpl.
    apply IH1; [done|]. intros p u. by apply IH2.
  - apply andb_true_iff in Hr as [H1 H2]. simpl.
    rewrite !orb_true_iff. intros [H|H]; [left|right].
    + by apply (IH1 H1 prev s k k').
    + by apply (IH2 H2 prev s k k').
  - rewrite !matches_Star.
    assert (Hit : forall fuel fuel' p u, (fuel <= fuel')%nat ->
               iterate r1 k fuel p u = true ->
               iterate r1 k' fuel' p (u ++ t) = true).
    { induction fuel as [|f IHf]; intros [|f'] p u Hle;
        rewrite ?iterate_0, ?iterate_S, !orb_true_iff; try lia.
      - intros [H|H]; [left; by apply Hk|done].
      - intros [H|H]; [left; by apply Hk|done].
      - intros [H|H]; [left; by apply Hk|]. right.
        apply (IH1 Hr p u) with (2 := H). intros p' u'. cbv beta.
        rewrite !andb_true_iff, !Nat.ltb_lt, !length_app.
        intros [? ?]. split; [lia|]. apply IHf; [lia|done]. }
    apply Hit. rewrite length_app. lia.
Qed.

Lemma anchored_extend rs s t :
  unanchored (cat rs) = true ->
  exec (cat (Bol :: rs)) s = true -> exec (cat (Bol :: rs)) (s ++ t) = true.
Proof.
  intros Hrs. rewrite !exec_anchored. by apply matches_extend.
Qed.

(** ** Case of ASCII letters *)

Lemma isWhiteSpace_asciiUpper c : isWhiteSpace (asciiUpper c) = isWhiteSpace c.
Proof.
  unfold asciiUpper.
  destruct ((97 <=? c) && (c <=? 122))%N eqn:E; [|done].
  apply andb_true_iff in E as [?%N.leb_le ?%N.leb_le].
  assert (Hws : forall d, (33 <= d <= 159)%N -> isWhiteSpace d = false).
  { intros d Hd. apply not_true_iff_false. unfold isWhiteSpace.
    rewrite !orb_true_iff, !andb_true_iff, !N.leb_le, !N.eqb_eq. lia. }
  rewrite !Hws; [done|lia|lia].
Qed.

Lemma isWordChar_asciiUpper p : isWordChar (asciiUpper <$> p) = isWordChar p.
Proof.
  destruct p as [c|]; [|done].
  change (isWordChar (Some (asciiUpper c)) = isWordChar (Some c)).
  unfold isWordChar, asciiUpper.
  destruct ((97 <=? c) && (c <=? 122))%N eqn:E; [|done].
  apply andb_true_iff in E as [?%N.leb_le ?%N.leb_le].
  assert (Hw : forall d, (65 <= d <= 90 \/ 97 <= d <= 122)%N ->
                 inRanges d [(65, 90); (97, 122); (48, 57); (95, 95)]%N = true).
  { intros d Hd. simpl.
    rewrite !orb_true_iff, !andb_true_iff, !N.leb_le. lia. }
  rewrite !Hw; [done|lia|lia].
Qed.

Lemma inRanges_asciiUpper ranges c :
  caseClosed (Char ranges) = true ->
  inRanges (asciiUpper c) ranges = inRanges c ranges.
Proof.
  intros Hc. unfold asciiUpper.
  destruct ((97 <=? c) && (c <=? 122))%N eqn:E; [|done].
  apply andb_true_iff in E as [?%N.leb_le ?%N.leb_le].
  unfold caseClosed in Hc. rewrite forallb_forall in Hc.
  symmetry. apply eqb_prop, Hc. unfold lowerCaseLetters.
  apply in_map_iff. exists (N.to_nat c). split; [lia|]. apply in_seq. lia.
Qed.

Lemma matches_case r :
  caseClosed r = true ->
  forall prev s k k',
    (forall p u, k p u = k' (asciiUpper <$> p) (map asciiUpper u)) ->
    matches r prev s k
    = matches r (asciiUpper <$> prev) (map asciiUpper s) k'.
Proof.
  induction r as [|ranges| |r1 IH1 r2 IH2|r1 IH1 r2 IH2|r1 IH1| | |];
    intros Hr prev s k k' Hk.
  - simpl. apply Hk.
  - destruct s as [|c s']; [done|].
    change (inRanges c ranges && k (Some c) s'
            = inRanges (asciiUpper c) ranges
              && k' (Some (asciiUpper c)) (map asciiUpper s')).
    by rewrite inRanges_asciiUpper, (Hk (Some c) s').
  - destruct s as [|c s']; [done|].
    change (isWhiteSpace c && k (Some c) s'
            = isWhiteSpace (asciiUpper c)
              && k' (Some (asciiUpper c)) (map asciiUpper s')).
    by rewrite isWhiteSpace_asciiUpper, (Hk (Some c) s').
  - simpl in Hr. apply andb_true_iff in Hr as [H1 H2]. simpl.
    apply IH1; [done|]. intros p u. by apply IH2.
  - simpl in Hr. apply andb_true_iff in Hr as [H1 H2]. simpl.
    by rewrite (IH1 H1 prev s k k'), (IH2 H2 prev s k k').
  - simpl in Hr. rewrite !matches_Star, length_map.
    generalize (length s) as fuel. intros fuel. revert prev s.
    induction fuel as [|f IHf]; intros p u;
      rewrite ?iterate_0, ?iterate_S, (Hk p u); [done|].
    f_equal. apply (IH1 Hr). intros p' u'. cbv beta.
    by rewrite !length_map, IHf.
  - destruct prev; simpl; [done|apply Hk].
  - destruct s; simpl; [apply Hk|done].
  - simpl. rewrite (Hk prev s), isWordChar_asciiUpper.
    replace (head (map asciiUpper s)) with (asciiUpper <$> head s)
      by (by destruct s).
    by rewrite isWordChar_asciiUpper.
Qed.

Lemma search_case r prev s :
  caseClosed r = true ->
  search r (asciiUpper <$> prev) (map asciiUpper s) = search r prev s.
Proof.
  intros Hr. revert prev. induction s as [|c s IH]; intros prev; simpl.
  - by rewrite <- (matches_case r Hr prev [] (fun _ _ => true)).
  - rewrite <- (matches_case r Hr prev (c :: s) (fun _ _ => true)) by done.
    f_equal. apply (IH (Some c)).
Qed.

Lemma exec_case r s :
  caseClosed r = true -> exec r (asciiToUpperCase s) = exec r s.
Proof. intros Hr. apply (search_case r None s Hr). Qed.

End RegexFacts.

(* ===================================================================== *)
(** * Further properties of the risk classifier *)
(* ===================================================================== *)

Module DetectorFacts.
Import Regex HighRisk StringOps Further TrimFacts RegexFacts HighRiskFacts.

(** ** The scan *)

Lemma scan_command patterns cmd : command (scan patterns cmd) = cmd.
Proof.
  induction patterns as [|q patterns IH]; simpl; [done|].
  by destruct (test (pattern q) cmd).
Qed.

Lemma scan_matched patterns cmd p :
  matchedPattern (scan patterns cmd) = Some p ->
  p ∈ patterns /\ test (pattern p) cmd = true.
Proof.
  induction patterns as [|q patterns IH]; simpl; [done|].
  destruct (test (pattern q) cmd) eqn:Hq; simpl.
  - intros [= <-]. split; [apply list_elem_of_here|done].
  - intros [Hp Ht]%IH. split; [by apply list_elem_of_further|done].
Qed.

Lemma scan_isHighRisk patterns cmd :
  isHighRisk (scan patterns cmd) = true
  <-> exists p, p ∈ patterns /\ test (pattern p) cmd = true.
Proof.
  induction patterns as [|q patterns IH]; simpl.
  - split; [done|]. by intros (p & ?%elem_of_nil & _).
  - destruct (test (pattern q) cmd) eqn:Hq; simpl.
    + split; [|done]. intros _. exists q. split; [apply list_elem_of_here|done].
    + rewrite IH. split.
      * intros (p & Hp & Ht). exists p. split; [by apply list_elem_of_further|done].
      * intros (p & Hp & Ht). apply elem_of_cons in Hp as [->|Hp];
          [congruence|by exists p].
Qed.

Lemma scan_flag patterns cmd :
  isHighRisk (scan patterns cmd) = true
  <-> is_Some (matchedPattern (scan patterns cmd)).
Proof.
  induction patterns as [|q patterns IH]; simpl.
  - split; [done|]. by intros [? ?].
  - destruct (test (pattern q) cmd); simpl; [|done]. split; [by eexists|done].
Qed.

Lemma scan_case patterns cmd :
  Forall (fun p => forall s,
            test (pattern p) (asciiToUpperCase s) = test (pattern p) s)
    patterns ->
  scan patterns (asciiToUpperCase cmd)
  = {| isHighRisk := isHighRisk (scan patterns cmd);
       matchedPattern := matchedPattern (scan patterns cmd);
       command := asciiToUpperCase cmd |}.
Proof.
  induction 1 as [|q patterns Hq _ IH]; simpl; [done|].
  rewrite Hq. by destruct (test (pattern q) cmd).
Qed.

(** ** The three ways through [detectHighRiskCommand] *)

Lemma detect_None cmd :
  detectHighRiskCommand cmd None
  = {| isHighRisk := false; matchedPattern := None; command := trim cmd |}.
Proof. reflexivity. Qed.

Lemma detect_disabled cmd cfg :
  enabled cfg = false ->
  detectHighRiskCommand cmd (Some cfg)
  = {| isHighRisk := false; matchedPattern := None; command := trim cmd |}.
Proof. intros H. unfold detectHighRiskCommand. by rewrite H. Qed.

Lemma detect_enabled cmd cfg :
  enabled cfg = true ->
  detectHighRiskCommand cmd (Some cfg)
  = scan (getHighRiskPatterns (Some cfg)) (trim cmd).
Proof. intros H. unfold detectHighRiskCommand. by rewrite H. Qed.

Lemma detect_command cmd config :
  command (detectHighRiskCommand cmd config) = trim cmd.
Proof.
  destruct config as [cfg|]; [|done].
  destruct (enabled cfg) eqn:E.
  - by rewrite detect_enabled, scan_command.
  - by rewrite detect_disabled.
Qed.


Lemma effective_builtin p cfg :
  p ∈ DEFAULT_HIGH_RISK_PATTERNS ->
  id p ∉ default [] (disabledPatternIds cfg) ->
  p ∈ getHighRiskPatterns (Some cfg).
Proof.
  intros Hp Hid. unfold getHighRiskPatterns, effectivePatterns.
  apply elem_of_app. left. apply list_elem_of_filter. split; [|done].
  unfold disabledSet. simpl. by rewrite elem_of_list_to_set.
Qed.

Lemma filter_all {A} (P : A -> Prop) `{!forall x, Decision (P x)} (l : list A) :
  Forall P l -> filter P l = l.
Proof.
  induction 1 as [|x l Hx _ IH]; [done|].
  by rewrite filter_cons_True, IH.
Qed.

(** ** The built-in patterns *)

Lemma builtins_ignore_case :
  Forall (fun p => forall s,
            test (pattern p) (asciiToUpperCase s) = test (pattern p) s)
    DEFAULT_HIGH_RISK_PATTERNS.
Proof.
  unfold DEFAULT_HIGH_RISK_PATTERNS.
  repeat apply Forall_cons_2; try apply Forall_nil_2;
    intros s; cbn [test pattern compile]; apply exec_case;
    vm_compute; reflexivity.
Qed.

Lemma builtins_extend :
  Forall (fun p => id p ∉ notPrefixPatterns ->
            forall s t, test (pattern p) s = true ->
                        test (pattern p) (s ++ t) = true)
    DEFAULT_HIGH_RISK_PATTERNS.
Proof.
  unfold DEFAULT_HIGH_RISK_PATTERNS.
  repeat apply Forall_cons_2; try apply Forall_nil_2;
    intros Hid s t; cbn [test pattern compile];
    first [ apply anchored_extend; vm_compute; reflexivity
          | exfalso; apply Hid; cbn [id]; unfold notPrefixPatterns;
            repeat first [apply list_elem_of_here | apply list_elem_of_further] ].
Qed.

Lemma builtins_reject_empty :
  Forall (rejects []) DEFAULT_HIGH_RISK_PATTERNS.
Proof.
  unfold DEFAULT_HIGH_RISK_PATTERNS, rejects.
  repeat apply Forall_cons_2; try apply Forall_nil_2; vm_compute; reflexivity.
Qed.

(** ** The classifier *)

(** X22. The result of [detectHighRiskCommand] against the two other
    exports: the command is flagged exactly when
    [isHighRiskDetectionEnabled] holds and some pattern of
    [getHighRiskPatterns] accepts the trimmed command; it is flagged
    exactly when a matched pattern is reported; the reported pattern is
    one of [getHighRiskPatterns] and accepts the trimmed command; and
    the reported command is the trimmed one. *)
Theorem detection_agrees_with_pattern_list cmd config :
  command (detectHighRiskCommand cmd config) = trim cmd
  /\ (isHighRisk (detectHighRiskCommand cmd config) = true
      <-> isHighRiskDetectionEnabled config = true
          /\ exists p, p ∈ getHighRiskPatterns config
                       /\ test (pattern p) (trim cmd) = true)
  /\ (isHighRisk (detectHighRiskCommand cmd config) = true
      <-> is_Some (matchedPattern (detectHighRiskCommand cmd config)))
  /\ (forall p,
        matchedPattern (detectHighRiskCommand cmd config) = Some p ->
        p ∈ getHighRiskPatterns config /\ test (pattern p) (trim cmd) = true).
Proof.
  split; [apply detect_command|].
  destruct config as [cfg|].
  - change (isHighRiskDetectionEnabled (Some cfg)) with (enabled cfg).
    destruct (enabled cfg) eqn:E.
    + rewrite detect_enabled by done. split_and!.
      * rewrite scan_isHighRisk. clear. tauto.
      * apply scan_flag.
      * apply scan_matched.
    + rewrite detect_disabled by done. cbn [isHighRisk matchedPattern].
      split_and!; try done; split; try done; by intros [? ?].
  - change (isHighRiskDetectionEnabled None) with false.
    rewrite detect_None. cbn [isHighRisk matchedPattern].
    split_and!; try done; split; try done; by intros [? ?].
Qed.


(** X24. Disabled ids act on the built-in patterns only, by equality of
    ids: a reported pattern whose id is disabled is a custom pattern;
    ids that no built-in pattern has leave the pattern list as it is;
    and the built-in ids are pairwise distinct, so that one id disables
    one built-in pattern. *)
Theorem disabled_ids_remove_builtins_only cfg :
  (forall cmd p,
      matchedPattern (detectHighRiskCommand cmd (Some cfg)) = Some p ->
      id p ∈ default [] (disabledPatternIds cfg) ->
      p ∈ default [] (customPatterns cfg))
  /\ ((forall i, i ∈ default [] (disabledPatternIds cfg) ->
                 i ∉ id <$> DEFAULT_HIGH_RISK_PATTERNS) ->
      getHighRiskPatterns (Some cfg)
      = DEFAULT_HIGH_RISK_PATTERNS ++ default [] (customPatterns cfg))
  /\ NoDup (id <$> DEFAULT_HIGH_RISK_PATTERNS).
Proof.
  split_and!.
  - intros cmd p Hm Hid. destruct (enabled cfg) eqn:E.
    + rewrite detect_enabled in Hm by done.
      apply scan_matched in Hm as [Hp _].
      unfold getHighRiskPatterns, effectivePatterns in Hp.
      apply elem_of_app in Hp as [Hp|Hp]; [|done].
      apply list_elem_of_filter in Hp as [Hn _]. exfalso. apply Hn.
      unfold disabledSet. simpl. by rewrite elem_of_list_to_set.
    + by rewrite detect_disabled in Hm.
  - intros Hids.
    change (getHighRiskPatterns (Some cfg))
      with (effectivePatterns (disabledSet (disabledPatternIds cfg))
              (customPatterns cfg)).
    unfold effectivePatterns.
    f_equal. apply filter_all, Forall_forall. intros p Hp Hin.
    unfold disabledSet in Hin. rewrite elem_of_list_to_set in Hin.
    apply (Hids _ Hin). by apply list_elem_of_fmap_2.
  - apply (bool_decide_unpack _). vm_compute. exact I.
Qed.

(** X25. The built-in patterns do not distinguish the case of ASCII
    letters: when the custom patterns do not either (in particular when
    there are none), a command and its upper-cased form are classified
    alike, with the same reported pattern. *)
Theorem builtin_detection_ignores_letter_case cmd cfg :
  Forall (fun p => forall s,
            test (pattern p) (asciiToUpperCase s) = test (pattern p) s)
    (default [] (customPatterns cfg)) ->
  detectHighRiskCommand (asciiToUpperCase cmd) (Some cfg)
  = {| isHighRisk := isHighRisk (detectHighRiskCommand cmd (Some cfg));
       matchedPattern := matchedPattern (detectHighRiskCommand cmd (Some cfg));
       command := asciiToUpperCase (command (detectHighRiskCommand cmd (Some cfg)))
    |}.
Proof.
  intros Hcustom. rewrite detect_command.
  assert (Htrim : trim (asciiToUpperCase cmd) = asciiToUpperCase (trim cmd)).
  { apply trim_map, isWhiteSpace_asciiUpper. }
  destruct (enabled cfg) eqn:E.
  - rewrite !detect_enabled, Htrim by done. apply scan_case.
    unfold getHighRiskPatterns, effectivePatterns.
    apply Forall_app. split; [|done].
    apply Forall_forall. intros p [_ Hp]%list_elem_of_filter.
    pose proof builtins_ignore_case as Hb. rewrite Forall_forall in Hb.
    by apply Hb.
  - by rewrite !detect_disabled, Htrim by done.
Qed.

(** X26. The built-in patterns other than [drop-database],
    [truncate-table] and [2fa-test] look at the start of the command
    only: when one of them accepts a command, it accepts every command
    that continues it, and such a command (given as it is after
    trimming) is flagged whenever detection is enabled and the id of
    the pattern is not disabled. *)
Theorem command_with_flagged_prefix_is_flagged p s t :
  p ∈ DEFAULT_HIGH_RISK_PATTERNS ->
  id p ∉ notPrefixPatterns ->
  test (pattern p) s = true ->
  test (pattern p) (s ++ t) = true
  /\ forall cfg,
       enabled cfg = true ->
       id p ∉ default [] (disabledPatternIds cfg) ->
       trim (s ++ t) = s ++ t ->
       isHighRisk (detectHighRiskCommand (s ++ t) (Some cfg)) = true.
Proof.
  intros Hp Hid Hs.
  assert (Hst : test (pattern p) (s ++ t) = true).
  { pose proof builtins_extend as H. rewrite Forall_forall in H.
    by apply (H p Hp Hid). }
  split; [done|]. intros cfg He Hd Htrim.
  rewrite detect_enabled by done. apply scan_isHighRisk.
  exists p. rewrite Htrim. split; [by apply effective_builtin|done].
Qed.

(** X27. A command that is empty or consists of white space only is
    never flagged by a built-in pattern: it is flagged only if a custom
    pattern accepts the empty string. *)
Theorem blank_command_is_not_flagged_by_builtins cmd config :
  allWhiteSpace cmd ->
  Forall (rejects []) (default [] (config ≫= customPatterns)) ->
  detectHighRiskCommand cmd config
  = {| isHighRisk := false; matchedPattern := None; command := [] |}.
Proof.
  intros Hws Hcustom. apply trim_allWhiteSpace in Hws.
  destruct config as [cfg|]; [|by rewrite detect_None, Hws].
  destruct (enabled cfg) eqn:E; [|by rewrite detect_disabled, Hws].
  rewrite detect_enabled, Hws by done. apply scan_no_match.
  unfold getHighRiskPatterns, effectivePatterns.
  apply Forall_app. split; [|done].
  apply Forall_forall. intros p [_ Hp]%list_elem_of_filter.
  pose proof builtins_reject_empty as Hb. rewrite Forall_forall in Hb.
  by apply Hb.
Qed.


Lemma builtin_detection_ignores_letter_case_witness :
  detectHighRiskCommand (asciiToUpperCase (js "sudo reboot"))
    (Some RiskScenario.defaultsOnly)
  = {| isHighRisk :=
         isHighRisk (detectHighRiskCommand (js "sudo reboot")
                       (Some RiskScenario.defaultsOnly));
       matchedPattern :=
         matchedPattern (detectHighRiskCommand (js "sudo reboot")
                           (Some RiskScenario.defaultsOnly));
       command :=
         asciiToUpperCase
           (command (detectHighRiskCommand (js "sudo reboot")
                       (Some RiskScenario.defaultsOnly))) |}.
Proof.
  apply (builtin_detection_ignores_letter_case (js "sudo reboot")
           RiskScenario.defaultsOnly).
  apply Forall_nil_2.
Defined.

Lemma command_with_flagged_prefix_is_flagged_witness :
  test (pattern RiskScenario.builtinSudo) (js "sudo ls" ++ js " -la") = true.
Proof.
  apply (command_with_flagged_prefix_is_flagged RiskScenario.builtinSudo
           (js "sudo ls") (js " -la")).
  - apply list_elem_of_further, list_elem_of_here.
  - apply (bool_decide_unpack _). vm_compute. exact I.
  - vm_compute. reflexivity.
Defined.

Lemma blank_command_is_not_flagged_by_builtins_witness :
  detectHighRiskCommand (js "   ") (Some RiskScenario.defaultsOnly)
  = {| isHighRisk := false; matchedPattern := None; command := [] |}.
Proof.
  apply (blank_command_is_not_flagged_by_builtins (js "   ")
           (Some RiskScenario.defaultsOnly)).
  - by repeat constructor.
  - apply Forall_nil_2.
Defined.

End DetectorFacts.
